(** * midi-mcp-server: the tool handlers of the server and the output
    port cache of [services/MidiService.ts], embedded and verified.

    Conventions of the embedding.
    - A JavaScript number held by a field that the tool schema declares as
      an integer (note, velocity, channel, controller, value, program,
      instrument, loop, a byte, a duration in milliseconds) is a [Z]; [+]
      and [-] on such numbers are exact, and the two bitwise operators
      the code uses go through [ToInt32], written out below.
    - The tempo and the durations of a song are IEEE doubles, as in the
      code: Rocq's primitive [float].
    - A field that may be absent is an [option]; [None] is JavaScript's
      [undefined].
    - An asynchronous function is a tree of effects ([Prog]). The process
      state (port cache, log ring, standard error, pending timers) and the
      traffic towards the device live in [World]; the MIDI library, the
      clock and the printing of doubles are the [Host].
    - The process is taken once [getMidi] has returned the initialised
      service, which every handler awaits first; messages arriving on
      input ports, which the service logs on its own, are not part of a
      handler's run. *)

From Stdlib Require Import ZArith Floats.PrimFloat Ascii String HexString.
From stdpp Require Import gmap strings list pretty.

Local Open Scope string_scope.
Local Open Scope list_scope.
Local Open Scope Z_scope.

(** ** JavaScript helpers *)

(** [x ?? d] *)
Definition nullish {A} (o : option A) (d : A) : A := default d o.
Infix "??" := nullish (at level 45, left associativity).

(** [x === undefined] *)
Definition undefined {A} (o : option A) : bool :=
  match o with None => true | Some _ => false end.

(** [!s] for a field typed [string]: [undefined] and the empty string are
    falsy. *)
Definition falsy (o : option string) : bool :=
  match o with None => true | Some s => String.eqb s "" end.

(** [!a] for a field typed as an array: every array is truthy, the empty
    one too. *)
Definition no_array {A} (o : option (list A)) : bool := undefined o.

(** Reading a field after the guard that established it is defined. *)
Definition str (o : option string) : string := default "" o.
Definition num (o : option Z) : Z := default 0 o.
Definition arr {A} (o : option (list A)) : list A := default [] o.

(** [ToInt32] of an integral number: reduction modulo 2^32 into
    [-2^31, 2^31). *)
Definition ToInt32 (x : Z) : Z := (x + 2 ^ 31) mod 2 ^ 32 - 2 ^ 31.

(** [a & b] *)
Definition js_and (a b : Z) : Z := Z.land (ToInt32 a) (ToInt32 b).

(** [a >> b]: arithmetic shift of [ToInt32 a] by the low five bits of
    [b]. *)
Definition js_shr (a b : Z) : Z := Z.shiftr (ToInt32 a) (b mod 32).

(** Template interpolation of an integral number. *)
Definition show (n : Z) : string := pretty n.

(** [b.toString(16)] *)
Definition toString16 (b : Z) : string :=
  match b with
  | Z0 => "0"
  | Zpos p => HexString.Raw.of_pos p ""
  | Zneg p => "-" +:+ HexString.Raw.of_pos p ""
  end.

Definition upper (c : ascii) : ascii :=
  let n := nat_of_ascii c in
  if ((97 <=? n) && (n <=? 122))%nat then ascii_of_nat (n - 32) else c.

Fixpoint toUpperCase (s : string) : string :=
  match s with
  | EmptyString => EmptyString
  | String c s' => String (upper c) (toUpperCase s')
  end.

Fixpoint fill (n : nat) (c : ascii) : string :=
  match n with O => EmptyString | S n' => String c (fill n' c) end.

(** [s.padStart(n, c)] for a one-character pad. *)
Definition padStart (n : nat) (c : ascii) (s : string) : string :=
  fill (n - String.length s) c +:+ s.

(** [data.map(b => '0x' + b.toString(16).toUpperCase().padStart(2, '0')).join(' ')] *)
Definition hex (data : list Z) : string :=
  String.concat " "
    (map (fun b => "0x" +:+ padStart 2 "0" (toUpperCase (toString16 b))) data).

(** ** The activity log *)

Inductive Direction := IN | OUT.

Definition direction_text (d : Direction) : string :=
  match d with IN => "IN" | OUT => "OUT" end.

Definition MAX_LOGS : nat := 100.

(** [`[${timestamp}] ${direction} ${port}: ${hex}`] *)
Definition log_line (timestamp : string) (direction : Direction)
    (port : string) (data : list Z) : string :=
  "[" +:+ timestamp +:+ "] " +:+ direction_text direction +:+ " " +:+ port
  +:+ ": " +:+ hex data.

(** [midiLogs.unshift(log); if (midiLogs.length > MAX_LOGS) midiLogs.pop();] *)
Definition unshift_pop (log : string) (midiLogs : list string) : list string :=
  let midiLogs := log :: midiLogs in
  if (MAX_LOGS <? length midiLogs)%nat then removelast midiLogs else midiLogs.

(** ** Effects *)

(** A delay handed to [setTimeout]: an integral number of milliseconds, or
    the double a song computes from its tempo. *)
Inductive Millis :=
| ms (d : Z)
| ms_float (d : float).

(** What a body does, one step at a time: an awaited send, a write to
    the log, or an awaited timer. *)
Inductive Action :=
| Send (portName : string) (message : list Z)
| Log (direction : Direction) (port : string) (data : list Z)
| Sleep (duration : Millis).

(** The body of an [async] function: it returns, throws, performs an
    action and goes on, or arms a timer whose callback is not awaited and
    goes on. *)
Inductive Prog (A : Type) : Type :=
| Return (a : A)
| Throw (message : string)
| Act (a : Action) (k : Prog A)
| SetTimeout (callback : Prog unit) (delay : Millis) (k : Prog A).

Arguments Return {A} a.
Arguments Throw {A} message.
Arguments Act {A} a k.
Arguments SetTimeout {A} callback delay k.

Declare Scope prog_scope.
Delimit Scope prog_scope with prog.
Bind Scope prog_scope with Prog.
Notation "a ;; k" := (Act a k)
  (at level 100, k at level 200, right associativity) : prog_scope.

(** [for (const x of xs) body] followed by [k]. *)
Definition for_of {A X} (xs : list X) (body : X -> Prog A -> Prog A)
    (k : Prog A) : Prog A :=
  foldr body k xs.

(** [for (let loop = 0; loop < loops; loop++) body] followed by [k]: the
    counter passes 0, 1, ... while it is below [loops]. *)
Definition for_upto {A} (loops : Z) (body : Prog A -> Prog A) (k : Prog A)
    : Prog A :=
  Nat.iter (Z.to_nat loops) body k.

(** ** The process state and the device *)

(** A handle returned by the MIDI library. *)
Definition Port := nat.

(** What leaves the process towards the device, in order. *)
Inductive Event :=
| Opened (portName : string) (port : Port)
| Sent (portName : string) (port : Port) (message : list Z)
| Waited (duration : Millis).

Record World := mkWorld {
  activeOutputs : gmap string Port;
  midiLogs : list string;
  stderr : list string;
  trace : list Event;
  timers : list (Millis * Prog unit);
  tick : nat
}.

Definition initial : World := mkWorld ∅ [] [] [] [] 0.

(** What the handlers consult outside their own code. Each consultation
    of the library or the clock is indexed by [tick], the number of
    earlier ones, so that the answers may change over time.
    [openMidiOut] answers [None] when it throws; [float_text] is the
    interpolation of a double into a template. *)
Record Host := mkHost {
  openMidiOut : nat -> string -> option Port;
  toISOString : nat -> string;
  float_text : float -> string
}.

Section Service.

Variable host : Host.

(** [MidiService.sendMessage]; [Some e] is the error thrown. *)
Definition sendMessage (portName : string) (message : list Z) (w : World)
    : option string * World :=
  match activeOutputs w !! portName with
  | Some port =>
      (None, mkWorld (activeOutputs w) (midiLogs w) (stderr w)
               (trace w ++ [Sent portName port message]) (timers w) (tick w))
  | None =>
      match openMidiOut host (tick w) portName with
      | Some port =>
          (None, mkWorld (<[portName := port]> (activeOutputs w)) (midiLogs w)
                   (stderr w)
                   (trace w ++ [Opened portName port; Sent portName port message])
                   (timers w) (S (tick w)))
      | None =>
          (Some ("Failed to open MIDI output port: " +:+ portName),
           mkWorld (activeOutputs w) (midiLogs w) (stderr w) (trace w)
             (timers w) (S (tick w)))
      end
  end.

Definition logMidi (direction : Direction) (port : string) (data : list Z)
    (w : World) : World :=
  let timestamp := toISOString host (tick w) in
  let log := log_line timestamp direction port data in
  mkWorld (activeOutputs w) (unshift_pop log (midiLogs w))
    (stderr w ++ [log]) (trace w) (timers w) (S (tick w)).

Definition perform (a : Action) (w : World) : option string * World :=
  match a with
  | Send portName message => sendMessage portName message w
  | Log direction port data => (None, logMidi direction port data w)
  | Sleep duration =>
      (None, mkWorld (activeOutputs w) (midiLogs w) (stderr w)
               (trace w ++ [Waited duration]) (timers w) (tick w))
  end.

Inductive Outcome (A : Type) : Type :=
| Ok (a : A)
| Err (message : string).

Fixpoint exec {A} (p : Prog A) (w : World) : Outcome A * World :=
  match p with
  | Return a => (Ok A a, w)
  | Throw e => (Err A e, w)
  | Act a k =>
      match perform a w with
      | (None, w') => exec k w'
      | (Some e, w') => (Err A e, w')
      end
  | SetTimeout callback delay k =>
      exec k (mkWorld (activeOutputs w) (midiLogs w) (stderr w) (trace w)
                (timers w ++ [(delay, callback)]) (tick w))
  end.

End Service.

Arguments Ok {A} a.
Arguments Err {A} message.

(** ** Tool arguments

    One record per [request.params.arguments as {...}] cast. A top-level
    field the handler tests for absence is an [option]; the fields of the
    nested items follow their TypeScript types. *)

Record SendArgs := {
  send_port : option string;
  send_bytes : option (list Z)
}.

Record NoteArgs := {
  note_port : option string;
  note_note : option Z;
  note_velocity : option Z;
  note_channel : option Z
}.

Record PlayNoteArgs := {
  pn_port : option string;
  pn_note : option Z;
  pn_velocity : option Z;
  pn_duration : option Z;
  pn_channel : option Z
}.

Record ControlChangeArgs := {
  cc_port : option string;
  cc_controller : option Z;
  cc_value : option Z;
  cc_channel : option Z
}.

Record ProgramChangeArgs := {
  pc_port : option string;
  pc_program : option Z;
  pc_channel : option Z
}.

Record PitchBendArgs := {
  pb_port : option string;
  pb_value : option Z;
  pb_channel : option Z
}.

Record NoteInfo := {
  ni_note : Z;
  ni_velocity : option Z;
  ni_duration : option Z
}.

Record SequenceArgs := {
  seq_port : option string;
  seq_notes : option (list NoteInfo);
  seq_channel : option Z
}.

Record ChordArgs := {
  chord_port : option string;
  chord_notes : option (list Z);
  chord_velocity : option Z;
  chord_duration : option Z;
  chord_channel : option Z
}.

(** [note: number | number[]] *)
Inductive NoteSpec :=
| one (note : Z)
| several (notes : list Z).

(** [duration: string | number] *)
Inductive DurationSpec :=
| beats (d : float)
| named (s : string).

Record CC := mkCC {
  controller : Z;
  value : Z
}.

Record NoteEvent := mkNoteEvent {
  ev_note : NoteSpec;
  ev_duration : DurationSpec;
  ev_velocity : option Z;
  ev_cc : option CC
}.

Record Track := mkTrack {
  track_port : option string;
  track_channel : option Z;
  track_instrument : option Z;
  track_loop : option Z;
  track_notes : list NoteEvent
}.

Record SongArgs := {
  song_port : option string;
  song_bpm : option float;
  song_tracks : option (list Track)
}.

(** ** The tool handlers of [CallToolRequestSchema] *)

Local Open Scope prog_scope.

Definition midi_send (args : SendArgs) : Prog string :=
  if falsy (send_port args) || no_array (send_bytes args)
  then Throw "Missing arguments: port and bytes are required"
  else
    let port := str (send_port args) in
    let bytes := arr (send_bytes args) in
    Send port bytes ;;
    Log OUT port bytes ;;
    Return ("Sent MIDI message to " +:+ port).

Definition midi_note_on (args : NoteArgs) : Prog string :=
  if falsy (note_port args) || undefined (note_note args)
  then Throw "Missing arguments: port and note are required"
  else
    let port := str (note_port args) in
    let note := num (note_note args) in
    let velocity := note_velocity args ?? 64 in
    let channel := (note_channel args ?? 1) - 1 in
    let statusByte := 0x90 + channel in
    let message := [statusByte; note; velocity] in
    Send port message ;;
    Log OUT port message ;;
    Return ("Note On: note " +:+ show note +:+ ", velocity " +:+ show velocity
            +:+ ", channel " +:+ show (channel + 1)).

Definition midi_note_off (args : NoteArgs) : Prog string :=
  if falsy (note_port args) || undefined (note_note args)
  then Throw "Missing arguments: port and note are required"
  else
    let port := str (note_port args) in
    let note := num (note_note args) in
    let velocity := note_velocity args ?? 64 in
    let channel := (note_channel args ?? 1) - 1 in
    let statusByte := 0x80 + channel in
    let message := [statusByte; note; velocity] in
    Send port message ;;
    Log OUT port message ;;
    Return ("Note Off: note " +:+ show note +:+ ", velocity " +:+ show velocity
            +:+ ", channel " +:+ show (channel + 1)).

Definition midi_play_note (args : PlayNoteArgs) : Prog string :=
  if falsy (pn_port args) || undefined (pn_note args)
  then Throw "Missing arguments: port and note are required"
  else
    let port := str (pn_port args) in
    let note := num (pn_note args) in
    let velocity := pn_velocity args ?? 64 in
    let duration := pn_duration args ?? 500 in
    let channel := (pn_channel args ?? 1) - 1 in
    let noteOnStatus := 0x90 + channel in
    let noteOnMessage := [noteOnStatus; note; velocity] in
    Send port noteOnMessage ;;
    Log OUT port noteOnMessage ;;
    SetTimeout
      (let noteOffStatus := 0x80 + channel in
       let noteOffMessage := [noteOffStatus; note; velocity] in
       Send port noteOffMessage ;;
       Log OUT port noteOffMessage ;;
       Return tt)
      (ms duration)
      (Return ("Playing note " +:+ show note +:+ " for " +:+ show duration
               +:+ "ms (velocity " +:+ show velocity +:+ ", channel "
               +:+ show (channel + 1) +:+ ")")).

Definition midi_control_change (args : ControlChangeArgs) : Prog string :=
  if falsy (cc_port args) || undefined (cc_controller args)
     || undefined (cc_value args)
  then Throw "Missing arguments: port, controller, and value are required"
  else
    let port := str (cc_port args) in
    let controller := num (cc_controller args) in
    let value := num (cc_value args) in
    let channel := (cc_channel args ?? 1) - 1 in
    let statusByte := 0xB0 + channel in
    let message := [statusByte; controller; value] in
    Send port message ;;
    Log OUT port message ;;
    Return ("CC: controller " +:+ show controller +:+ ", value " +:+ show value
            +:+ ", channel " +:+ show (channel + 1)).

Definition midi_program_change (args : ProgramChangeArgs) : Prog string :=
  if falsy (pc_port args) || undefined (pc_program args)
  then Throw "Missing arguments: port and program are required"
  else
    let port := str (pc_port args) in
    let program := num (pc_program args) in
    let channel := (pc_channel args ?? 1) - 1 in
    let statusByte := 0xC0 + channel in
    let message := [statusByte; program] in
    Send port message ;;
    Log OUT port message ;;
    Return ("Program Change: program " +:+ show program +:+ ", channel "
            +:+ show (channel + 1)).

Definition midi_pitch_bend (args : PitchBendArgs) : Prog string :=
  if falsy (pb_port args) || undefined (pb_value args)
  then Throw "Missing arguments: port and value are required"
  else
    let port := str (pb_port args) in
    let value := num (pb_value args) in
    let channel := (pb_channel args ?? 1) - 1 in
    let bendValue := value + 8192 in
    let lsb := js_and bendValue 0x7F in
    let msb := js_and (js_shr bendValue 7) 0x7F in
    let statusByte := 0xE0 + channel in
    let message := [statusByte; lsb; msb] in
    Send port message ;;
    Log OUT port message ;;
    Return ("Pitch Bend: " +:+ show value +:+ ", channel " +:+ show (channel + 1)).

(** The loop of [midi_play_sequence] threads [totalDuration] through its
    iterations; the text is built from its final value. *)
Fixpoint play_sequence_loop (port : string) (noteOnStatus noteOffStatus : Z)
    (notes : list NoteInfo) (totalDuration : Z) (k : Z -> Prog string)
    : Prog string :=
  match notes with
  | [] => k totalDuration
  | noteInfo :: rest =>
      let velocity := ni_velocity noteInfo ?? 64 in
      let duration := ni_duration noteInfo ?? 500 in
      let noteOnMessage := [noteOnStatus; ni_note noteInfo; velocity] in
      Send port noteOnMessage ;;
      Log OUT port noteOnMessage ;;
      Sleep (ms duration) ;;
      let noteOffMessage := [noteOffStatus; ni_note noteInfo; velocity] in
      Send port noteOffMessage ;;
      Log OUT port noteOffMessage ;;
      play_sequence_loop port noteOnStatus noteOffStatus rest
        (totalDuration + duration) k
  end.

Definition midi_play_sequence (args : SequenceArgs) : Prog string :=
  if falsy (seq_port args) || no_array (seq_notes args)
     || (length (arr (seq_notes args)) =? 0)%nat
  then Throw "Missing arguments: port and notes are required"
  else
    let port := str (seq_port args) in
    let notes := arr (seq_notes args) in
    let channel := (seq_channel args ?? 1) - 1 in
    let noteOnStatus := 0x90 + channel in
    let noteOffStatus := 0x80 + channel in
    play_sequence_loop port noteOnStatus noteOffStatus notes 0
      (fun totalDuration =>
         Return ("Played sequence of " +:+ show (Z.of_nat (length notes))
                 +:+ " notes (" +:+ show totalDuration
                 +:+ "ms total) on channel " +:+ show (channel + 1))).

Definition midi_play_chord (args : ChordArgs) : Prog string :=
  if falsy (chord_port args) || no_array (chord_notes args)
     || (length (arr (chord_notes args)) =? 0)%nat
  then Throw "Missing arguments: port and notes are required"
  else
    let port := str (chord_port args) in
    let notes := arr (chord_notes args) in
    let channel := (chord_channel args ?? 1) - 1 in
    let velocity := chord_velocity args ?? 64 in
    let duration := chord_duration args ?? 500 in
    let noteOnStatus := 0x90 + channel in
    let noteOffStatus := 0x80 + channel in
    for_of notes
      (fun note k =>
         let noteOnMessage := [noteOnStatus; note; velocity] in
         Send port noteOnMessage ;; Log OUT port noteOnMessage ;; k)
      (Sleep (ms duration) ;;
       for_of notes
         (fun note k =>
            let noteOffMessage := [noteOffStatus; note; velocity] in
            Send port noteOffMessage ;; Log OUT port noteOffMessage ;; k)
         (Return ("Played chord with " +:+ show (Z.of_nat (length notes))
                  +:+ " notes for " +:+ show duration +:+ "ms on channel "
                  +:+ show (channel + 1)))).

(** [const beatDuration = (60 / bpm) * 1000] *)
Definition beatDuration (bpm : float) : float := ((60 / bpm) * 1000)%float.

Definition getDuration (beatDuration : float) (duration : DurationSpec)
    : float :=
  match duration with
  | beats d => (d * beatDuration)%float
  | named s =>
      if String.eqb s "whole" then (beatDuration * 4)%float
      else if String.eqb s "half" then (beatDuration * 2)%float
      else if String.eqb s "quarter" then beatDuration
      else if String.eqb s "eighth" then (beatDuration / 2)%float
      else if String.eqb s "sixteenth" then (beatDuration / 4)%float
      else beatDuration
  end.

(** [Array.isArray(noteEvent.note) ? noteEvent.note : [noteEvent.note]] *)
Definition notes_of (n : NoteSpec) : list Z :=
  match n with one note => [note] | several notes => notes end.

(** The body of [for (const noteEvent of track.notes)], followed by [k]. *)
Definition play_event (trackPort : string) (channel : Z) (beatDuration : float)
    (noteEvent : NoteEvent) (k : Prog unit) : Prog unit :=
  let velocity := ev_velocity noteEvent ?? 64 in
  let duration := getDuration beatDuration (ev_duration noteEvent) in
  let notes := notes_of (ev_note noteEvent) in
  let play :=
    let noteOnStatus := 0x90 + channel in
    for_of notes
      (fun note k =>
         let noteOnMessage := [noteOnStatus; note; velocity] in
         Send trackPort noteOnMessage ;;
         Log OUT trackPort noteOnMessage ;; k)
      (Sleep (ms_float duration) ;;
       let noteOffStatus := 0x80 + channel in
       for_of notes
         (fun note k =>
            let noteOffMessage := [noteOffStatus; note; velocity] in
            Send trackPort noteOffMessage ;;
            Log OUT trackPort noteOffMessage ;; k)
         k) in
  match ev_cc noteEvent with
  | Some cc =>
      let ccMessage := [0xB0 + channel; controller cc; value cc] in
      Send trackPort ccMessage ;; Log OUT trackPort ccMessage ;; play
  | None => play
  end.

(** The [async (track) => {...}] mapped over [args.tracks]. *)
Definition play_track (port : string) (beatDuration : float) (track : Track)
    : Prog unit :=
  let trackPort := track_port track ?? port in
  let channel := (track_channel track ?? 1) - 1 in
  let loops := track_loop track ?? 1 in
  let looped :=
    for_upto loops
      (for_of (track_notes track) (play_event trackPort channel beatDuration))
      (Return tt) in
  match track_instrument track with
  | Some instrument =>
      let programChange := [0xC0 + channel; instrument] in
      Send trackPort programChange ;; Log OUT trackPort programChange ;; looped
  | None => looped
  end.

(** What a handler hands to the event loop: one awaited body, or the
    promises of [Promise.all] and the value returned once all resolved. *)
Inductive Handler :=
| Sequential (body : Prog string)
| PromiseAll (trackPromises : list (Prog unit)) (reply : string).

(** What a request asks for: one of the sending tools with its arguments,
    or a name that is none of the tools. ([midi_list_ports], which only
    reads the port list, is left out.) *)
Inductive Request :=
| call_midi_send (args : SendArgs)
| call_midi_note_on (args : NoteArgs)
| call_midi_note_off (args : NoteArgs)
| call_midi_play_note (args : PlayNoteArgs)
| call_midi_control_change (args : ControlChangeArgs)
| call_midi_program_change (args : ProgramChangeArgs)
| call_midi_pitch_bend (args : PitchBendArgs)
| call_midi_play_sequence (args : SequenceArgs)
| call_midi_play_chord (args : ChordArgs)
| call_midi_play_song (args : SongArgs)
| call_other (name : string).

Section Song.

Variable host : Host.

Definition midi_play_song (args : SongArgs) : Handler :=
  if falsy (song_port args) || no_array (song_tracks args)
     || (length (arr (song_tracks args)) =? 0)%nat
  then Sequential (Throw "Missing arguments: port and tracks are required")
  else
    let port := str (song_port args) in
    let tracks := arr (song_tracks args) in
    let bpm := song_bpm args ?? 120%float in
    PromiseAll
      (map (play_track port (beatDuration bpm)) tracks)
      ("Played song with " +:+ show (Z.of_nat (length tracks)) +:+ " tracks at "
       +:+ float_text host bpm +:+ " BPM").

(** The [switch (request.params.name)] of the handler. *)
Definition CallTool (request : Request) : Handler :=
  match request with
  | call_midi_send args => Sequential (midi_send args)
  | call_midi_note_on args => Sequential (midi_note_on args)
  | call_midi_note_off args => Sequential (midi_note_off args)
  | call_midi_play_note args => Sequential (midi_play_note args)
  | call_midi_control_change args => Sequential (midi_control_change args)
  | call_midi_program_change args => Sequential (midi_program_change args)
  | call_midi_pitch_bend args => Sequential (midi_pitch_bend args)
  | call_midi_play_sequence args => Sequential (midi_play_sequence args)
  | call_midi_play_chord args => Sequential (midi_play_chord args)
  | call_midi_play_song args => midi_play_song args
  | call_other _ => Sequential (Throw "Unknown tool")
  end.

End Song.

(** ** The event loop

    [exec] above runs one awaited body to its end. The promises of
    [Promise.all] advance together: each is a [Task], and a schedule, the
    list of the task indices in the order the event loop resumes them,
    decides the interleaving. A resumption performs the task's next
    action. Every order the event loop can produce is some schedule. *)

Record Task := mkTask {
  code : Prog unit;
  emitted : list Event
}.

Definition spawn (body : Prog unit) : Task := mkTask body [].

Definition finished (t : Task) : bool :=
  match code t with Return _ => true | _ => false end.

Definition failure (t : Task) : option string :=
  match code t with Throw e => Some e | _ => None end.

Inductive Reply :=
| Text (text : string)
| Failure (message : string)
| Pending.

Section Loop.

Variable host : Host.

(** One resumption of a task: its next action is performed, and what the
    action put on [trace] is recorded as emitted by this task. *)
Definition step_task (t : Task) (w : World) : Task * World :=
  match code t with
  | Act a k =>
      match perform host a w with
      | (None, w') =>
          (mkTask k (emitted t ++ drop (length (trace w)) (trace w')), w')
      | (Some e, w') => (mkTask (Throw e) (emitted t), w')
      end
  | SetTimeout callback delay k =>
      (mkTask k (emitted t),
       mkWorld (activeOutputs w) (midiLogs w) (stderr w) (trace w)
         (timers w ++ [(delay, callback)]) (tick w))
  | Return _ => (t, w)
  | Throw _ => (t, w)
  end.

(** The pool and the first rejection seen, which is the one [Promise.all]
    rejects with. *)
Record Pool := mkPool {
  tasks : list Task;
  rejected : option string
}.

Definition first_failure (ts : list Task) : option string :=
  hd_error (omap failure ts).

Definition start (bodies : list (Prog unit)) : Pool :=
  let ts := map spawn bodies in mkPool ts (first_failure ts).

Fixpoint run_pool (schedule : list nat) (pool : Pool) (w : World)
    : Pool * World :=
  match schedule with
  | [] => (pool, w)
  | i :: schedule' =>
      match tasks pool !! i with
      | Some t =>
          let '(t', w') := step_task t w in
          let rejected' :=
            match rejected pool with
            | Some e => Some e
            | None => failure t'
            end in
          run_pool schedule' (mkPool (<[i := t']> (tasks pool)) rejected') w'
      | None => run_pool schedule' pool w
      end
  end.

Definition serve (schedule : list nat) (h : Handler) (w : World)
    : Reply * World :=
  match h with
  | Sequential body =>
      match exec host body w with
      | (Ok text, w') => (Text text, w')
      | (Err e, w') => (Failure e, w')
      end
  | PromiseAll trackPromises reply =>
      let '(pool, w') := run_pool schedule (start trackPromises) w in
      match rejected pool with
      | Some e => (Failure e, w')
      | None =>
          if forallb finished (tasks pool) then (Text reply, w')
          else (Pending, w')
      end
  end.

End Loop.

(** ** What is observed on the wire *)

Inductive Wire :=
| Msg (portName : string) (message : list Z)
| Pause (duration : Millis).

Definition on_wire (e : Event) : option Wire :=
  match e with
  | Opened _ _ => None
  | Sent portName _ message => Some (Msg portName message)
  | Waited duration => Some (Pause duration)
  end.

(** The sends and waits of a trace, without the handles. *)
Definition wire (tr : list Event) : list Wire := omap on_wire tr.

(** How often a port name was opened. *)
Fixpoint opens (portName : string) (tr : list Event) : nat :=
  match tr with
  | [] => 0
  | Opened n _ :: tr' =>
      ((if String.eqb n portName then 1 else 0) + opens portName tr')%nat
  | _ :: tr' => opens portName tr'
  end.

(** ** The actions a body performs, read off its text *)

Fixpoint script {A} (p : Prog A) : list Action :=
  match p with
  | Return _ => []
  | Throw _ => []
  | Act a k => a :: script k
  | SetTimeout _ _ k => script k
  end.

Fixpoint ending {A} (p : Prog A) : Outcome A :=
  match p with
  | Return a => Ok a
  | Throw e => Err e
  | Act _ k => ending k
  | SetTimeout _ _ k => ending k
  end.

Definition action_wire (a : Action) : option Wire :=
  match a with
  | Send portName message => Some (Msg portName message)
  | Log _ _ _ => None
  | Sleep duration => Some (Pause duration)
  end.

Definition action_port (a : Action) : option string :=
  match a with
  | Send portName _ => Some portName
  | _ => None
  end.

Definition plan {A} (p : Prog A) : list Wire := omap action_wire (script p).
Definition ports {A} (p : Prog A) : list string := omap action_port (script p).

(** A port name the library opens whenever it is asked to. *)
Definition openable (host : Host) (portName : string) : Prop :=
  forall t, is_Some (openMidiOut host t portName).

(** A send to this port name cannot fail: its handle is cached, or the
    port opens. *)
Definition sendable (host : Host) (w : World) (portName : string) : Prop :=
  is_Some (activeOutputs w !! portName) \/ openable host portName.

Definition wire_of_action (a : Action) : list Wire :=
  match action_wire a with Some x => [x] | None => [] end.

(** The send-then-log pair every message goes through. *)
Definition send_log (port : string) (message : list Z) : list Action :=
  [Send port message; Log OUT port message].

(** Every send of the list goes to [port]. *)
Definition on_port (port : string) (acts : list Action) : Prop :=
  Forall (fun a => forall n, action_port a = Some n -> n = port) acts.

(** ** The message codec of the specification, on external channels *)

Definition noteOn (channel note velocity : Z) : list Z :=
  [0x90 + (channel - 1); note; velocity].

Definition noteOff (channel note velocity : Z) : list Z :=
  [0x80 + (channel - 1); note; velocity].

Definition controlChange (channel controller value : Z) : list Z :=
  [0xB0 + (channel - 1); controller; value].

Definition programChange (channel program : Z) : list Z :=
  [0xC0 + (channel - 1); program].

(** The sum of the per-event durations, each defaulting to 500 ms. *)
Definition total_duration (notes : list NoteInfo) : Z :=
  foldr (fun noteInfo acc => (ni_duration noteInfo ?? 500) + acc) 0 notes.

(** The actions of one event of a sequence. *)
Definition sequence_event (port : string) (c : Z) (noteInfo : NoteInfo)
    : list Action :=
  let V := ni_velocity noteInfo ?? 64 in
  send_log port (noteOn c (ni_note noteInfo) V)
  ++ [Sleep (ms (ni_duration noteInfo ?? 500))]
  ++ send_log port (noteOff c (ni_note noteInfo) V).

(** ** The timeline of a track, in the words of the specification

    A program change once if the track names an instrument, then the full
    event sequence [loop] times; each event is its CC if it has one, its
    note-ons, one wait, its note-offs. *)

Definition event_timeline (port : string) (c : Z) (beat : float)
    (ev : NoteEvent) : list Wire :=
  let V := ev_velocity ev ?? 64 in
  let notes := notes_of (ev_note ev) in
  match ev_cc ev with
  | Some cc => [Msg port [0xB0 + (c - 1); controller cc; value cc]]
  | None => []
  end
  ++ map (fun note => Msg port [0x90 + (c - 1); note; V]) notes
  ++ [Pause (ms_float (getDuration beat (ev_duration ev)))]
  ++ map (fun note => Msg port [0x80 + (c - 1); note; V]) notes.

Definition track_timeline (port : string) (beat : float) (track : Track)
    : list Wire :=
  let trackPort := track_port track ?? port in
  let c := track_channel track ?? 1 in
  match track_instrument track with
  | Some instrument => [Msg trackPort [0xC0 + (c - 1); instrument]]
  | None => []
  end
  ++ concat (replicate (Z.to_nat (track_loop track ?? 1))
               (flat_map (event_timeline trackPort c beat) (track_notes track))).

(** The same, as the actions of the body. *)
Definition event_script (port : string) (c : Z) (beat : float)
    (ev : NoteEvent) : list Action :=
  let V := ev_velocity ev ?? 64 in
  let notes := notes_of (ev_note ev) in
  match ev_cc ev with
  | Some cc => send_log port (controlChange c (controller cc) (value cc))
  | None => []
  end
  ++ flat_map (fun note => send_log port (noteOn c note V)) notes
  ++ [Sleep (ms_float (getDuration beat (ev_duration ev)))]
  ++ flat_map (fun note => send_log port (noteOff c note V)) notes.

Definition track_script (port : string) (beat : float) (track : Track)
    : list Action :=
  let trackPort := track_port track ?? port in
  let c := track_channel track ?? 1 in
  match track_instrument track with
  | Some instrument => send_log trackPort (programChange c instrument)
  | None => []
  end
  ++ concat (replicate (Z.to_nat (track_loop track ?? 1))
               (flat_map (event_script trackPort c beat) (track_notes track))).



(** [l] is a merge of the lists [ls] that keeps the order of each. *)
Inductive Interleaved {X} : list (list X) -> list X -> Prop :=
| interleaved_nil ls : Forall (fun h => h = []) ls -> Interleaved ls []
| interleaved_snoc ls i h xs l :
    ls !! i = Some (h ++ xs) ->
    Interleaved (<[i := h]> ls) l ->
    Interleaved ls (l ++ xs).

(** [pitchBend] of the specification: the 14-bit offset value split into
    two 7-bit data bytes. *)
Definition pitchBend (channel value : Z) : list Z :=
  [0xE0 + (channel - 1);
   Z.land (value + 8192) 0x7F;
   Z.land (Z.shiftr (value + 8192) 7) 0x7F].

(** ** Required fields

    The [required] array of each tool's input schema, each name with
    whether the request carries the field. *)

Definition defined {A} (o : option A) : bool := negb (undefined o).

Definition required (request : Request) : list (string * bool) :=
  match request with
  | call_midi_send a =>
      [("port", defined (send_port a)); ("bytes", defined (send_bytes a))]
  | call_midi_note_on a | call_midi_note_off a =>
      [("port", defined (note_port a)); ("note", defined (note_note a))]
  | call_midi_play_note a =>
      [("port", defined (pn_port a)); ("note", defined (pn_note a))]
  | call_midi_control_change a =>
      [("port", defined (cc_port a));
       ("controller", defined (cc_controller a));
       ("value", defined (cc_value a))]
  | call_midi_program_change a =>
      [("port", defined (pc_port a)); ("program", defined (pc_program a))]
  | call_midi_pitch_bend a =>
      [("port", defined (pb_port a)); ("value", defined (pb_value a))]
  | call_midi_play_sequence a =>
      [("port", defined (seq_port a)); ("notes", defined (seq_notes a))]
  | call_midi_play_chord a =>
      [("port", defined (chord_port a)); ("notes", defined (chord_notes a))]
  | call_midi_play_song a =>
      [("port", defined (song_port a)); ("tracks", defined (song_tracks a))]
  | call_other _ => []
  end.

(** The request leaves out one of its required fields. *)
Definition omits_required (request : Request) : bool :=
  existsb (fun field => negb field.2) (required request).

(** "a and b", "a, b, and c". *)
Definition enumerate (names : list string) : string :=
  match names with
  | [a; b] => a +:+ " and " +:+ b
  | _ =>
      String.concat ", " (removelast names) +:+ ", and " +:+ List.last names ""
  end.

(** The error text that names the required fields of the operation. *)
Definition missing_arguments (request : Request) : string :=
  "Missing arguments: " +:+ enumerate (map fst (required request))
  +:+ " are required".

(** ** Runs of calls *)

Definition LogCall : Type := Direction * string * list Z.

Definition log_calls (host : Host) (calls : list LogCall) (w : World) : World :=
  foldl (fun w call => logMidi host call.1.1 call.1.2 call.2 w) w calls.

(** The lines the calls write when the first of them reads the clock at
    tick [t]. *)
Fixpoint lines (host : Host) (t : nat) (calls : list LogCall) : list string :=
  match calls with
  | [] => []
  | call :: rest =>
      log_line (toISOString host t) call.1.1 call.1.2 call.2
      :: lines host (S t) rest
  end.

Definition send_all (host : Host) (calls : list (string * list Z)) (w : World)
    : World :=
  foldl (fun w call => (sendMessage host call.1 call.2 w).2) w calls.

(** A port name has been opened once if its handle is cached, and never
    otherwise. *)
Definition cache_counts (w : World) : Prop :=
  forall portName,
    opens portName (trace w)
    = match activeOutputs w !! portName with
      | Some _ => 1%nat
      | None => 0%nat
      end.

(** ** A concrete host and concrete requests *)

Definition demo_host : Host :=
  mkHost (fun _ _ => Some 1%nat) (fun t => "t" +:+ pretty t) (fun _ => "120").

Definition demo_chord : ChordArgs :=
  {| chord_port := Some "out"; chord_notes := Some [60; 64; 67];
     chord_velocity := Some 100; chord_duration := Some 300;
     chord_channel := None |}.

Definition demo_sequence : SequenceArgs :=
  {| seq_port := Some "out";
     seq_notes := Some [ {| ni_note := 60; ni_velocity := None;
                            ni_duration := Some 200 |};
                         {| ni_note := 62; ni_velocity := None;
                            ni_duration := Some 300 |} ];
     seq_channel := None |}.

Definition demo_song : SongArgs :=
  {| song_port := Some "out"; song_bpm := None;
     song_tracks := Some [
       {| track_port := None; track_channel := Some 2;
          track_instrument := Some 5; track_loop := Some 2;
          track_notes := [ {| ev_note := several [60; 64];
                              ev_duration := named "eighth";
                              ev_velocity := None;
                              ev_cc := Some {| controller := 7; value := 100 |} |} ] |};
       {| track_port := Some "b"; track_channel := None;
          track_instrument := None; track_loop := None;
          track_notes := [ {| ev_note := one 40; ev_duration := beats 2;
                              ev_velocity := Some 90; ev_cc := None |} ] |} ] |}.

(** A schedule that alternates the two tracks of [demo_song] while the
    second has steps left, then runs the first to its end. *)
Definition demo_schedule : list nat :=
  [0; 1; 0; 1; 0; 1; 0; 1; 0; 1]%nat ++ replicate 19 0%nat.

(** A host on which the port named "b" does not open. *)
Definition host_without_b : Host :=
  mkHost (fun _ portName => if String.eqb portName "b" then None else Some 1%nat)
    (fun t => "t" +:+ pretty t) (fun _ => "120").

(** The timeline of the first track of [demo_song]: channel 2,
    instrument 5, two loops of one event with a CC and a two-note chord
    lasting an eighth at 120 BPM. *)
Definition demo_timeline : list Wire :=
  [Msg "out" [0xC1; 5];
   Msg "out" [0xB1; 7; 100];
   Msg "out" [0x91; 60; 64]; Msg "out" [0x91; 64; 64];
   Pause (ms_float 250);
   Msg "out" [0x81; 60; 64]; Msg "out" [0x81; 64; 64];
   Msg "out" [0xB1; 7; 100];
   Msg "out" [0x91; 60; 64]; Msg "out" [0x91; 64; 64];
   Pause (ms_float 250);
   Msg "out" [0x81; 60; 64]; Msg "out" [0x81; 64; 64]].



(** * Further definitions: the rest of the handlers' behaviour *)

(** ** Guards

    What the guard at the head of each handler lets through: the port
    is a non-empty string, every other required field is present, and a
    list of notes or tracks is not empty. *)

Definition nonempty_port (o : option string) : bool := negb (falsy o).

Definition nonempty_list {A} (o : option (list A)) : bool :=
  match o with
  | Some (_ :: _) => true
  | _ => false
  end.

Definition accepted (request : Request) : bool :=
  match request with
  | call_midi_send a => nonempty_port (send_port a) && defined (send_bytes a)
  | call_midi_note_on a | call_midi_note_off a =>
      nonempty_port (note_port a) && defined (note_note a)
  | call_midi_play_note a => nonempty_port (pn_port a) && defined (pn_note a)
  | call_midi_control_change a =>
      nonempty_port (cc_port a) && defined (cc_controller a)
      && defined (cc_value a)
  | call_midi_program_change a =>
      nonempty_port (pc_port a) && defined (pc_program a)
  | call_midi_pitch_bend a => nonempty_port (pb_port a) && defined (pb_value a)
  | call_midi_play_sequence a =>
      nonempty_port (seq_port a) && nonempty_list (seq_notes a)
  | call_midi_play_chord a =>
      nonempty_port (chord_port a) && nonempty_list (chord_notes a)
  | call_midi_play_song a =>
      nonempty_port (song_port a) && nonempty_list (song_tracks a)
  | call_other _ => false
  end.

(** The request names one of the tools. *)
Definition is_tool (request : Request) : bool :=
  match request with call_other _ => false | _ => true end.

(** The port field of the request. *)
Definition request_port (request : Request) : option string :=
  match request with
  | call_midi_send a => send_port a
  | call_midi_note_on a | call_midi_note_off a => note_port a
  | call_midi_play_note a => pn_port a
  | call_midi_control_change a => cc_port a
  | call_midi_program_change a => pc_port a
  | call_midi_pitch_bend a => pb_port a
  | call_midi_play_sequence a => seq_port a
  | call_midi_play_chord a => chord_port a
  | call_midi_play_song a => song_port a
  | call_other _ => None
  end.

(** The error [MidiService.sendMessage] throws for a port. *)
Definition open_failure (portName : string) : string :=
  "Failed to open MIDI output port: " +:+ portName.

(** A send to this port name succeeds in this state: its handle is
    cached, or the library opens the port now. *)
Definition opens_now (host : Host) (w : World) (portName : string) : Prop :=
  is_Some (activeOutputs w !! portName)
  \/ is_Some (openMidiOut host (tick w) portName).

(** ** Tasks that may fail

    A task keeps to its timeline on [port] while what it has emitted and
    what its remaining text plans add up to the timeline; or it has
    failed to open [port]. *)
Definition tracking (port : string) (timeline : list Wire) (t : Task) : Prop :=
  (ending (code t) = Ok tt
   /\ on_port port (script (code t))
   /\ wire (emitted t) ++ plan (code t) = timeline)
  \/ code t = Throw (open_failure port).

(** The port a track sends to and the title of the reply of a song. *)
Definition port_of_track (port : string) (track : Track) : string :=
  track_port track ?? port.



(** The text a song replies with. *)
Definition song_reply (host : Host) (args : SongArgs) : string :=
  "Played song with " +:+ show (Z.of_nat (length (arr (song_tracks args))))
  +:+ " tracks at " +:+ float_text host (song_bpm args ?? 120%float) +:+ " BPM".

(** ** Timers

    The event loop fires the [i]-th pending timer: it leaves the queue
    and its callback runs to its end. *)
Definition fire (host : Host) (i : nat) (w : World)
    : option (Outcome unit * World) :=
  match timers w !! i with
  | Some (_, callback) =>
      Some (exec host callback
              (mkWorld (activeOutputs w) (midiLogs w) (stderr w) (trace w)
                 (delete i (timers w)) (tick w)))
  | None => None
  end.

(** ** The life of the process

    A turn of the event loop, as far as the handlers go: a tool call
    served under a schedule, or a pending timer that fires. *)
Inductive Turn :=
| Call (schedule : list nat) (request : Request)
| Fire (i : nat).

Definition turn (host : Host) (t : Turn) (w : World) : World :=
  match t with
  | Call schedule request => (serve host schedule (CallTool host request) w).2
  | Fire i =>
      match fire host i w with
      | Some r => r.2
      | None => w
      end
  end.

Definition run_turns (host : Host) (turns : list Turn) (w : World) : World :=
  foldl (fun w t => turn host t w) w turns.

(** What a run wrote to the log: the lines of [stderr] it added, and the
    ring is the old ring with those lines, newest first, in front, cut to
    the capacity. *)
Definition ring_follows (w w' : World) : Prop :=
  (length (midiLogs w) <= MAX_LOGS)%nat ->
  (length (midiLogs w') <= MAX_LOGS)%nat
  /\ exists added,
       stderr w' = stderr w ++ added
       /\ midiLogs w' = take MAX_LOGS (reverse added ++ midiLogs w).

(** The cache only grows, and keeps its count of opens. *)
Definition cache_follows (w w' : World) : Prop :=
  activeOutputs w ⊆ activeOutputs w'
  /\ (cache_counts w -> cache_counts w').

(** The messages of a plan, with their ports. *)
Definition messages (plan : list Wire) : list (string * list Z) :=
  omap (fun x => match x with
                 | Msg portName message => Some (portName, message)
                 | Pause _ => None
                 end) plan.

(** The log lines of outgoing messages whose clock readings are
    [stamps]. *)
Definition out_lines (stamps : list string) (sent : list (string * list Z))
    : list string :=
  zip_with (fun stamp m => log_line stamp OUT m.1 m.2) stamps sent.

(** A script in which every send is followed at once by the log of the
    same port and data, and nothing else is logged. *)
Inductive Mirrored : list Action -> Prop :=
| mirrored_nil : Mirrored []
| mirrored_send port message acts :
    Mirrored acts ->
    Mirrored (Send port message :: Log OUT port message :: acts)
| mirrored_sleep duration acts :
    Mirrored acts -> Mirrored (Sleep duration :: acts).

(** The actions of a script performed in order, up to the first error. *)
Fixpoint perform_all (host : Host) (acts : list Action) (w : World)
    : option string * World :=
  match acts with
  | [] => (None, w)
  | a :: acts' =>
      match perform host a w with
      | (None, w') => perform_all host acts' w'
      | (Some e, w') => (Some e, w')
      end
  end.

(** Two states that differ in their pending timers at most. *)
Definition same_but_timers (w1 w2 : World) : Prop :=
  activeOutputs w1 = activeOutputs w2 /\ midiLogs w1 = midiLogs w2
  /\ stderr w1 = stderr w2 /\ trace w1 = trace w2 /\ tick w1 = tick w2.

(** ** Decoding, as a receiver of the bytes does it *)

(** The 14-bit value of the two data bytes of a pitch bend, centred. *)
Definition bend_of (lsb msb : Z) : Z := lsb + 128 * msb - 8192.

(** The kind and the channel (1-16) in a status byte. *)
Definition status_kind (status : Z) : Z := Z.land status 0xF0.
Definition status_channel (status : Z) : Z := Z.land status 0x0F + 1.

(** The channel a request plays on (default 1), for the tools that take
    one. *)
Definition request_channel (request : Request) : Z :=
  match request with
  | call_midi_note_on a | call_midi_note_off a => note_channel a ?? 1
  | call_midi_play_note a => pn_channel a ?? 1
  | call_midi_control_change a => cc_channel a ?? 1
  | call_midi_program_change a => pc_channel a ?? 1
  | call_midi_pitch_bend a => pb_channel a ?? 1
  | call_midi_play_sequence a => seq_channel a ?? 1
  | call_midi_play_chord a => chord_channel a ?? 1
  | _ => 1
  end.

(** The kinds of message a tool builds: note off 0x80, note on 0x90,
    control change 0xB0, program change 0xC0, pitch bend 0xE0. A raw
    message is not built by the handler; a song is left to its tracks. *)
Definition request_kinds (request : Request) : list Z :=
  match request with
  | call_midi_note_on _ | call_midi_play_note _ => [0x90]
  | call_midi_note_off _ => [0x80]
  | call_midi_control_change _ => [0xB0]
  | call_midi_program_change _ => [0xC0]
  | call_midi_pitch_bend _ => [0xE0]
  | call_midi_play_sequence _ | call_midi_play_chord _ => [0x90; 0x80]
  | _ => []
  end.

Definition builds_messages (request : Request) : bool :=
  match request_kinds request with [] => false | _ => true end.

(** The message decodes to one of the kinds and to the channel. *)
Definition decodes_to (kinds : list Z) (channel : Z) (message : list Z)
    : Prop :=
  exists status data,
    message = status :: data
    /\ status_channel status = channel
    /\ In (status_kind status) kinds.

(** ** Reading the bytes of a log line back *)


(** The tokens of a line, split at its spaces. *)
Fixpoint tokens (s : string) : list string :=
  match s with
  | EmptyString => [EmptyString]
  | String c s' =>
      if Ascii.eqb c " " then EmptyString :: tokens s'
      else match tokens s' with
           | t :: ts => String c t :: ts
           | [] => [String c EmptyString]
           end
  end.



(** * The service and its start

    The whole [MidiService] and [getMidi], which every handler awaits
    first. The state of the claims above is the [world] of a [Server];
    around it are the singleton, its library handle, the input cache and
    the input ports that have a logging listener.

    The fields of the singleton are fields of the server: [jzz],
    [activeInputs] and the [activeOutputs] of the world are those of
    [MidiService.instance] once [instance] says it is constructed, and
    have their initial values before. Requests are taken one at a time: a
    request that arrives while another one awaits is not modelled. *)

Inductive PortType := input | output.

(** [MidiPort] *)
Record MidiPort := mkMidiPort {
  port_id : string;
  port_name : string;
  port_type : PortType
}.

(** What the service itself writes to standard error, apart from the
    echo of the log, which is [stderr] of the world. *)
Inductive Notice :=
| Initialized
| InitFailed (err : string)
| Listening (portName : string)
| ListenFailed (portName : string).

Record Server := mkServer {
  world : World;
  instance : bool;
  jzz : bool;
  midiService : bool;
  activeInputs : gmap string Port;
  connectedInputs : gset string;
  listeners : list (string * Port);
  console : list Notice
}.

(** The process at its start: no singleton, nothing cached. *)
Definition fresh : Server := mkServer initial false false false ∅ ∅ [] [].

(** The MIDI library, besides what [Host] has of it: [JZZ] answers
    [Some e] when the promise of [JZZ()] rejects with [e]; [info] gives
    the names of the input ports and of the output ports; [openMidiIn]
    answers [None] when it throws. *)
Record Engine := mkEngine {
  engine_host : Host;
  JZZ : nat -> option string;
  info : nat -> list string * list string;
  openMidiIn : nat -> string -> option Port
}.

(** One consultation of the outside has passed. *)
Definition tock (w : World) : World :=
  mkWorld (activeOutputs w) (midiLogs w) (stderr w) (trace w) (timers w)
    (S (tick w)).

Definition with_world (w : World) (s : Server) : Server :=
  mkServer w (instance s) (jzz s) (midiService s) (activeInputs s)
    (connectedInputs s) (listeners s) (console s).

Definition notice (n : Notice) (s : Server) : Server :=
  mkServer (world s) (instance s) (jzz s) (midiService s) (activeInputs s)
    (connectedInputs s) (listeners s) (console s ++ [n]).

Section MidiService.

Variable engine : Engine.

(** [MidiService.initialize] *)
Definition initialize (s : Server) : option string * Server :=
  match JZZ engine (tick (world s)) with
  | None =>
      (None,
       notice Initialized
         (mkServer (tock (world s)) (instance s) true (midiService s)
            (activeInputs s) (connectedInputs s) (listeners s) (console s)))
  | Some err =>
      (Some err, notice (InitFailed err) (with_world (tock (world s)) s))
  end.

(** [if (!this.jzz) await this.initialize();] *)
Definition ensure_jzz (s : Server) : option string * Server :=
  if jzz s then (None, s) else initialize s.

(** [MidiService.getInstance] *)
Definition getInstance (s : Server) : option string * Server :=
  if instance s then (None, s)
  else
    initialize
      (mkServer (world s) true (jzz s) (midiService s) (activeInputs s)
         (connectedInputs s) (listeners s) (console s)).

(** [MidiService.listPorts] *)
Definition listPorts (s : Server) : (string + list MidiPort) * Server :=
  match ensure_jzz s with
  | (Some err, s') => (inl err, s')
  | (None, s') =>
      let info := info engine (tick (world s')) in
      let inputs := map (fun p => mkMidiPort p p input) info.1 in
      let outputs := map (fun p => mkMidiPort p p output) info.2 in
      (inr (inputs ++ outputs), with_world (tock (world s')) s')
  end.

(** [MidiService.listen], with the callback of [getMidi], which logs the
    message as incoming under the name of the port. *)
Definition listen (portName : string) (s : Server) : option string * Server :=
  match ensure_jzz s with
  | (Some err, s') => (Some err, s')
  | (None, s') =>
      match activeInputs s' !! portName with
      | Some port =>
          (None,
           mkServer (world s') (instance s') (jzz s') (midiService s')
             (activeInputs s') (connectedInputs s')
             (listeners s' ++ [(portName, port)]) (console s'))
      | None =>
          match openMidiIn engine (tick (world s')) portName with
          | Some port =>
              (None,
               mkServer (tock (world s')) (instance s') (jzz s')
                 (midiService s') (<[portName := port]> (activeInputs s'))
                 (connectedInputs s') (listeners s' ++ [(portName, port)])
                 (console s'))
          | None =>
              (Some ("Failed to open MIDI input port: " +:+ portName),
               with_world (tock (world s')) s')
          end
      end
  end.

(** The body of the loop of [getMidi] over the listed ports. *)
Definition auto_connect (s : Server) (port : MidiPort) : Server :=
  match port_type port with
  | input =>
      if decide (port_name port ∈ connectedInputs s) then s
      else
        match listen (port_name port) s with
        | (None, s') =>
            notice (Listening (port_name port))
              (mkServer (world s') (instance s') (jzz s') (midiService s')
                 (activeInputs s') ({[port_name port]} ∪ connectedInputs s')
                 (listeners s') (console s'))
        | (Some _, s') => notice (ListenFailed (port_name port)) s'
        end
  | output => s
  end.

(** [getMidi] *)
Definition getMidi (s : Server) : option string * Server :=
  if midiService s then (None, s)
  else
    match getInstance s with
    | (Some err, s1) => (Some err, s1)
    | (None, s1) =>
        let s2 :=
          mkServer (world s1) (instance s1) (jzz s1) true (activeInputs s1)
            (connectedInputs s1) (listeners s1) (console s1) in
        match listPorts s2 with
        | (inl err, s3) => (Some err, s3)
        | (inr ports, s3) => (None, foldl auto_connect s3 ports)
        end
    end.

(** [MidiService.sendMessage], whole: the library handle is made sure of
    first. *)
Definition service_sendMessage (portName : string) (message : list Z)
    (s : Server) : option string * Server :=
  match ensure_jzz s with
  | (Some err, s') => (Some err, s')
  | (None, s') =>
      let r := sendMessage (engine_host engine) portName message (world s') in
      (r.1, with_world r.2 s')
  end.

Definition service_perform (a : Action) (s : Server)
    : option string * Server :=
  match a with
  | Send portName message => service_sendMessage portName message s
  | _ =>
      let r := perform (engine_host engine) a (world s) in
      (r.1, with_world r.2 s)
  end.

Fixpoint service_exec {A} (p : Prog A) (s : Server) : Outcome A * Server :=
  match p with
  | Return a => (Ok a, s)
  | Throw e => (Err e, s)
  | Act a k =>
      match service_perform a s with
      | (None, s') => service_exec k s'
      | (Some e, s') => (Err e, s')
      end
  | SetTimeout callback delay k =>
      service_exec k
        (with_world
           (mkWorld (activeOutputs (world s)) (midiLogs (world s))
              (stderr (world s)) (trace (world s))
              (timers (world s) ++ [(delay, callback)]) (tick (world s)))
           s)
  end.

Definition service_step_task (t : Task) (s : Server) : Task * Server :=
  match code t with
  | Act a k =>
      match service_perform a s with
      | (None, s') =>
          (mkTask k
             (emitted t
              ++ drop (length (trace (world s))) (trace (world s'))),
           s')
      | (Some e, s') => (mkTask (Throw e) (emitted t), s')
      end
  | SetTimeout callback delay k =>
      (mkTask k (emitted t),
       with_world
         (mkWorld (activeOutputs (world s)) (midiLogs (world s))
            (stderr (world s)) (trace (world s))
            (timers (world s) ++ [(delay, callback)]) (tick (world s)))
         s)
  | Return _ => (t, s)
  | Throw _ => (t, s)
  end.

Fixpoint service_run_pool (schedule : list nat) (pool : Pool) (s : Server)
    : Pool * Server :=
  match schedule with
  | [] => (pool, s)
  | i :: schedule' =>
      match tasks pool !! i with
      | Some t =>
          let '(t', s') := service_step_task t s in
          let rejected' :=
            match rejected pool with
            | Some e => Some e
            | None => failure t'
            end in
          service_run_pool schedule'
            (mkPool (<[i := t']> (tasks pool)) rejected') s'
      | None => service_run_pool schedule' pool s
      end
  end.

Definition service_serve (schedule : list nat) (h : Handler) (s : Server)
    : Reply * Server :=
  match h with
  | Sequential body =>
      match service_exec body s with
      | (Ok text, s') => (Text text, s')
      | (Err e, s') => (Failure e, s')
      end
  | PromiseAll trackPromises reply =>
      let '(pool, s') := service_run_pool schedule (start trackPromises) s in
      match rejected pool with
      | Some e => (Failure e, s')
      | None =>
          if forallb finished (tasks pool) then (Text reply, s')
          else (Pending, s')
      end
  end.

(** The handler of [CallToolRequestSchema], whole: [getMidi] first, then
    the tool. *)
Definition handle (schedule : list nat) (request : Request) (s : Server)
    : Reply * Server :=
  match getMidi s with
  | (Some err, s') => (Failure err, s')
  | (None, s') =>
      service_serve schedule (CallTool (engine_host engine) request) s'
  end.

(** A message arrives on an input port with a handle: each callback
    connected to that handle logs it as incoming, under the name it was
    connected for. *)
Definition receive (port : Port) (data : list Z) (s : Server) : Server :=
  foldl (fun s listener =>
           if Nat.eqb listener.2 port
           then with_world
                  (logMidi (engine_host engine) IN listener.1 data (world s)) s
           else s)
    s (listeners s).

(** A pending timer fires: its callback runs, through the service. *)
Definition service_fire (i : nat) (s : Server) : Server :=
  match timers (world s) !! i with
  | Some (_, callback) =>
      (service_exec callback
         (with_world
            (mkWorld (activeOutputs (world s)) (midiLogs (world s))
               (stderr (world s)) (trace (world s))
               (delete i (timers (world s))) (tick (world s)))
            s)).2
  | None => s
  end.

(** What [midi_list_ports], the resource [midi://ports] and the prompt
    [midi_debug] read: [getMidi], then [listPorts]. *)
Definition list_ports (s : Server) : (string + list MidiPort) * Server :=
  match getMidi s with
  | (Some err, s') => (inl err, s')
  | (None, s') => listPorts s'
  end.




(** What happens to a server, one request at a time: a tool call, a
    timer that fires, a reading of the port list, or a message that
    arrives on an input port. *)
Inductive Happening :=
| Handles (schedule : list nat) (request : Request)
| Fires (i : nat)
| Lists
| Receives (port : Port) (data : list Z).

Definition happen (h : Happening) (s : Server) : Server :=
  match h with
  | Handles schedule request => (handle schedule request s).2
  | Fires i => service_fire i s
  | Lists => (list_ports s).2
  | Receives port data => receive port data s
  end.

Definition life (happenings : list Happening) (s : Server) : Server :=
  foldl (fun s h => happen h s) s happenings.

End MidiService.

(** The service is ready: [getMidi] has returned it with its library
    handle. *)
Definition ready (s : Server) : Prop := jzz s = true /\ midiService s = true.

(** The names that have a listener. *)
Definition listening (s : Server) : list string := map fst (listeners s).

(** Nothing of the input side has changed. *)
Definition same_inputs (s s' : Server) : Prop :=
  instance s' = instance s /\ midiService s' = midiService s
  /\ activeInputs s' = activeInputs s
  /\ connectedInputs s' = connectedInputs s
  /\ listeners s' = listeners s.

(** The library handle, once there, is still there. *)
Definition keeps_jzz (s s' : Server) : Prop := jzz s = true -> jzz s' = true.

(** A relation between the states of the sends and the log, between
    servers. *)
Definition lifted (R : World -> World -> Prop) (s s' : Server) : Prop :=
  R (world s) (world s').

(** The input side is in order: no name has two listeners, the names in
    [connectedInputs] are those with a listener, and a listener is on the
    cached handle of its name. *)
Definition wired (s : Server) : Prop :=
  NoDup (listening s)
  /\ (forall portName, portName ∈ connectedInputs s <-> portName ∈ listening s)
  /\ (forall portName port,
        (portName, port) ∈ listeners s ->
        activeInputs s !! portName = Some port).

(** The library opens this input port whenever asked. *)
Definition hearable (engine : Engine) (portName : string) : Prop :=
  forall t, is_Some (openMidiIn engine t portName).

(** The listeners on a handle, by the names they log under. *)
Definition listeners_on (port : Port) (s : Server) : list string :=
  map fst (filter (fun listener => listener.2 = port) (listeners s)).

(** No input has a listener, and as long as [getMidi] has not kept the
    service, nothing but failed starts has happened: one if the
    singleton exists, none if it does not. *)
Definition deaf (s : Server) : Prop :=
  listeners s = [] /\ connectedInputs s = ∅
  /\ (midiService s = false ->
      jzz s = false /\ timers (world s) = []
      /\ tick (world s) = if instance s then 1%nat else 0%nat).


(** ** The note table of [midi://reference/notes] *)

Definition noteNames : list string :=
  ["C"; "C#"; "D"; "D#"; "E"; "F"; "F#"; "G"; "G#"; "A"; "A#"; "B"].

(** [`${noteNames[i % 12]}${Math.floor(i / 12) - 1}`] *)
Definition note_name (i : nat) : string :=
  default "undefined" (noteNames !! (i mod 12)%nat)
  +:+ show (Z.of_nat (i / 12) - 1).

(** The names of the table, [Array.from({ length: 128 }, ...)]. *)
Definition note_table : list (nat * string) :=
  map (fun i => (i, note_name i)) (seq 0 128).

Definition demo_engine : Engine :=
  mkEngine demo_host (fun _ => None)
    (fun _ => (["keys"; "pads"], ["out"]))
    (fun _ portName => if String.eqb portName "keys" then Some 7%nat else None).

(** A server whose service is ready and has no inputs. *)
Definition demo_ready : Server :=
  mkServer initial true true true ∅ ∅ [] [Initialized].

(** The library fails to start twice, then starts. *)
Definition slow_engine : Engine :=
  mkEngine demo_host
    (fun t => if (t <? 2)%nat then Some "no MIDI" else None)
    (fun _ => (["keys"], ["out"]))
    (fun _ _ => Some 7%nat).

(** * Lemmas *)

Lemma wire_app (l l' : list Event) : wire (l ++ l') = wire l ++ wire l'.
Proof. apply omap_app. Qed.

Lemma sendable_mono host w w' portName :
  activeOutputs w ⊆ activeOutputs w' ->
  sendable host w portName -> sendable host w' portName.
Proof.
  intros Hsub [Hc | Ho]; [left | right; exact Ho].
  destruct Hc as [p Hp]. exists p. eapply lookup_weaken; eauto.
Qed.

Lemma demo_host_sendable w portName : sendable demo_host w portName.
Proof. right. intros t. exists 1%nat. reflexivity. Qed.

Section Run.

Variable host : Host.

Lemma sendMessage_hit w portName port message :
  activeOutputs w !! portName = Some port ->
  sendMessage host portName message w =
    (None, mkWorld (activeOutputs w) (midiLogs w) (stderr w)
             (trace w ++ [Sent portName port message]) (timers w) (tick w)).
Proof. intros H. unfold sendMessage. rewrite H. reflexivity. Qed.

Lemma sendMessage_miss w portName port message :
  activeOutputs w !! portName = None ->
  openMidiOut host (tick w) portName = Some port ->
  sendMessage host portName message w =
    (None, mkWorld (<[portName := port]> (activeOutputs w)) (midiLogs w)
             (stderr w)
             (trace w ++ [Opened portName port; Sent portName port message])
             (timers w) (S (tick w))).
Proof. intros H1 H2. unfold sendMessage. rewrite H1, H2. reflexivity. Qed.

Lemma sendMessage_ok w portName message :
  sendable host w portName ->
  exists w' evs,
    sendMessage host portName message w = (None, w') /\
    trace w' = trace w ++ evs /\
    wire evs = [Msg portName message] /\
    activeOutputs w ⊆ activeOutputs w' /\
    midiLogs w' = midiLogs w.
Proof.
  intros Hs.
  destruct (activeOutputs w !! portName) as [port|] eqn:Hc.
  - eexists _, _. split; [apply sendMessage_hit; exact Hc|].
    simpl. auto.
  - destruct Hs as [[p Hp] | Ho]; [congruence|].
    destruct (Ho (tick w)) as [port Hport].
    eexists _, _. split; [apply sendMessage_miss; eassumption|].
    simpl. repeat split; auto.
    apply insert_subseteq. exact Hc.
Qed.

Lemma sendMessage_cache_mono w portName message :
  activeOutputs w ⊆ activeOutputs (sendMessage host portName message w).2.
Proof.
  unfold sendMessage.
  destruct (activeOutputs w !! portName) eqn:Hc; simpl; [done|].
  destruct (openMidiOut host (tick w) portName); simpl; [|done].
  apply insert_subseteq. exact Hc.
Qed.

Lemma perform_cache_mono a w :
  activeOutputs w ⊆ activeOutputs (perform host a w).2.
Proof.
  destruct a; simpl; try done. apply sendMessage_cache_mono.
Qed.

Lemma perform_ok a w :
  (forall portName, action_port a = Some portName -> sendable host w portName) ->
  exists w' evs,
    perform host a w = (None, w') /\
    trace w' = trace w ++ evs /\
    wire evs = wire_of_action a /\
    activeOutputs w ⊆ activeOutputs w'.
Proof.
  intros Hs. destruct a as [portName message | direction port data | duration].
  - destruct (sendMessage_ok w portName message) as (w' & evs & H1 & H2 & H3 & H4 & _).
    { apply Hs. reflexivity. }
    exists w', evs. auto.
  - eexists _, []. split; [reflexivity|]. simpl. rewrite app_nil_r. auto.
  - eexists _, _. split; [reflexivity|]. simpl. auto.
Qed.

Lemma plan_act {A} a (k : Prog A) : plan (Act a k) = wire_of_action a ++ plan k.
Proof. unfold plan, wire_of_action. simpl. destruct (action_wire a); reflexivity. Qed.

(** A body whose ports can all be sent to runs to the end its text shows
    and puts exactly its plan on the wire. *)
Lemma exec_plan {A} (p : Prog A) : forall w,
  Forall (sendable host w) (ports p) ->
  exists w',
    exec host p w = (ending p, w') /\
    wire (trace w') = wire (trace w) ++ plan p /\
    activeOutputs w ⊆ activeOutputs w'.
Proof.
  induction p as [A a | A e | A a k IH | A callback _ delay k IH]; intros w Hs.
  - exists w. simpl. rewrite app_nil_r. auto.
  - exists w. simpl. rewrite app_nil_r. auto.
  - destruct (perform_ok a w) as (w1 & evs & H1 & H2' & H2 & H3).
    { intros portName Hp. unfold ports in Hs. simpl in Hs. rewrite Hp in Hs.
      inversion Hs; assumption. }
    destruct (IH w1) as (w' & E1 & E2 & E3).
    { assert (Hk : Forall (sendable host w) (ports k)).
      { unfold ports in *. simpl in Hs. destruct (action_port a); [|exact Hs].
        inversion Hs; assumption. }
      eapply Forall_impl; [exact Hk|]. intros x. apply sendable_mono. exact H3. }
    exists w'. simpl. rewrite H1. split; [exact E1|]. split.
    + rewrite E2, H2', wire_app, H2, plan_act, app_assoc. reflexivity.
    + etrans; eassumption.
  - simpl. apply (IH (mkWorld _ _ _ _ _ _)). exact Hs.
Qed.

End Run.

(** ** Loops, read off their text *)

Lemma script_for_of {A X} (xs : list X) (body : X -> Prog A -> Prog A)
    (f : X -> list Action) (k : Prog A) :
  (forall x k', script (body x k') = f x ++ script k') ->
  script (for_of xs body k) = flat_map f xs ++ script k.
Proof.
  intros Hbody. unfold for_of.
  induction xs as [|x xs IH]; simpl; [reflexivity|].
  rewrite Hbody, IH, app_assoc. reflexivity.
Qed.

Lemma ending_for_of {A X} (xs : list X) (body : X -> Prog A -> Prog A)
    (k : Prog A) :
  (forall x k', ending (body x k') = ending k') ->
  ending (for_of xs body k) = ending k.
Proof.
  intros Hbody. unfold for_of.
  induction xs as [|x xs IH]; simpl; [reflexivity|].
  rewrite Hbody. exact IH.
Qed.

Lemma script_for_upto {A} (loops : Z) (body : Prog A -> Prog A)
    (l : list Action) (k : Prog A) :
  (forall k', script (body k') = l ++ script k') ->
  script (for_upto loops body k)
  = concat (replicate (Z.to_nat loops) l) ++ script k.
Proof.
  intros Hbody. unfold for_upto.
  induction (Z.to_nat loops) as [|n IH]; simpl; [reflexivity|].
  rewrite Hbody, IH, app_assoc. reflexivity.
Qed.

Lemma ending_for_upto {A} (loops : Z) (body : Prog A -> Prog A) (k : Prog A) :
  (forall k', ending (body k') = ending k') ->
  ending (for_upto loops body k) = ending k.
Proof.
  intros Hbody. unfold for_upto.
  induction (Z.to_nat loops) as [|n IH]; simpl; [reflexivity|].
  rewrite Hbody. exact IH.
Qed.

Lemma wire_send_log {X} (port : string) (f : X -> list Z) (xs : list X) :
  omap action_wire (flat_map (fun x => send_log port (f x)) xs)
  = map (fun x => Msg port (f x)) xs.
Proof.
  induction xs as [|x xs IH]; [reflexivity|].
  cbn [flat_map map]. rewrite omap_app, IH. reflexivity.
Qed.

Lemma on_port_app port l l' :
  on_port port l -> on_port port l' -> on_port port (l ++ l').
Proof. apply Forall_app_2. Qed.

Lemma on_port_send_log port message : on_port port (send_log port message).
Proof.
  repeat constructor; simpl; intros n H; congruence.
Qed.

Lemma on_port_flat_map {X} port (f : X -> list Action) (xs : list X) :
  (forall x, on_port port (f x)) -> on_port port (flat_map f xs).
Proof.
  intros H. induction xs as [|x xs IH]; simpl; [constructor|].
  apply on_port_app; auto.
Qed.

Lemma on_port_concat_replicate port n l :
  on_port port l -> on_port port (concat (replicate n l)).
Proof.
  intros H. induction n as [|n IH]; simpl; [constructor|].
  apply on_port_app; auto.
Qed.

Lemma on_port_sleep port d : on_port port [Sleep d].
Proof. repeat constructor. simpl. intros n H. discriminate. Qed.

Lemma on_port_sendable host w port acts :
  on_port port acts -> sendable host w port ->
  Forall (sendable host w) (omap action_port acts).
Proof.
  intros Hon Hs. induction Hon as [|a acts Ha _ IH]; simpl; [constructor|].
  destruct (action_port a) as [n|] eqn:E; [|exact IH].
  constructor; [|exact IH]. rewrite (Ha n eq_refl). exact Hs.
Qed.

(** [exec_plan] for a body that sends to one port only. *)
Lemma exec_on_port host {A} (p : Prog A) (port : string) (w : World) :
  on_port port (script p) -> sendable host w port ->
  exists w',
    exec host p w = (ending p, w') /\
    wire (trace w') = wire (trace w) ++ plan p.
Proof.
  intros Hon Hs.
  destruct (exec_plan host p w) as (w' & H1 & H2 & _).
  { apply on_port_sendable with (port := port); assumption. }
  exists w'. auto.
Qed.

Lemma falsy_Some (port : string) : port <> "" -> falsy (Some port) = false.
Proof. intros H. simpl. apply String.eqb_neq. exact H. Qed.

(** ** Chords and sequences *)

Lemma script_play_chord args port notes :
  chord_port args = Some port -> port <> "" ->
  chord_notes args = Some notes -> notes <> [] ->
  let V := chord_velocity args ?? 64 in
  let D := chord_duration args ?? 500 in
  let c := chord_channel args ?? 1 in
  script (midi_play_chord args)
  = flat_map (fun n => send_log port (noteOn c n V)) notes
    ++ [Sleep (ms D)]
    ++ flat_map (fun n => send_log port (noteOff c n V)) notes
  /\ ending (midi_play_chord args)
     = Ok ("Played chord with " +:+ show (Z.of_nat (length notes))
           +:+ " notes for " +:+ show D +:+ "ms on channel " +:+ show c).
Proof.
  intros Hport Hne Hnotes Hnn V D c. unfold midi_play_chord.
  rewrite Hport, Hnotes, (falsy_Some _ Hne).
  destruct notes as [|n0 notes0]; [congruence|].
  cbn [no_array undefined arr str default from_option id orb length Nat.eqb].
  set (notes := n0 :: notes0). split.
  - rewrite (script_for_of _ _ (fun n => send_log port (noteOn c n V)))
      by (intros; reflexivity).
    f_equal. cbn [script app]. f_equal.
    rewrite (script_for_of _ _ (fun n => send_log port (noteOff c n V)))
      by (intros; reflexivity).
    cbn [script]. rewrite app_nil_r. reflexivity.
  - rewrite ending_for_of by (intros; reflexivity). cbn [ending].
    rewrite ending_for_of by (intros; reflexivity). cbn [ending].
    rewrite Z.sub_add. reflexivity.
Qed.

(** C2. A chord of [N] notes with velocity [V], duration [D] and channel
    [c] (defaults 64, 500, 1), sent to a port that accepts sends, puts on
    the wire the [N] note-on messages [[0x90+(c-1), note, V]] in list
    order with nothing between them, then one wait of [D] ms, then the [N]
    note-off messages [[0x80+(c-1), note, V]] in the same order, and the
    call returns "Played chord with N notes for Dms on channel c". *)
Theorem play_chord_emits host w args port notes :
  chord_port args = Some port -> port <> "" ->
  chord_notes args = Some notes -> notes <> [] ->
  sendable host w port ->
  let V := chord_velocity args ?? 64 in
  let D := chord_duration args ?? 500 in
  let c := chord_channel args ?? 1 in
  exists w',
    exec host (midi_play_chord args) w
    = (Ok ("Played chord with " +:+ show (Z.of_nat (length notes))
           +:+ " notes for " +:+ show D +:+ "ms on channel " +:+ show c), w')
    /\ wire (trace w')
       = wire (trace w)
         ++ map (fun note => Msg port [0x90 + (c - 1); note; V]) notes
         ++ [Pause (ms D)]
         ++ map (fun note => Msg port [0x80 + (c - 1); note; V]) notes.
Proof.
  intros Hport Hne Hnotes Hnn Hs V D c.
  destruct (script_play_chord args port notes Hport Hne Hnotes Hnn)
    as [Hscript Hend].
  destruct (exec_on_port host (midi_play_chord args) port w) as (w' & H1 & H2);
    [|exact Hs|].
  - rewrite Hscript. repeat apply on_port_app.
    + apply on_port_flat_map. intros n. apply on_port_send_log.
    + apply on_port_sleep.
    + apply on_port_flat_map. intros n. apply on_port_send_log.
  - exists w'. rewrite H1, Hend. split; [reflexivity|].
    rewrite H2. f_equal. unfold plan. rewrite Hscript.
    rewrite !omap_app, !wire_send_log. reflexivity.
Qed.

Lemma play_chord_emits_witness :
  exists w',
    exec demo_host (midi_play_chord demo_chord) initial
    = (Ok "Played chord with 3 notes for 300ms on channel 1", w')
    /\ wire (trace w')
       = [Msg "out" [0x90; 60; 100]; Msg "out" [0x90; 64; 100];
          Msg "out" [0x90; 67; 100]; Pause (ms 300);
          Msg "out" [0x80; 60; 100]; Msg "out" [0x80; 64; 100];
          Msg "out" [0x80; 67; 100]].
Proof.
  apply (play_chord_emits demo_host initial demo_chord "out" [60; 64; 67]).
  - reflexivity.
  - intros H; discriminate H.
  - reflexivity.
  - intros H; discriminate H.
  - apply demo_host_sendable.
Defined.

Lemma script_play_sequence_loop port c notes : forall total k,
  script (play_sequence_loop port (0x90 + (c - 1)) (0x80 + (c - 1)) notes total k)
  = flat_map (sequence_event port c) notes
    ++ script (k (total + total_duration notes))
  /\ ending (play_sequence_loop port (0x90 + (c - 1)) (0x80 + (c - 1)) notes total k)
     = ending (k (total + total_duration notes)).
Proof.
  induction notes as [|noteInfo notes IH]; intros total k.
  - simpl. rewrite Z.add_0_r. auto.
  - destruct (IH (total + (ni_duration noteInfo ?? 500)) k) as [IH1 IH2].
    cbn [play_sequence_loop script ending total_duration foldr flat_map].
    fold (total_duration notes). rewrite Z.add_assoc, IH1, IH2.
    split; reflexivity.
Qed.

Lemma on_port_sequence_event port c noteInfo :
  on_port port (sequence_event port c noteInfo).
Proof.
  unfold sequence_event. repeat apply on_port_app;
    auto using on_port_send_log, on_port_sleep.
Qed.

Lemma wire_sequence port c notes :
  omap action_wire (flat_map (sequence_event port c) notes)
  = flat_map (fun noteInfo =>
                let V := ni_velocity noteInfo ?? 64 in
                [Msg port [0x90 + (c - 1); ni_note noteInfo; V];
                 Pause (ms (ni_duration noteInfo ?? 500));
                 Msg port [0x80 + (c - 1); ni_note noteInfo; V]]) notes.
Proof.
  induction notes as [|noteInfo notes IH]; [reflexivity|].
  cbn [flat_map]. rewrite omap_app, IH. reflexivity.
Qed.

(** C3. A sequence of [N] note specifications, sent to a port that
    accepts sends, puts on the wire, event after event in list order, the
    event's note-on, a wait of the event's duration (default 500 ms) and
    the event's note-off; the call returns "Played sequence of N notes
    (Tms total) on channel c" with [T] the sum of the durations. *)
Theorem play_sequence_emits host w args port notes :
  seq_port args = Some port -> port <> "" ->
  seq_notes args = Some notes -> notes <> [] ->
  sendable host w port ->
  let c := seq_channel args ?? 1 in
  exists w',
    exec host (midi_play_sequence args) w
    = (Ok ("Played sequence of " +:+ show (Z.of_nat (length notes))
           +:+ " notes (" +:+ show (total_duration notes)
           +:+ "ms total) on channel " +:+ show c), w')
    /\ wire (trace w')
       = wire (trace w)
         ++ flat_map (fun noteInfo =>
                        let V := ni_velocity noteInfo ?? 64 in
                        [Msg port [0x90 + (c - 1); ni_note noteInfo; V];
                         Pause (ms (ni_duration noteInfo ?? 500));
                         Msg port [0x80 + (c - 1); ni_note noteInfo; V]])
              notes.
Proof.
  intros Hport Hne Hnotes Hnn Hs c.
  assert (Hrun : midi_play_sequence args
                 = play_sequence_loop port (0x90 + (c - 1)) (0x80 + (c - 1))
                     notes 0
                     (fun totalDuration =>
                        Return ("Played sequence of "
                                +:+ show (Z.of_nat (length notes))
                                +:+ " notes (" +:+ show totalDuration
                                +:+ "ms total) on channel "
                                +:+ show (c - 1 + 1)))).
  { unfold midi_play_sequence.
    rewrite Hport, Hnotes, (falsy_Some _ Hne).
    destruct notes as [|n0 notes0]; [congruence|]. reflexivity. }
  destruct (script_play_sequence_loop port c notes 0
              (fun totalDuration =>
                 Return ("Played sequence of "
                         +:+ show (Z.of_nat (length notes))
                         +:+ " notes (" +:+ show totalDuration
                         +:+ "ms total) on channel " +:+ show (c - 1 + 1))))
    as [Hscript Hend].
  rewrite <- Hrun in Hscript, Hend. cbn [script ending] in Hscript, Hend.
  rewrite app_nil_r in Hscript. rewrite Z.add_0_l, Z.sub_add in Hend.
  destruct (exec_on_port host (midi_play_sequence args) port w)
    as (w' & H1 & H2); [|exact Hs|].
  - rewrite Hscript. apply on_port_flat_map. intros n.
    apply on_port_sequence_event.
  - exists w'. rewrite H1, Hend. split; [reflexivity|].
    rewrite H2. f_equal. unfold plan. rewrite Hscript. apply wire_sequence.
Qed.

Lemma play_sequence_emits_witness :
  exists w',
    exec demo_host (midi_play_sequence demo_sequence) initial
    = (Ok "Played sequence of 2 notes (500ms total) on channel 1", w')
    /\ wire (trace w')
       = [Msg "out" [0x90; 60; 64]; Pause (ms 200); Msg "out" [0x80; 60; 64];
          Msg "out" [0x90; 62; 64]; Pause (ms 300); Msg "out" [0x80; 62; 64]].
Proof.
  apply (play_sequence_emits demo_host initial demo_sequence "out"
           (arr (seq_notes demo_sequence))).
  - reflexivity.
  - intros H; discriminate H.
  - reflexivity.
  - intros H; discriminate H.
  - apply demo_host_sendable.
Defined.

(** ** Tracks under the event loop *)




Section Scheduling.

Variable host : Host.





(** A resumption appends to the trace exactly what it records as
    emitted by the task. *)
Lemma perform_trace a w :
  exists evs,
    trace (perform host a w).2 = trace w ++ evs
    /\ ((perform host a w).1 <> None -> evs = []).
Proof.
  destruct a as [portName message | direction port data | duration]; simpl.
  - unfold sendMessage.
    destruct (activeOutputs w !! portName) as [port|]; simpl.
    + eexists. split; [reflexivity|]. intros H. exfalso. apply H. reflexivity.
    + destruct (openMidiOut host (tick w) portName) as [port|]; simpl.
      * eexists. split; [reflexivity|]. intros H. exfalso. apply H. reflexivity.
      * exists []. rewrite app_nil_r. split; [reflexivity|]. intros _. reflexivity.
  - exists []. rewrite app_nil_r. split; [reflexivity|]. intros _. reflexivity.
  - eexists. split; [reflexivity|]. intros H. exfalso. apply H. reflexivity.
Qed.

Lemma step_task_trace t w :
  exists evs,
    trace (step_task host t w).2 = trace w ++ evs
    /\ emitted (step_task host t w).1 = emitted t ++ evs.
Proof.
  unfold step_task.
  destruct (code t) as [u | e | a k | callback delay k]; simpl;
    try (exists []; rewrite !app_nil_r; auto; fail).
  destruct (perform_trace a w) as (evs & Htrace & Hfail).
  destruct (perform host a w) as [[e|] w'] eqn:Hp; simpl in *.
  - assert (evs = []) as -> by (apply Hfail; discriminate).
    exists []. rewrite !app_nil_r in *. split; [exact Htrace | reflexivity].
  - exists evs. rewrite Htrace, drop_app_length. split; reflexivity.
Qed.

(** Under every schedule, what the pool adds to the trace is a merge of
    what its tasks emitted, each task's events in its own order. *)
Lemma run_pool_interleaved : forall schedule pool w l,
  Interleaved (map emitted (tasks pool)) l ->
  exists l',
    trace (run_pool host schedule pool w).2 = trace w ++ l'
    /\ Interleaved (map emitted (tasks (run_pool host schedule pool w).1))
         (l ++ l').
Proof.
  induction schedule as [|j schedule IH]; intros pool w l Hl.
  - exists []. simpl. rewrite !app_nil_r. auto.
  - cbn [run_pool]. destruct (tasks pool !! j) as [tj|] eqn:Hj; [|apply IH, Hl].
    destruct (step_task_trace tj w) as (evs & Htrace & Hemit).
    destruct (step_task host tj w) as [t' w'] eqn:Hstep. simpl in *.
    set (pool' := mkPool _ _).
    destruct (IH pool' w' (l ++ evs)) as (l' & Htrace' & Hl').
    { unfold pool'. cbn [tasks].
      apply (interleaved_snoc _ j (emitted tj) evs l).
      - rewrite list_lookup_fmap, list_lookup_insert_eq
          by (eapply lookup_lt_Some; exact Hj).
        simpl. rewrite Hemit. reflexivity.
      - rewrite list_fmap_insert, list_insert_insert_eq.
        rewrite list_insert_id; [exact Hl|].
        rewrite list_lookup_fmap, Hj. reflexivity. }
    exists (evs ++ l'). rewrite Htrace', Htrace, <- !app_assoc.
    split; [reflexivity|]. rewrite <- app_assoc in Hl'. exact Hl'.
Qed.

Lemma start_interleaved (bodies : list (Prog unit)) :
  Interleaved (map emitted (tasks (start bodies))) [].
Proof.
  apply interleaved_nil. unfold start. cbn [tasks].
  apply Forall_forall. intros h Hh.
  apply list_elem_of_fmap in Hh as (t & -> & Ht).
  apply list_elem_of_fmap in Ht as (body & -> & _). reflexivity.
Qed.

End Scheduling.

(** ** The body of a track *)

Lemma script_play_event port beat c ev (k : Prog unit) :
  script (play_event port (c - 1) beat ev k)
  = event_script port c beat ev ++ script k.
Proof.
  unfold play_event, event_script. cbv zeta.
  assert (Hplay :
    script
      (for_of (notes_of (ev_note ev))
         (fun note k =>
            Send port [0x90 + (c - 1); note; ev_velocity ev ?? 64] ;;
            Log OUT port [0x90 + (c - 1); note; ev_velocity ev ?? 64] ;; k)
         (Sleep (ms_float (getDuration beat (ev_duration ev))) ;;
          for_of (notes_of (ev_note ev))
            (fun note k =>
               Send port [0x80 + (c - 1); note; ev_velocity ev ?? 64] ;;
               Log OUT port [0x80 + (c - 1); note; ev_velocity ev ?? 64] ;; k)
            k))%prog
    = flat_map (fun note => send_log port (noteOn c note (ev_velocity ev ?? 64)))
        (notes_of (ev_note ev))
      ++ [Sleep (ms_float (getDuration beat (ev_duration ev)))]
      ++ flat_map (fun note => send_log port (noteOff c note (ev_velocity ev ?? 64)))
           (notes_of (ev_note ev))
      ++ script k).
  { rewrite (script_for_of _ _
               (fun note => send_log port (noteOn c note (ev_velocity ev ?? 64))))
      by (intros; reflexivity).
    f_equal. cbn [script app]. f_equal.
    apply (script_for_of _ _
             (fun note => send_log port (noteOff c note (ev_velocity ev ?? 64)))).
    intros; reflexivity. }
  destruct (ev_cc ev) as [cc|].
  - cbn [script]. rewrite Hplay. rewrite <- !app_assoc. reflexivity.
  - rewrite Hplay. rewrite <- !app_assoc. reflexivity.
Qed.

Lemma ending_play_event port beat channel ev (k : Prog unit) :
  ending (play_event port channel beat ev k) = ending k.
Proof.
  unfold play_event. cbv zeta.
  destruct (ev_cc ev); cbn [ending];
    (rewrite ending_for_of by (intros; reflexivity)); cbn [ending];
    apply ending_for_of; intros; reflexivity.
Qed.

Lemma script_play_track port beat track :
  script (play_track port beat track) = track_script port beat track
  /\ ending (play_track port beat track) = Ok tt.
Proof.
  unfold play_track, track_script. cbv zeta.
  set (trackPort := track_port track ?? port).
  set (c := track_channel track ?? 1).
  assert (Hnotes : forall k : Prog unit,
            script (for_of (track_notes track)
                      (play_event trackPort (c - 1) beat) k)
            = flat_map (event_script trackPort c beat) (track_notes track)
              ++ script k).
  { intros k. apply script_for_of. intros ev k'. apply script_play_event. }
  assert (Hend : forall k : Prog unit,
            ending (for_of (track_notes track)
                      (play_event trackPort (c - 1) beat) k) = ending k).
  { intros k. apply ending_for_of. intros ev k'. apply ending_play_event. }
  split.
  - destruct (track_instrument track) as [instrument|]; cbn [script];
      rewrite (script_for_upto _ _ _ _ Hnotes); cbn [script];
      rewrite app_nil_r; reflexivity.
  - destruct (track_instrument track); cbn [ending];
      rewrite (ending_for_upto _ _ _ Hend); reflexivity.
Qed.

Lemma omap_flat_map {X Y Z'} (g : Y -> option Z') (f : X -> list Y) (xs : list X) :
  omap g (flat_map f xs) = flat_map (fun x => omap g (f x)) xs.
Proof.
  induction xs as [|x xs IH]; [reflexivity|].
  cbn [flat_map]. rewrite omap_app, IH. reflexivity.
Qed.

Lemma omap_concat_replicate {Y Z'} (g : Y -> option Z') (n : nat) (l : list Y) :
  omap g (concat (replicate n l)) = concat (replicate n (omap g l)).
Proof.
  induction n as [|n IH]; [reflexivity|].
  cbn [replicate concat]. rewrite omap_app, IH. reflexivity.
Qed.

Lemma wire_event_script port c beat ev :
  omap action_wire (event_script port c beat ev) = event_timeline port c beat ev.
Proof.
  unfold event_script, event_timeline.
  rewrite !omap_app, !wire_send_log.
  destruct (ev_cc ev); reflexivity.
Qed.

Lemma wire_track_script port beat track :
  omap action_wire (track_script port beat track) = track_timeline port beat track.
Proof.
  unfold track_script, track_timeline.
  rewrite omap_app, omap_concat_replicate, omap_flat_map.
  f_equal.
  - destruct (track_instrument track); reflexivity.
  - f_equal. f_equal. clear.
    induction (track_notes track) as [|ev evs IH]; [reflexivity|].
    cbn [flat_map]. rewrite wire_event_script, IH. reflexivity.
Qed.

Lemma on_port_event_script port c beat ev :
  on_port port (event_script port c beat ev).
Proof.
  unfold event_script. repeat apply on_port_app.
  - destruct (ev_cc ev); [apply on_port_send_log | constructor].
  - apply on_port_flat_map. intros n. apply on_port_send_log.
  - apply on_port_sleep.
  - apply on_port_flat_map. intros n. apply on_port_send_log.
Qed.

Lemma on_port_track_script port beat track :
  on_port (track_port track ?? port) (track_script port beat track).
Proof.
  unfold track_script. apply on_port_app.
  - destruct (track_instrument track); [apply on_port_send_log | constructor].
  - apply on_port_concat_replicate, on_port_flat_map.
    intros ev. apply on_port_event_script.
Qed.




(** The song served to its end under one interleaving of its tracks. *)
Example demo_song_served :
  let r := serve demo_host demo_schedule (midi_play_song demo_host demo_song)
             initial in
  r.1 = Text "Played song with 2 tracks at 120 BPM"
  /\ wire (trace r.2)
     = [Msg "out" [0xC1; 5]; Msg "b" [0x90; 40; 90];
        Msg "out" [0xB1; 7; 100]; Pause (ms_float 1000);
        Msg "b" [0x80; 40; 90];
        Msg "out" [0x91; 60; 64]; Msg "out" [0x91; 64; 64];
        Pause (ms_float 250);
        Msg "out" [0x81; 60; 64]; Msg "out" [0x81; 64; 64];
        Msg "out" [0xB1; 7; 100];
        Msg "out" [0x91; 60; 64]; Msg "out" [0x91; 64; 64];
        Pause (ms_float 250);
        Msg "out" [0x81; 60; 64]; Msg "out" [0x81; 64; 64]].
Proof. vm_compute. split; reflexivity. Qed.

(** When the port of the second track does not open, the call fails with
    that error and the first track still plays its whole timeline. *)
Example demo_song_one_port_fails :
  let r := serve host_without_b demo_schedule
             (midi_play_song host_without_b demo_song) initial in
  r.1 = Failure "Failed to open MIDI output port: b"
  /\ wire (trace r.2) = demo_timeline.
Proof. vm_compute. split; reflexivity. Qed.

(** ** Durations *)

(** C4. With [beatDuration = (60 / bpm) * 1000], a numeric duration [d]
    resolves to [d * beatDuration], "whole" to four beats, "half" to two,
    "quarter" to one, "eighth" to half a beat, "sixteenth" to a quarter
    of a beat, and every other name to one beat, without an error; at 120
    BPM "quarter" is 500 ms, "eighth" 250 ms and 2 beats 1000 ms, and at
    60 BPM "half" is 2000 ms. *)
Theorem getDuration_resolves :
  (forall bpm d,
     getDuration (beatDuration bpm) (beats d)
     = (d * ((60 / bpm) * 1000))%float)
  /\ (forall beat,
        getDuration beat (named "whole") = (beat * 4)%float
        /\ getDuration beat (named "half") = (beat * 2)%float
        /\ getDuration beat (named "quarter") = beat
        /\ getDuration beat (named "eighth") = (beat / 2)%float
        /\ getDuration beat (named "sixteenth") = (beat / 4)%float)
  /\ (forall beat s,
        s <> "whole" -> s <> "half" -> s <> "quarter" -> s <> "eighth" ->
        s <> "sixteenth" ->
        getDuration beat (named s) = beat)
  /\ getDuration (beatDuration 120) (named "quarter") = 500%float
  /\ getDuration (beatDuration 120) (named "eighth") = 250%float
  /\ getDuration (beatDuration 120) (named "eighth")
     = (0.5 * beatDuration 120)%float
  /\ getDuration (beatDuration 120) (named "sixteenth")
     = (0.25 * beatDuration 120)%float
  /\ getDuration (beatDuration 120) (beats 2) = 1000%float
  /\ getDuration (beatDuration 60) (named "half") = 2000%float.
Proof.
  split; [intros bpm d; reflexivity|].
  split; [intros beat; repeat split; reflexivity|].
  split.
  - intros beat s H1 H2 H3 H4 H5. unfold getDuration.
    apply String.eqb_neq in H1, H2, H3, H4, H5.
    rewrite H1, H2, H3, H4, H5. reflexivity.
  - repeat split; vm_compute; reflexivity.
Qed.

Lemma getDuration_resolves_witness :
  getDuration (beatDuration 90) (named "dotted") = beatDuration 90.
Proof.
  apply (proj1 (proj2 (proj2 getDuration_resolves)));
    intros H; discriminate H.
Defined.

(** ** Pitch bend *)

Lemma ToInt32_small x : - 2 ^ 31 <= x < 2 ^ 31 -> ToInt32 x = x.
Proof.
  intros H. unfold ToInt32. rewrite Z.mod_small by lia. lia.
Qed.

Lemma js_and_small a b :
  - 2 ^ 31 <= a < 2 ^ 31 -> - 2 ^ 31 <= b < 2 ^ 31 -> js_and a b = Z.land a b.
Proof. intros Ha Hb. unfold js_and. rewrite !ToInt32_small by assumption. reflexivity. Qed.

Lemma js_shr_small a b :
  - 2 ^ 31 <= a < 2 ^ 31 -> 0 <= b < 32 -> js_shr a b = Z.shiftr a b.
Proof.
  intros Ha Hb. unfold js_shr.
  rewrite ToInt32_small by assumption. rewrite Z.mod_small by assumption.
  reflexivity.
Qed.

Lemma bend_bytes value :
  -8192 <= value <= 8191 ->
  js_and (value + 8192) 0x7F = Z.land (value + 8192) 0x7F
  /\ js_and (js_shr (value + 8192) 7) 0x7F
     = Z.land (Z.shiftr (value + 8192) 7) 0x7F.
Proof.
  intros H. split.
  - apply js_and_small; lia.
  - rewrite js_shr_small by lia. apply js_and_small; [|lia].
    rewrite Z.shiftr_div_pow2 by lia.
    assert (0 <= (value + 8192) / 2 ^ 7 <= value + 8192).
    { split; [apply Z.div_pos; lia|].
      apply Z.div_le_upper_bound; [lia|]. nia. }
    lia.
Qed.

(** C5. For a value [v] in [-8192, 8191] and channel [c] (default 1), a
    pitch bend sent to a port that accepts sends puts exactly the message
    [[0xE0+(c-1), (v+8192) & 0x7F, ((v+8192) >> 7) & 0x7F]] on the wire;
    the data bytes are [0x00, 0x00] for -8192, [0x00, 0x40] for 0 and
    [0x7F, 0x7F] for 8191. *)
Theorem pitch_bend_message host w args port v :
  pb_port args = Some port -> port <> "" ->
  pb_value args = Some v ->
  -8192 <= v <= 8191 ->
  sendable host w port ->
  let c := pb_channel args ?? 1 in
  (exists w',
     exec host (midi_pitch_bend args) w
     = (Ok ("Pitch Bend: " +:+ show v +:+ ", channel " +:+ show c), w')
     /\ wire (trace w')
        = wire (trace w)
          ++ [Msg port [0xE0 + (c - 1);
                        Z.land (v + 8192) 0x7F;
                        Z.land (Z.shiftr (v + 8192) 7) 0x7F]])
  /\ pitchBend c (-8192) = [0xE0 + (c - 1); 0x00; 0x00]
  /\ pitchBend c 0 = [0xE0 + (c - 1); 0x00; 0x40]
  /\ pitchBend c 8191 = [0xE0 + (c - 1); 0x7F; 0x7F].
Proof.
  intros Hport Hne Hvalue Hrange Hs c. split; [|repeat split; reflexivity].
  destruct (bend_bytes v Hrange) as [Hlsb Hmsb].
  assert (Hbody : midi_pitch_bend args
                  = (Send port (pitchBend c v) ;;
                     Log OUT port (pitchBend c v) ;;
                     Return ("Pitch Bend: " +:+ show v +:+ ", channel "
                             +:+ show (c - 1 + 1)))%prog).
  { unfold midi_pitch_bend, pitchBend.
    rewrite Hport, Hvalue, (falsy_Some _ Hne).
    cbn [undefined orb str num default from_option id].
    rewrite Hlsb, Hmsb. reflexivity. }
  destruct (exec_on_port host (midi_pitch_bend args) port w) as (w' & H1 & H2);
    [|exact Hs|].
  - rewrite Hbody. apply (on_port_send_log port (pitchBend c v)).
  - exists w'. rewrite H1, H2, Hbody. cbn [ending]. rewrite Z.sub_add.
    split; reflexivity.
Qed.

Lemma pitch_bend_message_witness :
  exists w',
    exec demo_host
      (midi_pitch_bend {| pb_port := Some "out"; pb_value := Some 8191;
                          pb_channel := Some 16 |}) initial
    = (Ok "Pitch Bend: 8191, channel 16", w')
    /\ wire (trace w') = [Msg "out" [0xEF; 0x7F; 0x7F]].
Proof.
  apply (pitch_bend_message demo_host initial
           {| pb_port := Some "out"; pb_value := Some 8191;
              pb_channel := Some 16 |} "out" 8191).
  - reflexivity.
  - intros H; discriminate H.
  - reflexivity.
  - lia.
  - apply demo_host_sendable.
Defined.

(** ** Validation *)




(** C7. A request that leaves out a required field of its operation
    fails with the error that names the operation's required fields, and
    the failed call leaves the whole process state as it was: nothing is
    sent, no port is opened, the log ring is unchanged. *)
Theorem missing_required_fails host schedule w request :
  omits_required request = true ->
  serve host schedule (CallTool host request) w
  = (Failure (missing_arguments request), w).
Proof.
  intros H.
  destruct request as [a | a | a | a | a | a | a | a | a | a | name];
    cbn [CallTool serve];
    unfold omits_required, required, defined in H; cbn [existsb snd] in H;
    try discriminate H.
  - unfold midi_send. destruct (send_port a), (send_bytes a);
      try discriminate H; cbn; try destruct (String.eqb _ _); reflexivity.
  - unfold midi_note_on. destruct (note_port a), (note_note a);
      try discriminate H; cbn; try destruct (String.eqb _ _); reflexivity.
  - unfold midi_note_off. destruct (note_port a), (note_note a);
      try discriminate H; cbn; try destruct (String.eqb _ _); reflexivity.
  - unfold midi_play_note. destruct (pn_port a), (pn_note a);
      try discriminate H; cbn; try destruct (String.eqb _ _); reflexivity.
  - unfold midi_control_change.
    destruct (cc_port a), (cc_controller a), (cc_value a);
      try discriminate H; cbn; try destruct (String.eqb _ _); reflexivity.
  - unfold midi_program_change. destruct (pc_port a), (pc_program a);
      try discriminate H; cbn; try destruct (String.eqb _ _); reflexivity.
  - unfold midi_pitch_bend. destruct (pb_port a), (pb_value a);
      try discriminate H; cbn; try destruct (String.eqb _ _); reflexivity.
  - unfold midi_play_sequence. destruct (seq_port a), (seq_notes a);
      try discriminate H; cbn; try destruct (String.eqb _ _); reflexivity.
  - unfold midi_play_chord. destruct (chord_port a), (chord_notes a);
      try discriminate H; cbn; try destruct (String.eqb _ _); reflexivity.
  - unfold midi_play_song. destruct (song_port a), (song_tracks a);
      try discriminate H; cbn; try destruct (String.eqb _ _); reflexivity.
Qed.

Lemma missing_required_fails_witness :
  serve demo_host []
    (CallTool demo_host
       (call_midi_play_sequence
          {| seq_port := Some "out"; seq_notes := None; seq_channel := None |}))
    initial
  = (Failure "Missing arguments: port and notes are required", initial).
Proof.
  apply (missing_required_fails demo_host [] initial
           (call_midi_play_sequence
              {| seq_port := Some "out"; seq_notes := None;
                 seq_channel := None |})).
  reflexivity.
Defined.

(** ** The log ring *)

Example hex_bytes : hex [0; 255; 16; 144] = "0x00 0xFF 0x10 0x90".
Proof. reflexivity. Qed.

Lemma unshift_pop_take log midiLogs :
  (length midiLogs <= MAX_LOGS)%nat ->
  unshift_pop log midiLogs = take MAX_LOGS (log :: midiLogs).
Proof.
  intros Hlen. unfold unshift_pop. cbv zeta.
  destruct (Nat.ltb_spec MAX_LOGS (length (log :: midiLogs))) as [Hgt | Hle].
  - assert (Hfull : length (log :: midiLogs) = S MAX_LOGS) by (simpl in *; lia).
    destruct (exists_last (l := log :: midiLogs)) as (front & oldest & Heq);
      [discriminate|].
    rewrite Heq. rewrite removelast_last.
    rewrite Heq, length_app in Hfull. simpl in Hfull.
    rewrite take_app_length'; [reflexivity | lia].
  - rewrite take_ge; [reflexivity | exact Hle].
Qed.

Lemma take_app_take {X} (n : nat) (a b : list X) :
  take n (a ++ take n b) = take n (a ++ b).
Proof.
  rewrite !take_app. f_equal. rewrite take_take. f_equal. lia.
Qed.

Lemma logMidi_midiLogs host direction port data w :
  midiLogs (logMidi host direction port data w)
  = unshift_pop (log_line (toISOString host (tick w)) direction port data)
      (midiLogs w).
Proof. reflexivity. Qed.

Lemma log_calls_take host calls : forall w,
  (length (midiLogs w) <= MAX_LOGS)%nat ->
  midiLogs (log_calls host calls w)
  = take MAX_LOGS (reverse (lines host (tick w) calls) ++ midiLogs w).
Proof.
  induction calls as [|call calls IH]; intros w Hlen.
  - simpl. symmetry. apply take_ge. exact Hlen.
  - change (log_calls host (call :: calls) w)
      with (log_calls host calls (logMidi host call.1.1 call.1.2 call.2 w)).
    cbn [lines]. rewrite reverse_cons, IH.
    + rewrite logMidi_midiLogs, unshift_pop_take by exact Hlen.
      cbn [tick logMidi]. rewrite take_app_take, <- app_assoc. reflexivity.
    + rewrite logMidi_midiLogs, unshift_pop_take by exact Hlen.
      rewrite length_take. lia.
Qed.

Lemma length_lines host calls : forall t,
  length (lines host t calls) = length calls.
Proof.
  induction calls as [|call calls IH]; intros t; simpl; [reflexivity|].
  rewrite IH. reflexivity.
Qed.

Lemma unshift_pop_bounded log midiLogs :
  (length midiLogs <= MAX_LOGS)%nat ->
  (length (unshift_pop log midiLogs) <= MAX_LOGS)%nat.
Proof.
  intros H. rewrite unshift_pop_take by exact H. rewrite length_take. lia.
Qed.

Lemma perform_bounded host a w :
  (length (midiLogs w) <= MAX_LOGS)%nat ->
  (length (midiLogs (perform host a w).2) <= MAX_LOGS)%nat.
Proof.
  intros H. destruct a as [portName message | direction port data | duration];
    simpl.
  - unfold sendMessage. destruct (activeOutputs w !! portName); simpl;
      [exact H|]. destruct (openMidiOut host (tick w) portName); exact H.
  - apply unshift_pop_bounded. exact H.
  - exact H.
Qed.

Lemma exec_bounded host {A} (p : Prog A) : forall w,
  (length (midiLogs w) <= MAX_LOGS)%nat ->
  (length (midiLogs (exec host p w).2) <= MAX_LOGS)%nat.
Proof.
  induction p as [A a | A e | A a k IH | A callback _ delay k IH]; intros w H;
    simpl; try exact H.
  - pose proof (perform_bounded host a w H) as Hp.
    destruct (perform host a w) as [[e|] w']; simpl in *; [exact Hp|].
    apply IH. exact Hp.
  - apply IH. exact H.
Qed.

Lemma run_pool_bounded host : forall schedule pool w,
  (length (midiLogs w) <= MAX_LOGS)%nat ->
  (length (midiLogs (run_pool host schedule pool w).2) <= MAX_LOGS)%nat.
Proof.
  induction schedule as [|j schedule IH]; intros pool w H; [exact H|].
  cbn [run_pool]. destruct (tasks pool !! j) as [tj|]; [|apply IH, H].
  destruct (step_task host tj w) as [t' w'] eqn:Hstep.
  apply IH. unfold step_task in Hstep.
  destruct (code tj) as [u | e | a k | callback delay k].
  - inversion Hstep; subst; exact H.
  - inversion Hstep; subst; exact H.
  - pose proof (perform_bounded host a w H) as Hp.
    destruct (perform host a w) as [[e|] w1]; inversion Hstep; subst; exact Hp.
  - inversion Hstep; subst; exact H.
Qed.

(** C8. An append to a log of at most 100 entries leaves at most 100
    entries with the new entry at the head; below 100 nothing is evicted,
    at 100 exactly the oldest entry, the last of the list, is. The bound
    is kept by every served request, so it holds throughout. After 101
    appends to the empty log the log is the 101st, 100th, ..., 2nd line:
    100 entries, the 101st at the head, the first-inserted one evicted. *)
Theorem log_ring_bounded host :
  (forall w direction port data,
     (length (midiLogs w) <= 100)%nat ->
     let entry := log_line (toISOString host (tick w)) direction port data in
     let w' := logMidi host direction port data w in
     (length (midiLogs w') <= 100)%nat
     /\ head (midiLogs w') = Some entry
     /\ ((length (midiLogs w) < 100)%nat -> midiLogs w' = entry :: midiLogs w)
     /\ (length (midiLogs w) = 100%nat ->
         midiLogs w' = entry :: removelast (midiLogs w)))
  /\ (forall schedule h w,
        (length (midiLogs w) <= 100)%nat ->
        (length (midiLogs (serve host schedule h w).2) <= 100)%nat)
  /\ (forall calls,
        length calls = 101%nat ->
        let written := lines host 0 calls in
        let w' := log_calls host calls initial in
        midiLogs w' = reverse (drop 1 written)
        /\ length (midiLogs w') = 100%nat
        /\ head (midiLogs w') = last written
        /\ (forall first,
              written !! 0%nat = Some first ->
              first ∉ drop 1 written -> first ∉ midiLogs w')).
Proof.
  split; [|split].
  - intros w direction port data Hlen entry w'.
    assert (Hlogs : midiLogs w' = unshift_pop entry (midiLogs w)) by reflexivity.
    rewrite Hlogs. unfold unshift_pop, MAX_LOGS. cbv zeta.
    destruct (Nat.ltb_spec 100 (length (entry :: midiLogs w))) as [Hgt | Hle].
    + assert (Hfull : length (midiLogs w) = 100%nat) by (simpl in Hgt; lia).
      destruct (midiLogs w) as [|newest older] eqn:Hl; [discriminate Hfull|].
      assert (Hcut : removelast (entry :: newest :: older)
                     = entry :: removelast (newest :: older)) by reflexivity.
      rewrite Hcut. repeat split.
      * cbn [length]. rewrite removelast_firstn_len, length_firstn.
        simpl in *. lia.
      * lia.
    + simpl in Hle. repeat split; simpl; try lia.
  - intros schedule h w Hlen. destruct h as [body | trackPromises reply]; simpl.
    + pose proof (exec_bounded host body w Hlen) as H.
      destruct (exec host body w) as [[text|e] w']; exact H.
    + pose proof (run_pool_bounded host schedule (start trackPromises) w Hlen)
        as H.
      destruct (run_pool host schedule (start trackPromises) w) as [pool w'].
      destruct (rejected pool); [exact H|].
      destruct (forallb finished (tasks pool)); exact H.
  - intros calls Hcalls written w'.
    assert (Hw : midiLogs w' = take 100 (reverse written)).
    { unfold w'. rewrite log_calls_take by (simpl; lia).
      simpl. rewrite app_nil_r. reflexivity. }
    assert (Hlen : length written = 101%nat).
    { unfold written. rewrite length_lines. exact Hcalls. }
    assert (Hrev : take 100 (reverse written) = reverse (drop 1 written)).
    { rewrite take_reverse. rewrite Hlen. reflexivity. }
    rewrite Hw, Hrev. split; [reflexivity|]. split; [|split].
    + rewrite length_reverse, length_drop. lia.
    + destruct written as [|first rest]; [discriminate Hlen|].
      destruct rest as [|second rest']; [discriminate Hlen|].
      cbn [drop]. rewrite head_reverse. symmetry. apply last_cons_cons.
    + intros first _ Hnot Hin. apply Hnot. apply elem_of_reverse. exact Hin.
Qed.

Lemma log_ring_bounded_witness :
  head (midiLogs (logMidi demo_host OUT "out" [144; 60; 100] initial))
  = Some "[t0] OUT out: 0x90 0x3C 0x64".
Proof.
  apply (proj1 (log_ring_bounded demo_host) initial OUT "out" [144; 60; 100]).
  simpl. lia.
Defined.

(** ** The port cache *)

Lemma opens_app portName l l' :
  opens portName (l ++ l') = (opens portName l + opens portName l')%nat.
Proof.
  induction l as [|e l IH]; [reflexivity|].
  destruct e; simpl; rewrite IH; lia.
Qed.

Lemma sendMessage_cache_counts host portName message w :
  cache_counts w -> cache_counts (sendMessage host portName message w).2.
Proof.
  intros Hinv name. unfold sendMessage.
  destruct (activeOutputs w !! portName) as [port|] eqn:Hc; simpl.
  - rewrite opens_app. simpl. rewrite Nat.add_0_r. apply Hinv.
  - destruct (openMidiOut host (tick w) portName) as [port|]; simpl;
      [|apply Hinv].
    rewrite opens_app. simpl. rewrite (Hinv name).
    destruct (String.eqb_spec portName name) as [->|Hne].
    + rewrite lookup_insert_eq, Hc. reflexivity.
    + rewrite lookup_insert_ne by exact Hne.
      destruct (activeOutputs w !! name); reflexivity.
Qed.

Lemma send_all_cache_counts host calls : forall w,
  cache_counts w -> cache_counts (send_all host calls w).
Proof.
  induction calls as [|call calls IH]; intros w Hinv; [exact Hinv|].
  apply (IH (sendMessage host call.1 call.2 w).2).
  apply sendMessage_cache_counts. exact Hinv.
Qed.

Lemma send_all_keeps host calls : forall w portName port,
  activeOutputs w !! portName = Some port ->
  activeOutputs (send_all host calls w) !! portName = Some port.
Proof.
  induction calls as [|call calls IH]; intros w portName port Hc; [exact Hc|].
  apply (IH (sendMessage host call.1 call.2 w).2).
  eapply lookup_weaken; [exact Hc | apply sendMessage_cache_mono].
Qed.

(** C9. Over any run of [sendMessage] calls from the start of the
    process, each port name is opened at most once. A call for a name
    without a cached handle opens the port, stores the handle and sends on
    it; a call for a name with a cached handle sends on that handle,
    opens nothing and leaves the cache as it is; and a cached handle stays
    cached, unchanged, through every later call. *)
Theorem sendMessage_opens_once host :
  (forall calls portName,
     (opens portName (trace (send_all host calls initial)) <= 1)%nat)
  /\ (forall w portName port message,
        activeOutputs w !! portName = None ->
        openMidiOut host (tick w) portName = Some port ->
        let r := sendMessage host portName message w in
        r.1 = None
        /\ activeOutputs r.2 = <[portName := port]> (activeOutputs w)
        /\ trace r.2
           = trace w ++ [Opened portName port; Sent portName port message])
  /\ (forall w portName port message,
        activeOutputs w !! portName = Some port ->
        let r := sendMessage host portName message w in
        r.1 = None
        /\ activeOutputs r.2 = activeOutputs w
        /\ trace r.2 = trace w ++ [Sent portName port message])
  /\ (forall calls w portName port,
        activeOutputs w !! portName = Some port ->
        activeOutputs (send_all host calls w) !! portName = Some port).
Proof.
  split; [|split; [|split]].
  - intros calls portName.
    assert (Hinv : cache_counts (send_all host calls initial)).
    { apply send_all_cache_counts. intros name. reflexivity. }
    rewrite (Hinv portName).
    destruct (activeOutputs (send_all host calls initial) !! portName); lia.
  - intros w portName port message Hc Hopen r. unfold r.
    rewrite (sendMessage_miss host w portName port message Hc Hopen).
    auto.
  - intros w portName port message Hc r. unfold r.
    rewrite (sendMessage_hit host w portName port message Hc). auto.
  - intros calls w portName port. apply send_all_keeps.
Qed.

Lemma sendMessage_opens_once_witness :
  trace (send_all demo_host [("out", [144; 60; 100]); ("out", [128; 60; 100])]
           initial)
  = [Opened "out" 1%nat; Sent "out" 1%nat [144; 60; 100];
     Sent "out" 1%nat [128; 60; 100]].
Proof.
  apply (proj1 (proj2 (proj2 (sendMessage_opens_once demo_host)))
           (sendMessage demo_host "out" [144; 60; 100] initial).2
           "out" 1%nat [128; 60; 100]).
  vm_compute. reflexivity.
Defined.

(** ** Raw messages *)



(** * Further lemmas *)

(** ** The first send decides *)

Lemma exec_send_fails host w port message {A} (k : Prog A) :
  ~ opens_now host w port ->
  exec host (Send port message ;; k)%prog w
  = (Err (open_failure port),
     mkWorld (activeOutputs w) (midiLogs w) (stderr w) (trace w) (timers w)
       (S (tick w))).
Proof.
  intros Hno. cbn [exec perform]. unfold sendMessage.
  destruct (activeOutputs w !! port) as [p|] eqn:Hc.
  - exfalso. apply Hno. left. eauto.
  - destruct (openMidiOut host (tick w) port) as [p|] eqn:Ho.
    + exfalso. apply Hno. right. eauto.
    + reflexivity.
Qed.

Lemma sendMessage_caches host w port message :
  opens_now host w port ->
  exists w' evs,
    sendMessage host port message w = (None, w')
    /\ trace w' = trace w ++ evs
    /\ wire evs = [Msg port message]
    /\ is_Some (activeOutputs w' !! port)
    /\ midiLogs w' = midiLogs w
    /\ stderr w' = stderr w.
Proof.
  intros [[p Hp] | [p Hp]].
  - rewrite (sendMessage_hit host w port p message Hp).
    eexists _, _. split; [reflexivity|]. simpl. eauto 10.
  - destruct (activeOutputs w !! port) as [q|] eqn:Hc.
    + rewrite (sendMessage_hit host w port q message Hc).
      eexists _, _. split; [reflexivity|]. simpl. rewrite Hc. eauto 10.
    + rewrite (sendMessage_miss host w port p message Hc Hp).
      eexists _, _. split; [reflexivity|]. simpl.
      rewrite lookup_insert_eq. eauto 10.
Qed.

Lemma exec_send_succeeds host w port message {A} (k : Prog A) :
  opens_now host w port ->
  on_port port (script k) ->
  exists w',
    exec host (Send port message ;; k)%prog w = (ending k, w')
    /\ wire (trace w') = wire (trace w) ++ Msg port message :: plan k.
Proof.
  intros Hopen Hon.
  destruct (sendMessage_caches host w port message Hopen)
    as (w1 & evs & H1 & H2 & H3 & H4 & _).
  destruct (exec_on_port host k port w1 Hon) as (w' & E1 & E2);
    [left; exact H4|].
  exists w'. cbn [exec perform]. rewrite H1. split; [exact E1|].
  rewrite E2, H2, wire_app, H3, <- app_assoc. reflexivity.
Qed.

(** An error of a body whose text ends in a return is the failure to
    open a port. *)
Lemma exec_error_is_open_failure host {A} (p : Prog A) : forall w e w',
  (forall e', ending p <> Err e') ->
  exec host p w = (Err e, w') ->
  exists port, e = open_failure port.
Proof.
  induction p as [A a | A e0 | A a k IH | A callback _ delay k IH];
    intros w e w' Hend Hexec; simpl in *.
  - discriminate Hexec.
  - exfalso. apply (Hend e0). reflexivity.
  - destruct a as [port message | direction port data | duration];
      cbn [perform] in Hexec.
    + unfold sendMessage in Hexec.
      destruct (activeOutputs w !! port); [eapply IH; eauto|].
      destruct (openMidiOut host (tick w) port); [eapply IH; eauto|].
      inversion Hexec. exists port. reflexivity.
    + eapply IH; eauto.
    + eapply IH; eauto.
  - eapply IH; eauto.
Qed.

(** ** The shape of an accepted call *)

Lemma nonempty_port_Some o :
  nonempty_port o = true -> exists port, o = Some port /\ port <> "".
Proof.
  unfold nonempty_port, falsy. destruct o as [port|]; [|discriminate].
  intros H. exists port. split; [reflexivity|].
  apply String.eqb_neq. destruct (String.eqb port ""); [discriminate|reflexivity].
Qed.

Lemma defined_Some {A} (o : option A) :
  defined o = true -> exists x, o = Some x.
Proof. destruct o as [x|]; [eauto | discriminate]. Qed.

Lemma nonempty_list_Some {A} (o : option (list A)) :
  nonempty_list o = true -> exists l, o = Some l /\ l <> [].
Proof.
  destruct o as [[|x l]|]; try discriminate. intros _.
  exists (x :: l). split; [reflexivity | discriminate].
Qed.

Lemma on_port_log port direction p data : on_port port [Log direction p data].
Proof. repeat constructor. intros n H. discriminate H. Qed.

Lemma play_sequence_unfold args port notes :
  seq_port args = Some port -> port <> "" ->
  seq_notes args = Some notes -> notes <> [] ->
  let c := seq_channel args ?? 1 in
  midi_play_sequence args
  = play_sequence_loop port (0x90 + (c - 1)) (0x80 + (c - 1)) notes 0
      (fun totalDuration =>
         Return ("Played sequence of " +:+ show (Z.of_nat (length notes))
                 +:+ " notes (" +:+ show totalDuration
                 +:+ "ms total) on channel " +:+ show (c - 1 + 1))).
Proof.
  intros Hport Hne Hnotes Hnn c. unfold midi_play_sequence.
  rewrite Hport, Hnotes, (falsy_Some _ Hne).
  destruct notes as [|n0 notes0]; [congruence|]. reflexivity.
Qed.

Lemma script_play_sequence args port notes :
  seq_port args = Some port -> port <> "" ->
  seq_notes args = Some notes -> notes <> [] ->
  let c := seq_channel args ?? 1 in
  script (midi_play_sequence args) = flat_map (sequence_event port c) notes
  /\ ending (midi_play_sequence args)
     = Ok ("Played sequence of " +:+ show (Z.of_nat (length notes))
           +:+ " notes (" +:+ show (total_duration notes)
           +:+ "ms total) on channel " +:+ show c).
Proof.
  intros Hport Hne Hnotes Hnn c.
  rewrite (play_sequence_unfold args port notes Hport Hne Hnotes Hnn).
  fold c.
  destruct (script_play_sequence_loop port c notes 0
              (fun totalDuration =>
                 Return ("Played sequence of "
                         +:+ show (Z.of_nat (length notes))
                         +:+ " notes (" +:+ show totalDuration
                         +:+ "ms total) on channel " +:+ show (c - 1 + 1))))
    as [Hscript Hend].
  split.
  - rewrite Hscript. cbn [script]. apply app_nil_r.
  - rewrite Hend. cbn [ending]. rewrite Z.add_0_l, Z.sub_add. reflexivity.
Qed.

(** An accepted call of a tool with one awaited body starts with a send
    to the request's port, sends to no other port, and its text ends in
    a return. *)
Lemma accepted_shape host request body :
  CallTool host request = Sequential body ->
  accepted request = true ->
  exists port text message k,
    request_port request = Some port
    /\ body = (Send port message ;; k)%prog
    /\ on_port port (script k)
    /\ ending k = Ok text.
Proof.
  intros Hcall Hacc.
  destruct request as [a | a | a | a | a | a | a | a | a | a | name];
    cbn [CallTool accepted request_port] in *;
    try discriminate Hacc;
    apply andb_prop in Hacc as [Hacc1 Hacc2];
    try (apply andb_prop in Hacc1 as [Hacc1 Hacc3]);
    apply nonempty_port_Some in Hacc1 as (port & Hport & Hne).
  - apply defined_Some in Hacc2 as (bytes & Hbytes).
    inversion Hcall as [Hbody]. unfold midi_send.
    rewrite Hport, Hbytes, (falsy_Some _ Hne).
    eexists port, _, _, _. repeat split. apply on_port_log.
  - apply defined_Some in Hacc2 as (note & Hnote).
    inversion Hcall as [Hbody]. unfold midi_note_on.
    rewrite Hport, Hnote, (falsy_Some _ Hne).
    eexists port, _, _, _. repeat split. apply on_port_log.
  - apply defined_Some in Hacc2 as (note & Hnote).
    inversion Hcall as [Hbody]. unfold midi_note_off.
    rewrite Hport, Hnote, (falsy_Some _ Hne).
    eexists port, _, _, _. repeat split. apply on_port_log.
  - apply defined_Some in Hacc2 as (note & Hnote).
    inversion Hcall as [Hbody]. unfold midi_play_note.
    rewrite Hport, Hnote, (falsy_Some _ Hne).
    eexists port, _, _, _. repeat split. apply on_port_log.
  - apply defined_Some in Hacc2 as (value & Hvalue).
    apply defined_Some in Hacc3 as (controller & Hcontroller).
    inversion Hcall as [Hbody]. unfold midi_control_change.
    rewrite Hport, Hvalue, Hcontroller, (falsy_Some _ Hne).
    eexists port, _, _, _. repeat split. apply on_port_log.
  - apply defined_Some in Hacc2 as (program & Hprogram).
    inversion Hcall as [Hbody]. unfold midi_program_change.
    rewrite Hport, Hprogram, (falsy_Some _ Hne).
    eexists port, _, _, _. repeat split. apply on_port_log.
  - apply defined_Some in Hacc2 as (value & Hvalue).
    inversion Hcall as [Hbody]. unfold midi_pitch_bend.
    rewrite Hport, Hvalue, (falsy_Some _ Hne).
    eexists port, _, _, _. repeat split. apply on_port_log.
  - apply nonempty_list_Some in Hacc2 as (notes & Hnotes & Hnn).
    inversion Hcall as [Hbody].
    destruct (script_play_sequence a port notes Hport Hne Hnotes Hnn)
      as [Hscript Hend].
    assert (Hon : on_port port (script (midi_play_sequence a))).
    { rewrite Hscript. apply on_port_flat_map. intros n.
      apply on_port_sequence_event. }
    revert Hon Hend.
    rewrite (play_sequence_unfold a port notes Hport Hne Hnotes Hnn).
    destruct notes as [|n0 notes0]; [congruence|].
    cbn [play_sequence_loop]. intros Hon Hend. eexists port, _, _, _.
    split; [first [exact Hport | reflexivity]|]. split; [reflexivity|]. split.
    + cbn [script] in Hon. apply Forall_cons in Hon as [_ Hon]. exact Hon.
    + exact Hend.
  - apply nonempty_list_Some in Hacc2 as (notes & Hnotes & Hnn).
    inversion Hcall as [Hbody].
    destruct (script_play_chord a port notes Hport Hne Hnotes Hnn)
      as [Hscript Hend].
    assert (Hon : on_port port (script (midi_play_chord a))).
    { rewrite Hscript. repeat apply on_port_app.
      - apply on_port_flat_map. intros n. apply on_port_send_log.
      - apply on_port_sleep.
      - apply on_port_flat_map. intros n. apply on_port_send_log. }
    revert Hon Hend. unfold midi_play_chord.
    rewrite Hport, Hnotes, (falsy_Some _ Hne).
    destruct notes as [|n0 notes0]; [congruence|].
    cbn [no_array undefined arr str default from_option id orb Nat.eqb].
    change (length (n0 :: notes0) =? 0)%nat with false. cbv iota.
    unfold for_of at 1. cbn [foldr]. intros Hon Hend. eexists port, _, _, _.
    split; [first [exact Hport | reflexivity]|]. split; [reflexivity|]. split.
    + cbn [script] in Hon. apply Forall_cons in Hon as [_ Hon]. exact Hon.
    + exact Hend.
  - unfold midi_play_song in Hcall.
    apply nonempty_list_Some in Hacc2 as (tracks & Htracks & Hnn).
    rewrite Hport, Htracks, (falsy_Some _ Hne) in Hcall.
    destruct tracks as [|t0 tracks0]; [congruence|]. discriminate Hcall.
Qed.



(** ** What a resumption can do *)

Lemma perform_result host a w :
  match perform host a w with
  | (None, w') =>
      exists evs, trace w' = trace w ++ evs /\ wire evs = wire_of_action a
  | (Some e, w') =>
      exists port message,
        a = Send port message /\ e = open_failure port /\ trace w' = trace w
  end.
Proof.
  destruct a as [port message | direction port data | duration]; simpl.
  - unfold sendMessage. destruct (activeOutputs w !! port) as [p|].
    + eexists. split; reflexivity.
    + destruct (openMidiOut host (tick w) port) as [p|].
      * eexists. split; reflexivity.
      * exists port, message. auto.
  - exists []. rewrite app_nil_r. auto.
  - eexists. split; reflexivity.
Qed.

Lemma step_task_tracking host port timeline t w :
  tracking port timeline t ->
  tracking port timeline (step_task host t w).1.
Proof.
  intros [(Hend & Hon & Hsum) | Hfail]; unfold step_task.
  - destruct (code t) as [u | e | a k | callback delay k] eqn:Hcode.
    + simpl. left. rewrite Hcode. auto.
    + discriminate Hend.
    + cbn [script] in Hon. apply Forall_cons in Hon as [Ha Hk].
      pose proof (perform_result host a w) as Hp.
      destruct (perform host a w) as [[e|] w'].
      * destruct Hp as (p & message & -> & -> & _). right. simpl.
        rewrite (Ha p eq_refl). reflexivity.
      * destruct Hp as (evs & Htrace & Hwire). left. simpl.
        split; [exact Hend|]. split; [exact Hk|].
        rewrite Htrace, drop_app_length, wire_app, Hwire, <- app_assoc,
          <- plan_act.
        exact Hsum.
    + left. simpl. auto.
  - rewrite Hfail. simpl. right. exact Hfail.
Qed.

Lemma run_pool_tracking host port timeline i : forall schedule pool w t,
  tasks pool !! i = Some t ->
  tracking port timeline t ->
  exists t',
    tasks (run_pool host schedule pool w).1 !! i = Some t'
    /\ tracking port timeline t'.
Proof.
  induction schedule as [|j schedule IH]; intros pool w t Hi Ht.
  - exists t. auto.
  - cbn [run_pool]. destruct (tasks pool !! j) as [tj|] eqn:Hj; [|eauto].
    destruct (step_task host tj w) as [t' w'] eqn:Hstep.
    destruct (decide (j = i)) as [->|Hne].
    + assert (tj = t) by congruence. subst tj.
      pose proof (step_task_tracking host port timeline t w Ht) as Ht'.
      rewrite Hstep in Ht'. simpl in Ht'.
      eapply IH; [|exact Ht']. simpl.
      apply list_lookup_insert_eq. eapply lookup_lt_Some. exact Hi.
    + eapply IH; [|exact Ht]. simpl.
      rewrite list_lookup_insert_ne by exact Hne. exact Hi.
Qed.

Lemma run_pool_length host : forall schedule pool w,
  length (tasks (run_pool host schedule pool w).1) = length (tasks pool).
Proof.
  induction schedule as [|j schedule IH]; intros pool w; [reflexivity|].
  cbn [run_pool]. destruct (tasks pool !! j) as [tj|]; [|apply IH].
  destruct (step_task host tj w) as [t' w'].
  rewrite IH. simpl. apply length_insert.
Qed.

(** The first rejection of a pool whose tasks all track a timeline is
    the failure to open the port of one of them. *)
Lemma run_pool_rejected host (P : string -> Prop) : forall schedule pool w,
  (forall i t, tasks pool !! i = Some t ->
     exists port timeline, P port /\ tracking port timeline t) ->
  (forall e, rejected pool = Some e -> exists port, P port /\ e = open_failure port) ->
  forall e, rejected (run_pool host schedule pool w).1 = Some e ->
    exists port, P port /\ e = open_failure port.
Proof.
  induction schedule as [|j schedule IH]; intros pool w Htasks Hrej;
    [exact Hrej|].
  cbn [run_pool]. destruct (tasks pool !! j) as [tj|] eqn:Hj; [|eauto].
  destruct (Htasks j tj Hj) as (port & timeline & HP & Htj).
  pose proof (step_task_tracking host port timeline tj w Htj) as Ht'.
  destruct (step_task host tj w) as [t' w'] eqn:Hstep. simpl in Ht'.
  apply IH.
  - intros i t Hi. cbn [tasks] in Hi.
    destruct (decide (j = i)) as [->|Hne].
    + rewrite list_lookup_insert_eq in Hi by (eapply lookup_lt_Some; exact Hj).
      inversion Hi; subst. eauto.
    + rewrite list_lookup_insert_ne in Hi by exact Hne. eauto.
  - intros e He. cbn [rejected] in He.
    destruct (rejected pool) as [e0|] eqn:Hr.
    + inversion He; subst. eauto.
    + unfold failure in He. destruct Ht' as [(Hend & _) | Hfail].
      * destruct (code t'); try discriminate He. discriminate Hend.
      * rewrite Hfail in He. inversion He. eauto.
Qed.

(** ** Songs: what a reply means *)

Lemma midi_play_song_accepted host args :
  accepted (call_midi_play_song args) = true ->
  exists port tracks,
    song_port args = Some port /\ port <> ""
    /\ song_tracks args = Some tracks /\ tracks <> []
    /\ midi_play_song host args
       = PromiseAll
           (map (play_track port (beatDuration (song_bpm args ?? 120%float)))
              tracks)
           (song_reply host args).
Proof.
  cbn [accepted]. intros Hacc. apply andb_prop in Hacc as [H1 H2].
  apply nonempty_port_Some in H1 as (port & Hport & Hne).
  apply nonempty_list_Some in H2 as (tracks & Htracks & Hnn).
  exists port, tracks. repeat split; try assumption.
  unfold midi_play_song, song_reply. rewrite Hport, Htracks, (falsy_Some _ Hne).
  destruct tracks as [|t0 tracks0]; [congruence|]. reflexivity.
Qed.

Lemma midi_play_song_rejected host args :
  accepted (call_midi_play_song args) = false ->
  midi_play_song host args
  = Sequential (Throw "Missing arguments: port and tracks are required").
Proof.
  cbn [accepted]. unfold nonempty_port, nonempty_list, midi_play_song.
  intros Hacc. destruct (falsy (song_port args)); [reflexivity|].
  destruct (song_tracks args) as [[|t0 tracks0]|]; try reflexivity.
  discriminate Hacc.
Qed.

Lemma spawn_tracking port beat track :
  tracking (track_port track ?? port) (track_timeline port beat track)
    (spawn (play_track port beat track)).
Proof.
  left. destruct (script_play_track port beat track) as [Hscript Hend].
  simpl. split; [exact Hend|]. split.
  - rewrite Hscript. apply on_port_track_script.
  - unfold plan. rewrite Hscript. apply wire_track_script.
Qed.

Lemma tracking_finished port timeline t :
  tracking port timeline t -> finished t = true -> wire (emitted t) = timeline.
Proof.
  unfold finished. intros [(_ & _ & Hsum) | Hfail] Hfin.
  - destruct (code t); try discriminate Hfin.
    unfold plan in Hsum. simpl in Hsum. rewrite app_nil_r in Hsum. exact Hsum.
  - rewrite Hfail in Hfin. discriminate Hfin.
Qed.

(** X2. When a song replies with its text, every track has put its whole
    timeline on the wire: what the call added to the device trace is a
    merge of per-track event lists, in track order one list per track,
    whose sends and waits are exactly the timelines of the tracks. This
    holds under every schedule and whatever the ports do. *)
Theorem song_text_means_all_played host schedule w args reply w' :
  serve host schedule (midi_play_song host args) w = (Text reply, w') ->
  exists port tracks emissions l,
    song_port args = Some port
    /\ song_tracks args = Some tracks
    /\ reply = song_reply host args
    /\ trace w' = trace w ++ l
    /\ Interleaved emissions l
    /\ map wire emissions
       = map (track_timeline port (beatDuration (song_bpm args ?? 120%float)))
           tracks.
Proof.
  intros Hserve.
  destruct (accepted (call_midi_play_song args)) eqn:Hacc.
  2: { rewrite (midi_play_song_rejected host args Hacc) in Hserve.
       discriminate Hserve. }
  destruct (midi_play_song_accepted host args Hacc)
    as (port & tracks & Hport & Hne & Htracks & Hnn & Hsong).
  rewrite Hsong in Hserve. cbn [serve] in Hserve.
  set (beat := beatDuration (song_bpm args ?? 120%float)) in *.
  set (pool := start (map (play_track port beat) tracks)) in *.
  destruct (run_pool_interleaved host schedule pool w [])
    as (l & Htrace & Hl); [apply start_interleaved|].
  pose proof (run_pool_length host schedule pool w) as Hlen.
  assert (Htrack : forall i track, tracks !! i = Some track ->
            exists t', tasks (run_pool host schedule pool w).1 !! i = Some t'
                       /\ tracking (track_port track ?? port)
                            (track_timeline port beat track) t').
  { intros i track Hi.
    eapply run_pool_tracking; [|apply spawn_tracking].
    unfold pool, start. cbn [tasks]. rewrite !list_lookup_fmap, Hi.
    reflexivity. }
  destruct (run_pool host schedule pool w) as [pool' w1] eqn:Hrun.
  cbn [fst snd] in *.
  destruct (rejected pool') as [e|]; [discriminate Hserve|].
  destruct (forallb finished (tasks pool')) eqn:Hfin; [|discriminate Hserve].
  inversion Hserve; subst reply w1.
  exists port, tracks, (map emitted (tasks pool')), l.
  repeat split; try assumption.
  rewrite map_map. apply list_eq. intros i.
  rewrite !list_lookup_fmap.
  destruct (tracks !! i) as [track|] eqn:Hi.
  - destruct (Htrack i track Hi) as (t' & Ht' & Htr). rewrite Ht'. simpl.
    f_equal. eapply tracking_finished; [exact Htr|].
    rewrite forallb_forall in Hfin. apply Hfin.
    apply list_elem_of_In. eapply list_elem_of_lookup_2. exact Ht'.
  - apply lookup_ge_None in Hi.
    assert (Hnone : tasks pool' !! i = None).
    { apply lookup_ge_None. rewrite Hlen. unfold pool, start. cbn [tasks].
      rewrite !length_map. exact Hi. }
    rewrite Hnone. reflexivity.
Qed.

Lemma pair_from_fst {A B} (p : A * B) (a : A) : p.1 = a -> p = (a, p.2).
Proof. destruct p. simpl. intros ->. reflexivity. Qed.

Lemma song_text_means_all_played_witness :
  exists port tracks emissions l,
    song_port demo_song = Some port
    /\ song_tracks demo_song = Some tracks
    /\ "Played song with 2 tracks at 120 BPM" = song_reply demo_host demo_song
    /\ trace (serve demo_host demo_schedule
                (midi_play_song demo_host demo_song) initial).2
       = trace initial ++ l
    /\ Interleaved emissions l
    /\ map wire emissions
       = map (track_timeline port (beatDuration (song_bpm demo_song ?? 120%float)))
           tracks.
Proof.
  apply (song_text_means_all_played demo_host demo_schedule initial demo_song).
  apply pair_from_fst. vm_compute. reflexivity.
Defined.

(** ** Songs: failure and completion *)




Section Completion.

Variable host : Host.



End Completion.


Lemma first_failure_spawn bodies :
  Forall (fun body : Prog unit => forall e, body <> Throw e) bodies ->
  first_failure (map spawn bodies) = None.
Proof.
  unfold first_failure. induction 1 as [|body bodies Hb _ IH]; [reflexivity|].
  cbn [map omap]. unfold failure at 1. cbn [spawn code].
  destruct body; try exact IH. exfalso. eapply Hb. reflexivity.
Qed.

Lemma play_track_not_throw port beat track e :
  play_track port beat track <> Throw e.
Proof.
  intros H. destruct (script_play_track port beat track) as [_ Hend].
  rewrite H in Hend. discriminate Hend.
Qed.

Lemma song_pool_lookup port beat (tracks : list Track) i t :
  tasks (start (map (play_track port beat) tracks)) !! i = Some t ->
  exists track,
    tracks !! i = Some track /\ t = spawn (play_track port beat track).
Proof.
  intros Hi. unfold start in Hi. cbn [tasks] in Hi.
  rewrite !list_lookup_fmap in Hi.
  destruct (tracks !! i) as [track|]; [|discriminate Hi].
  inversion Hi. eauto.
Qed.

Lemma song_pool_unrejected port beat (tracks : list Track) :
  rejected (start (map (play_track port beat) tracks)) = None.
Proof.
  unfold start. cbn [rejected]. apply first_failure_spawn.
  apply Forall_forall. intros body Hbody e.
  apply list_elem_of_fmap in Hbody as (track & -> & _).
  apply play_track_not_throw.
Qed.

(** The first rejection in the pool of a song is the failure to open the
    port of one of its tracks. *)
Lemma song_rejection host schedule w port beat (tracks : list Track) e :
  rejected (run_pool host schedule
              (start (map (play_track port beat) tracks)) w).1 = Some e ->
  exists i track,
    tracks !! i = Some track /\ e = open_failure (track_port track ?? port).
Proof.
  intros Hrej.
  destruct (run_pool_rejected host
              (fun p => exists i track,
                 tracks !! i = Some track /\ p = track_port track ?? port)
              schedule (start (map (play_track port beat) tracks)) w)
    with (e := e) as (p & (i & track & Hi & ->) & ->).
  - intros i t Hi. destruct (song_pool_lookup port beat tracks i t Hi)
      as (track & Htrack & ->).
    eexists _, _. split; [eauto|]. apply spawn_tracking.
  - rewrite song_pool_unrejected. discriminate.
  - exact Hrej.
  - eauto.
Qed.



(** ** Guards *)

Lemma missing_is_not_open_failure request port :
  missing_arguments request <> open_failure port.
Proof. unfold missing_arguments, open_failure. simpl. discriminate. Qed.

(** A call of a tool that does not pass its guard is the throw of the
    error that names the required fields. *)
Lemma guard_fails host request :
  is_tool request = true ->
  accepted request = false ->
  CallTool host request = Sequential (Throw (missing_arguments request)).
Proof.
  intros Htool Hacc.
  destruct request as [a | a | a | a | a | a | a | a | a | a | name];
    cbn [CallTool accepted] in *; try discriminate Htool;
    unfold nonempty_port, nonempty_list, defined in Hacc.
  - unfold midi_send. destruct (falsy (send_port a)); [reflexivity|].
    destruct (send_bytes a); [discriminate Hacc | reflexivity].
  - unfold midi_note_on. destruct (falsy (note_port a)); [reflexivity|].
    destruct (note_note a); [discriminate Hacc | reflexivity].
  - unfold midi_note_off. destruct (falsy (note_port a)); [reflexivity|].
    destruct (note_note a); [discriminate Hacc | reflexivity].
  - unfold midi_play_note. destruct (falsy (pn_port a)); [reflexivity|].
    destruct (pn_note a); [discriminate Hacc | reflexivity].
  - unfold midi_control_change. destruct (falsy (cc_port a)); [reflexivity|].
    destruct (cc_controller a); [|reflexivity].
    destruct (cc_value a); [discriminate Hacc | reflexivity].
  - unfold midi_program_change. destruct (falsy (pc_port a)); [reflexivity|].
    destruct (pc_program a); [discriminate Hacc | reflexivity].
  - unfold midi_pitch_bend. destruct (falsy (pb_port a)); [reflexivity|].
    destruct (pb_value a); [discriminate Hacc | reflexivity].
  - unfold midi_play_sequence. destruct (falsy (seq_port a)); [reflexivity|].
    destruct (seq_notes a) as [[|n0 notes0]|];
      [reflexivity | discriminate Hacc | reflexivity].
  - unfold midi_play_chord. destruct (falsy (chord_port a)); [reflexivity|].
    destruct (chord_notes a) as [[|n0 notes0]|];
      [reflexivity | discriminate Hacc | reflexivity].
  - unfold midi_play_song. destruct (falsy (song_port a)); [reflexivity|].
    destruct (song_tracks a) as [[|t0 tracks0]|];
      [reflexivity | discriminate Hacc | reflexivity].
Qed.

(** X4. A tool call is answered with the missing-arguments error exactly
    when its guard fails: the port is absent or the empty string, another
    required field is absent, or the list of notes or tracks is empty.
    The rejected call leaves the process state as it was; a call that
    passes the guard is never answered with that error, whatever the
    ports and the schedule do. *)
Theorem rejected_iff_guard_fails host schedule w request :
  is_tool request = true ->
  ((serve host schedule (CallTool host request) w).1
   = Failure (missing_arguments request)
   <-> accepted request = false)
  /\ (accepted request = false ->
      (serve host schedule (CallTool host request) w).2 = w).
Proof.
  intros Htool. split; [split|].
  - intros Hfail. destruct (accepted request) eqn:Hacc; [|reflexivity].
    exfalso. destruct (CallTool host request) as [body | promises reply] eqn:Hcall.
    + destruct (accepted_shape host request body Hcall Hacc)
        as (port & text & message & k & _ & -> & _ & Hend).
      cbn [serve] in Hfail.
      destruct (exec host (Send port message ;; k)%prog w) as [[t|e] w'] eqn:Hexec;
        [discriminate Hfail|].
      assert (Hok : forall e', ending (Send port message ;; k)%prog <> Err e').
      { cbn [ending]. rewrite Hend. discriminate. }
      destruct (exec_error_is_open_failure host (Send port message ;; k)%prog
                  w e w' Hok Hexec) as (p & ->).
      cbn [fst] in Hfail.
      apply (missing_is_not_open_failure request p). congruence.
    + destruct request; cbn [CallTool] in Hcall; try discriminate Hcall.
      destruct (midi_play_song_accepted host args Hacc)
        as (port & tracks & _ & _ & _ & _ & Hsong).
      rewrite Hsong in Hcall. inversion Hcall; subst promises reply.
      cbn [serve] in Hfail.
      pose proof (song_rejection host schedule w port
                    (beatDuration (song_bpm args ?? 120%float)) tracks) as Hrej.
      destruct (run_pool host schedule _ w) as [pool' w1].
      cbn [fst] in Hrej.
      destruct (rejected pool') as [e|].
      * destruct (Hrej e eq_refl) as (i & track & _ & ->).
        cbn [fst] in Hfail.
        apply (missing_is_not_open_failure (call_midi_play_song args)
                 (track_port track ?? port)).
        congruence.
      * destruct (forallb finished (tasks pool')); discriminate Hfail.
  - intros Hacc. rewrite (guard_fails host request Htool Hacc). reflexivity.
  - intros Hacc. rewrite (guard_fails host request Htool Hacc). reflexivity.
Qed.

Lemma rejected_iff_guard_fails_witness :
  ((serve demo_host []
      (CallTool demo_host
         (call_midi_play_chord
            {| chord_port := Some ""; chord_notes := Some [60];
               chord_velocity := None; chord_duration := None;
               chord_channel := None |})) initial).1
   = Failure "Missing arguments: port and notes are required"
   <-> false = false)
  /\ (false = false ->
      (serve demo_host []
         (CallTool demo_host
            (call_midi_play_chord
               {| chord_port := Some ""; chord_notes := Some [60];
                  chord_velocity := None; chord_duration := None;
                  chord_channel := None |})) initial).2
      = initial).
Proof.
  apply (rejected_iff_guard_fails demo_host [] initial
           (call_midi_play_chord
              {| chord_port := Some ""; chord_notes := Some [60];
                 chord_velocity := None; chord_duration := None;
                 chord_channel := None |})).
  reflexivity.
Defined.

(** ** Notes that release themselves *)

(** X5. A played note sends its note-on at once and returns while the
    note is sounding: the call leaves exactly one new timer, of the
    note's duration (default 500 ms). Whenever that timer fires later, in
    any state that still caches the handles cached at the return, its
    callback sends the note-off of the same note, velocity and channel to
    the same port and cannot fail, because the note-on left the port's
    handle in the cache. *)
Theorem play_note_releases host w args port note :
  pn_port args = Some port -> port <> "" ->
  pn_note args = Some note ->
  opens_now host w port ->
  let V := pn_velocity args ?? 64 in
  let D := pn_duration args ?? 500 in
  let c := pn_channel args ?? 1 in
  exists w' callback,
    exec host (midi_play_note args) w
    = (Ok ("Playing note " +:+ show note +:+ " for " +:+ show D
           +:+ "ms (velocity " +:+ show V +:+ ", channel " +:+ show c +:+ ")"),
       w')
    /\ wire (trace w') = wire (trace w) ++ [Msg port [0x90 + (c - 1); note; V]]
    /\ timers w' = timers w ++ [(ms D, callback)]
    /\ forall w2 i delay,
         activeOutputs w' ⊆ activeOutputs w2 ->
         timers w2 !! i = Some (delay, callback) ->
         exists w3,
           fire host i w2 = Some (Ok tt, w3)
           /\ wire (trace w3)
              = wire (trace w2) ++ [Msg port [0x80 + (c - 1); note; V]]
           /\ timers w3 = delete i (timers w2).
Proof.
  intros Hport Hne Hnote Hopen V D c.
  unfold midi_play_note. rewrite Hport, Hnote, (falsy_Some _ Hne).
  cbn [undefined orb str num default from_option id].
  fold V D. replace (pn_channel args ?? 1 - 1 + 1) with c by (unfold c; lia).
  fold c.
  set (callback := (Send port [0x80 + (c - 1); note; V] ;;
                    Log OUT port [0x80 + (c - 1); note; V] ;;
                    Return tt)%prog).
  cbn [exec perform].
  destruct (sendMessage_caches host w port [0x90 + (c - 1); note; V] Hopen)
    as (w1 & evs & H1 & H2 & H3 & H4 & _).
  rewrite H1. eexists _, callback. split; [reflexivity|].
  cbn [trace timers logMidi activeOutputs]. split.
  { rewrite H2, wire_app, H3. reflexivity. }
  split.
  { f_equal. unfold sendMessage in H1.
    destruct (activeOutputs w !! port); [inversion H1; reflexivity|].
    destruct (openMidiOut host (tick w) port); inversion H1; reflexivity. }
  intros w2 i delay Hsub Hi. unfold fire. rewrite Hi.
  destruct H4 as [p Hp].
  assert (Hp2 : activeOutputs w2 !! port = Some p).
  { eapply lookup_weaken; [exact Hp | exact Hsub]. }
  unfold callback. cbn [exec perform].
  set (w2' := mkWorld _ _ _ _ (delete i (timers w2)) _).
  rewrite (sendMessage_hit host w2' port p _ Hp2).
  eexists. split; [reflexivity|]. cbn [trace timers logMidi w2'].
  rewrite wire_app. auto.
Qed.

Lemma play_note_releases_witness :
  exists w' callback,
    exec demo_host
      (midi_play_note {| pn_port := Some "out"; pn_note := Some 60;
                         pn_velocity := None; pn_duration := Some 250;
                         pn_channel := Some 3 |}) initial
    = (Ok "Playing note 60 for 250ms (velocity 64, channel 3)", w')
    /\ wire (trace w') = [Msg "out" [0x92; 60; 64]]
    /\ timers w' = [(ms 250, callback)]
    /\ forall w2 i delay,
         activeOutputs w' ⊆ activeOutputs w2 ->
         timers w2 !! i = Some (delay, callback) ->
         exists w3,
           fire demo_host i w2 = Some (Ok tt, w3)
           /\ wire (trace w3) = wire (trace w2) ++ [Msg "out" [0x82; 60; 64]]
           /\ timers w3 = delete i (timers w2).
Proof.
  apply (play_note_releases demo_host initial
           {| pn_port := Some "out"; pn_note := Some 60; pn_velocity := None;
              pn_duration := Some 250; pn_channel := Some 3 |} "out" 60).
  - reflexivity.
  - intros H; discriminate H.
  - reflexivity.
  - right. exists 1%nat. reflexivity.
Defined.

(** ** What every turn preserves *)

Section Preserved.

Variable host : Host.
Variable R : World -> World -> Prop.
Hypothesis R_refl : forall w, R w w.
Hypothesis R_trans : forall w1 w2 w3, R w1 w2 -> R w2 w3 -> R w1 w3.
Hypothesis R_perform : forall a w, R w (perform host a w).2.
Hypothesis R_timers : forall w ts,
  R w (mkWorld (activeOutputs w) (midiLogs w) (stderr w) (trace w) ts (tick w)).

Lemma exec_preserved {A} (p : Prog A) : forall w, R w (exec host p w).2.
Proof.
  induction p as [A a | A e | A a k IH | A callback _ delay k IH]; intros w;
    simpl; try apply R_refl.
  - pose proof (R_perform a w) as Hp.
    destruct (perform host a w) as [[e|] w']; simpl in *; [exact Hp|].
    eapply R_trans; [exact Hp | apply IH].
  - eapply R_trans; [apply R_timers | apply IH].
Qed.

Lemma step_task_preserved t w : R w (step_task host t w).2.
Proof.
  unfold step_task. destruct (code t) as [u | e | a k | callback delay k];
    simpl; try apply R_refl.
  - pose proof (R_perform a w) as Hp.
    destruct (perform host a w) as [[e|] w']; exact Hp.
  - apply R_timers.
Qed.

Lemma run_pool_preserved : forall schedule pool w,
  R w (run_pool host schedule pool w).2.
Proof.
  induction schedule as [|j schedule IH]; intros pool w; [apply R_refl|].
  cbn [run_pool]. destruct (tasks pool !! j) as [tj|]; [|apply IH].
  pose proof (step_task_preserved tj w) as Hs.
  destruct (step_task host tj w) as [t' w']. simpl in Hs.
  eapply R_trans; [exact Hs | apply IH].
Qed.

Lemma serve_preserved schedule h w : R w (serve host schedule h w).2.
Proof.
  destruct h as [body | promises reply]; simpl.
  - pose proof (exec_preserved body w) as H.
    destruct (exec host body w) as [[text|e] w']; exact H.
  - pose proof (run_pool_preserved schedule (start promises) w) as H.
    destruct (run_pool host schedule (start promises) w) as [pool w'].
    destruct (rejected pool); [exact H|].
    destruct (forallb finished (tasks pool)); exact H.
Qed.

Lemma turn_preserved t w : R w (turn host t w).
Proof.
  destruct t as [schedule request | i]; simpl.
  - apply serve_preserved.
  - unfold fire. destruct (timers w !! i) as [[delay callback]|];
      [|apply R_refl].
    eapply R_trans; [apply (R_timers w (delete i (timers w)))|].
    apply exec_preserved.
Qed.

Lemma run_turns_preserved : forall turns w, R w (run_turns host turns w).
Proof.
  induction turns as [|t turns IH]; intros w; [apply R_refl|].
  eapply R_trans; [apply (turn_preserved t w) | apply IH].
Qed.

End Preserved.

(** ** The log over the life of the process *)

Lemma ring_follows_refl w : ring_follows w w.
Proof.
  intros H. split; [exact H|]. exists []. rewrite app_nil_r. split; [reflexivity|].
  simpl. symmetry. apply take_ge. exact H.
Qed.

Lemma ring_follows_trans w1 w2 w3 :
  ring_follows w1 w2 -> ring_follows w2 w3 -> ring_follows w1 w3.
Proof.
  intros H12 H23 H1. destruct (H12 H1) as (H2 & a12 & Hs12 & Hl12).
  destruct (H23 H2) as (H3 & a23 & Hs23 & Hl23).
  split; [exact H3|]. exists (a12 ++ a23). split.
  - rewrite Hs23, Hs12, app_assoc. reflexivity.
  - rewrite Hl23, Hl12, take_app_take, reverse_app, app_assoc. reflexivity.
Qed.

Lemma ring_follows_perform host a w : ring_follows w (perform host a w).2.
Proof.
  destruct a as [portName message | direction port data | duration]; simpl.
  - unfold sendMessage. destruct (activeOutputs w !! portName); simpl;
      [apply (ring_follows_refl w)|].
    destruct (openMidiOut host (tick w) portName); apply (ring_follows_refl w).
  - intros H. split; [apply unshift_pop_bounded; exact H|].
    eexists. split; [reflexivity|]. simpl.
    rewrite unshift_pop_take by exact H. reflexivity.
  - apply (ring_follows_refl w).
Qed.

Lemma ring_follows_timers w ts :
  ring_follows w
    (mkWorld (activeOutputs w) (midiLogs w) (stderr w) (trace w) ts (tick w)).
Proof. apply (ring_follows_refl w). Qed.

(** X6. Over any run of tool calls and timer firings from the start of
    the process, the log ring is the 100 most recent lines the log has
    echoed to standard error, newest first; and any single run, from any state
    whose ring is within capacity, puts the lines it writes in front of
    the old ring and cuts the result to 100. *)
Theorem ring_is_recent_history host turns :
  midiLogs (run_turns host turns initial)
  = take 100 (reverse (stderr (run_turns host turns initial)))
  /\ forall w, ring_follows w (run_turns host turns w).
Proof.
  assert (H : forall w, ring_follows w (run_turns host turns w)).
  { apply run_turns_preserved.
    - apply ring_follows_refl.
    - apply ring_follows_trans.
    - apply ring_follows_perform.
    - apply ring_follows_timers. }
  split; [|exact H].
  destruct (H initial) as (_ & added & Hs & Hl); [simpl; lia|].
  rewrite Hl, Hs. simpl. rewrite app_nil_r. reflexivity.
Qed.

(** ** The cache over the life of the process *)

Lemma cache_follows_refl w : cache_follows w w.
Proof. split; [reflexivity | auto]. Qed.

Lemma cache_follows_trans w1 w2 w3 :
  cache_follows w1 w2 -> cache_follows w2 w3 -> cache_follows w1 w3.
Proof.
  intros [H1 H1'] [H2 H2']. split; [etrans; eassumption | auto].
Qed.

Lemma cache_follows_perform host a w : cache_follows w (perform host a w).2.
Proof.
  split; [apply perform_cache_mono|].
  destruct a as [portName message | direction port data | duration]; simpl.
  - apply sendMessage_cache_counts.
  - intros H name. apply H.
  - intros H name. simpl. rewrite opens_app. simpl. rewrite Nat.add_0_r. apply H.
Qed.

Lemma cache_follows_timers w ts :
  cache_follows w
    (mkWorld (activeOutputs w) (midiLogs w) (stderr w) (trace w) ts (tick w)).
Proof. split; [reflexivity | auto]. Qed.

(** X7. Over any run of tool calls and timer firings from the start of
    the process, songs and deferred note-offs included, each output port
    is opened at most once, and it has been opened exactly when its
    handle is in the cache; from any state on, a cached handle stays in
    the cache, unchanged. *)
Theorem ports_opened_once_for_life host turns :
  (forall portName,
     (opens portName (trace (run_turns host turns initial)) <= 1)%nat
     /\ (opens portName (trace (run_turns host turns initial)) = 1%nat
         <-> is_Some (activeOutputs (run_turns host turns initial) !! portName)))
  /\ (forall w portName port,
        activeOutputs w !! portName = Some port ->
        activeOutputs (run_turns host turns w) !! portName = Some port).
Proof.
  assert (H : forall w, cache_follows w (run_turns host turns w)).
  { apply run_turns_preserved.
    - apply cache_follows_refl.
    - apply cache_follows_trans.
    - apply cache_follows_perform.
    - apply cache_follows_timers. }
  split.
  - intros portName. destruct (H initial) as [_ Hcount].
    rewrite (Hcount (fun name => eq_refl) portName).
    destruct (activeOutputs (run_turns host turns initial) !! portName).
    + split; [lia|]. split; eauto.
    + split; [lia|]. split; [discriminate|]. intros [x Hx]. discriminate Hx.
  - intros w portName port Hc. destruct (H w) as [Hsub _].
    eapply lookup_weaken; eassumption.
Qed.

(** ** The log mirrors the sends *)

Lemma Mirrored_app l l' : Mirrored l -> Mirrored l' -> Mirrored (l ++ l').
Proof. induction 1; simpl; auto using Mirrored. Qed.

Lemma Mirrored_send_log port message : Mirrored (send_log port message).
Proof. apply mirrored_send. constructor. Qed.

Lemma Mirrored_flat_map {X} (f : X -> list Action) (xs : list X) :
  (forall x, Mirrored (f x)) -> Mirrored (flat_map f xs).
Proof.
  intros H. induction xs as [|x xs IH]; simpl; [constructor|].
  apply Mirrored_app; auto.
Qed.

Lemma Mirrored_concat_replicate n l :
  Mirrored l -> Mirrored (concat (replicate n l)).
Proof.
  intros H. induction n as [|n IH]; simpl; [constructor|].
  apply Mirrored_app; auto.
Qed.

Lemma perform_same_but_timers host a w1 w2 :
  same_but_timers w1 w2 ->
  (perform host a w1).1 = (perform host a w2).1
  /\ same_but_timers (perform host a w1).2 (perform host a w2).2.
Proof.
  intros (Hc & Hl & Hs & Ht & Hk).
  destruct a as [portName message | direction port data | duration];
    cbn [perform]; unfold sendMessage, logMidi, same_but_timers;
    rewrite ?Hc, ?Hl, ?Hs, ?Ht, ?Hk.
  - destruct (activeOutputs w2 !! portName); simpl; [auto 10|].
    destruct (openMidiOut host (tick w2) portName); simpl; auto 10.
  - simpl. auto 10.
  - simpl. auto 10.
Qed.

(** Running a body is performing its script: the same error or none,
    and the same state but for the timers. *)
Lemma exec_as_script host {A} (p : Prog A) : forall w1 w2,
  same_but_timers w1 w2 ->
  match (perform_all host (script p) w1).1 with
  | Some e => (exec host p w2).1 = Err e
  | None => (exec host p w2).1 = ending p
  end
  /\ same_but_timers (perform_all host (script p) w1).2 (exec host p w2).2.
Proof.
  induction p as [A a | A e | A a k IH | A callback _ delay k IH];
    intros w1 w2 Hsame; cbn [script perform_all exec ending].
  - simpl. auto.
  - simpl. auto.
  - destruct (perform_same_but_timers host a w1 w2 Hsame) as [He Hw].
    destruct (perform host a w1) as [[e1|] w1'],
             (perform host a w2) as [[e2|] w2']; simpl in He, Hw;
      try discriminate He.
    + inversion He; subst. simpl. auto.
    + apply IH. exact Hw.
  - apply IH. destruct Hsame as (Hc & Hl & Hs & Ht & Hk).
    unfold same_but_timers. simpl. auto.
Qed.

Lemma same_but_timers_refl w : same_but_timers w w.
Proof. unfold same_but_timers. auto. Qed.

(** A mirrored script performed without error has written, for its
    messages in order, one outgoing log line each, and nothing else. *)
Lemma perform_all_mirrored host acts : Mirrored acts -> forall w w',
  perform_all host acts w = (None, w') ->
  exists stamps,
    length stamps = length (messages (omap action_wire acts))
    /\ stderr w' = stderr w ++ out_lines stamps (messages (omap action_wire acts)).
Proof.
  induction 1 as [| port message acts Hacts IH | duration acts Hacts IH];
    intros w w' Hrun.
  - inversion Hrun; subst. exists []. simpl. rewrite app_nil_r. auto.
  - cbn [perform_all perform] in Hrun.
    destruct (sendMessage host port message w) as [[e|] w1] eqn:Hsend;
      [discriminate Hrun|].
    assert (Hs1 : stderr w1 = stderr w).
    { unfold sendMessage in Hsend.
      destruct (activeOutputs w !! port); [inversion Hsend; reflexivity|].
      destruct (openMidiOut host (tick w) port); inversion Hsend; reflexivity. }
    destruct (IH _ _ Hrun) as (stamps & Hlen & Hst).
    exists (toISOString host (tick w1) :: stamps). split.
    + simpl. rewrite Hlen. reflexivity.
    + rewrite Hst. cbn [logMidi stderr]. rewrite Hs1, <- app_assoc. reflexivity.
  - cbn [perform_all perform] in Hrun.
    destruct (IH _ _ Hrun) as (stamps & Hlen & Hst).
    exists stamps. split; [exact Hlen|]. rewrite Hst. reflexivity.
Qed.

Lemma exec_mirrored host {A} (p : Prog A) w a w' :
  Mirrored (script p) ->
  exec host p w = (Ok a, w') ->
  exists stamps,
    length stamps = length (messages (plan p))
    /\ stderr w' = stderr w ++ out_lines stamps (messages (plan p)).
Proof.
  intros Hm Hexec.
  destruct (exec_as_script host p w w (same_but_timers_refl w)) as [Hres Hsame].
  rewrite Hexec in Hres, Hsame. simpl in Hres, Hsame.
  destruct (perform_all host (script p) w) as [[e|] w1] eqn:Hrun;
    simpl in Hres, Hsame; [discriminate Hres|].
  destruct (perform_all_mirrored host (script p) Hm w w1 Hrun)
    as (stamps & Hlen & Hst).
  exists stamps. split; [exact Hlen|].
  destruct Hsame as (_ & _ & Hs & _). rewrite <- Hs. exact Hst.
Qed.

Lemma Mirrored_sequence_event port c noteInfo :
  Mirrored (sequence_event port c noteInfo).
Proof.
  unfold sequence_event. apply Mirrored_app; [apply Mirrored_send_log|].
  apply mirrored_sleep. apply Mirrored_send_log.
Qed.

Lemma accepted_mirrored host request body :
  CallTool host request = Sequential body ->
  accepted request = true ->
  Mirrored (script body).
Proof.
  intros Hcall Hacc.
  destruct request as [a | a | a | a | a | a | a | a | a | a | name];
    cbn [CallTool accepted] in *;
    try discriminate Hacc;
    apply andb_prop in Hacc as [Hacc1 Hacc2];
    try (apply andb_prop in Hacc1 as [Hacc1 Hacc3]);
    apply nonempty_port_Some in Hacc1 as (port & Hport & Hne);
    try (injection Hcall as <-).
  - apply defined_Some in Hacc2 as (bytes & Hbytes). unfold midi_send.
    rewrite Hport, Hbytes, (falsy_Some _ Hne). apply Mirrored_send_log.
  - apply defined_Some in Hacc2 as (note & Hnote). unfold midi_note_on.
    rewrite Hport, Hnote, (falsy_Some _ Hne). apply Mirrored_send_log.
  - apply defined_Some in Hacc2 as (note & Hnote). unfold midi_note_off.
    rewrite Hport, Hnote, (falsy_Some _ Hne). apply Mirrored_send_log.
  - apply defined_Some in Hacc2 as (note & Hnote). unfold midi_play_note.
    rewrite Hport, Hnote, (falsy_Some _ Hne). apply Mirrored_send_log.
  - apply defined_Some in Hacc2 as (value & Hvalue).
    apply defined_Some in Hacc3 as (controller & Hcontroller).
    unfold midi_control_change.
    rewrite Hport, Hvalue, Hcontroller, (falsy_Some _ Hne).
    apply Mirrored_send_log.
  - apply defined_Some in Hacc2 as (program & Hprogram).
    unfold midi_program_change.
    rewrite Hport, Hprogram, (falsy_Some _ Hne). apply Mirrored_send_log.
  - apply defined_Some in Hacc2 as (value & Hvalue). unfold midi_pitch_bend.
    rewrite Hport, Hvalue, (falsy_Some _ Hne). apply Mirrored_send_log.
  - apply nonempty_list_Some in Hacc2 as (notes & Hnotes & Hnn).
    destruct (script_play_sequence a port notes Hport Hne Hnotes Hnn)
      as [Hscript _].
    rewrite Hscript. apply Mirrored_flat_map. intros n.
    apply Mirrored_sequence_event.
  - apply nonempty_list_Some in Hacc2 as (notes & Hnotes & Hnn).
    destruct (script_play_chord a port notes Hport Hne Hnotes Hnn)
      as [Hscript _].
    rewrite Hscript. apply Mirrored_app.
    + apply Mirrored_flat_map. intros n. apply Mirrored_send_log.
    + apply mirrored_sleep. apply Mirrored_flat_map. intros n.
      apply Mirrored_send_log.
  - exfalso. unfold midi_play_song in Hcall.
    apply nonempty_list_Some in Hacc2 as (tracks & Htracks & Hnn).
    rewrite Hport, Htracks, (falsy_Some _ Hne) in Hcall.
    destruct tracks as [|t0 tracks0]; [congruence|]. discriminate Hcall.
Qed.

(** X8. When a tool call with one awaited body returns, the lines it
    added to standard error are, for the messages it put on the wire in
    order, one outgoing log line each, carrying the port and the bytes of
    the message, and nothing else; and those lines, newest first, are in
    front of the old ring, cut to 100. *)
Theorem log_mirrors_sends host w request body text w' :
  CallTool host request = Sequential body ->
  accepted request = true ->
  exec host body w = (Ok text, w') ->
  exists stamps,
    length stamps = length (messages (plan body))
    /\ wire (trace w') = wire (trace w) ++ plan body
    /\ stderr w' = stderr w ++ out_lines stamps (messages (plan body))
    /\ ((length (midiLogs w) <= 100)%nat ->
        midiLogs w'
        = take 100 (reverse (out_lines stamps (messages (plan body)))
                    ++ midiLogs w)).
Proof.
  intros Hcall Hacc Hexec.
  destruct (exec_mirrored host body w text w'
              (accepted_mirrored host request body Hcall Hacc) Hexec)
    as (stamps & Hlen & Hst).
  exists stamps. split; [exact Hlen|]. split; [|split; [exact Hst|]].
  - destruct (accepted_shape host request body Hcall Hacc)
      as (port & text0 & message & k & _ & -> & Hon & Hend).
    assert (Hopen : opens_now host w port).
    { destruct (activeOutputs w !! port) as [p|] eqn:Hc;
        [left; rewrite Hc; eauto|].
      destruct (openMidiOut host (tick w) port) as [p|] eqn:Ho;
        [right; eauto|].
      exfalso.
      rewrite (exec_send_fails host w port message k) in Hexec;
        [discriminate Hexec|].
      intros [[p Hp] | [p Hp]]; congruence. }
    destruct (exec_send_succeeds host w port message k Hopen Hon)
      as (w1 & H1 & H2).
    rewrite Hexec in H1. inversion H1; subst w1. exact H2.
  - intros Hbound.
    pose proof (exec_preserved host ring_follows ring_follows_refl
                  ring_follows_trans (ring_follows_perform host)
                  ring_follows_timers body w) as Hring.
    rewrite Hexec in Hring. cbn [snd] in Hring.
    destruct (Hring Hbound) as (_ & added & Hs & Hl).
    rewrite Hst in Hs. apply app_inv_head in Hs. subst added. exact Hl.
Qed.

Lemma log_mirrors_sends_witness :
  exists stamps,
    length stamps = length (messages (plan (midi_play_chord demo_chord)))
    /\ wire (trace (exec demo_host (midi_play_chord demo_chord) initial).2)
       = wire (trace initial) ++ plan (midi_play_chord demo_chord)
    /\ stderr (exec demo_host (midi_play_chord demo_chord) initial).2
       = stderr initial
         ++ out_lines stamps (messages (plan (midi_play_chord demo_chord)))
    /\ ((length (midiLogs initial) <= 100)%nat ->
        midiLogs (exec demo_host (midi_play_chord demo_chord) initial).2
        = take 100
            (reverse (out_lines stamps
                        (messages (plan (midi_play_chord demo_chord))))
             ++ midiLogs initial)).
Proof.
  apply (log_mirrors_sends demo_host initial (call_midi_play_chord demo_chord)
           (midi_play_chord demo_chord)
           "Played chord with 3 notes for 300ms on channel 1").
  - reflexivity.
  - reflexivity.
  - apply pair_from_fst. vm_compute. reflexivity.
Defined.

(** ** Pitch bend, decoded *)

Lemma bend_bytes_mod x :
  - 2 ^ 31 <= x < 2 ^ 31 ->
  js_and x 0x7F = x mod 128
  /\ js_and (js_shr x 7) 0x7F = (x / 128) mod 128.
Proof.
  intros Hx.
  assert (Hones : 0x7F = Z.ones 7) by reflexivity.
  assert (Hdiv : - 2 ^ 31 <= x / 128 < 2 ^ 31).
  { split.
    - apply Z.div_le_lower_bound; lia.
    - apply Z.div_lt_upper_bound; lia. }
  split.
  - rewrite js_and_small by lia. rewrite Hones, Z.land_ones by lia. reflexivity.
  - rewrite js_shr_small by lia. rewrite Z.shiftr_div_pow2 by lia.
    change (2 ^ 7) with 128. rewrite js_and_small by lia.
    rewrite Hones, Z.land_ones by lia. reflexivity.
Qed.

(** X9. The two data bytes of a pitch bend are 7-bit, and read back as a
    14-bit value they give the bend value reduced modulo 16384 into
    [-8192, 8191]: a value in range comes back as it was sent, a value
    out of range wraps without an error (8192 is sent as -8192). *)
Theorem pitch_bend_decodes host w args port v :
  pb_port args = Some port -> port <> "" ->
  pb_value args = Some v ->
  - 2 ^ 31 <= v + 8192 < 2 ^ 31 ->
  opens_now host w port ->
  let c := pb_channel args ?? 1 in
  exists w' lsb msb,
    exec host (midi_pitch_bend args) w
    = (Ok ("Pitch Bend: " +:+ show v +:+ ", channel " +:+ show c), w')
    /\ wire (trace w') = wire (trace w) ++ [Msg port [0xE0 + (c - 1); lsb; msb]]
    /\ 0 <= lsb < 128 /\ 0 <= msb < 128
    /\ bend_of lsb msb = (v + 8192) mod 16384 - 8192
    /\ (-8192 <= v <= 8191 -> bend_of lsb msb = v).
Proof.
  intros Hport Hne Hvalue Hrange Hopen c.
  destruct (bend_bytes_mod (v + 8192) Hrange) as [Hlsb Hmsb].
  unfold midi_pitch_bend. rewrite Hport, Hvalue, (falsy_Some _ Hne).
  cbn [undefined orb str num default from_option id].
  rewrite Hlsb, Hmsb. fold c.
  destruct (exec_send_succeeds host w port
              [0xE0 + (c - 1); (v + 8192) mod 128; (v + 8192) / 128 mod 128]
              (Log OUT port
                 [0xE0 + (c - 1); (v + 8192) mod 128; (v + 8192) / 128 mod 128] ;;
               Return ("Pitch Bend: " +:+ show v +:+ ", channel "
                       +:+ show (c - 1 + 1)))%prog Hopen)
    as (w' & H1 & H2); [apply on_port_log|].
  exists w', ((v + 8192) mod 128), ((v + 8192) / 128 mod 128).
  rewrite H1, H2. cbn [ending]. rewrite Z.sub_add.
  split; [reflexivity|]. split; [reflexivity|].
  pose proof (Z.mod_pos_bound (v + 8192) 128 ltac:(lia)).
  pose proof (Z.mod_pos_bound ((v + 8192) / 128) 128 ltac:(lia)).
  assert (Hsplit : (v + 8192) mod 16384
                   = (v + 8192) mod 128 + 128 * ((v + 8192) / 128 mod 128)).
  { change 16384 with (128 * 128). apply Z.rem_mul_r; lia. }
  repeat split; try lia.
  - unfold bend_of. lia.
  - intros Hin. unfold bend_of. rewrite <- Hsplit.
    rewrite Z.mod_small by lia. lia.
Qed.

Lemma pitch_bend_decodes_witness :
  exists w' lsb msb,
    exec demo_host
      (midi_pitch_bend {| pb_port := Some "out"; pb_value := Some 8192;
                          pb_channel := None |}) initial
    = (Ok "Pitch Bend: 8192, channel 1", w')
    /\ wire (trace w') = [Msg "out" [0xE0; lsb; msb]]
    /\ 0 <= lsb < 128 /\ 0 <= msb < 128
    /\ bend_of lsb msb = -8192
    /\ (-8192 <= 8192 <= 8191 -> bend_of lsb msb = 8192).
Proof.
  apply (pitch_bend_decodes demo_host initial
           {| pb_port := Some "out"; pb_value := Some 8192;
              pb_channel := None |} "out" 8192).
  - reflexivity.
  - intros H; discriminate H.
  - reflexivity.
  - lia.
  - right. exists 1%nat. reflexivity.
Defined.

(** ** Status bytes, decoded *)

Lemma status_decodes c b :
  1 <= c <= 16 -> In b [0x80; 0x90; 0xB0; 0xC0; 0xE0] ->
  status_channel (b + (c - 1)) = c /\ status_kind (b + (c - 1)) = b.
Proof.
  intros Hc Hb.
  assert (Hcases : c = 1 \/ c = 2 \/ c = 3 \/ c = 4 \/ c = 5 \/ c = 6 \/ c = 7
                   \/ c = 8 \/ c = 9 \/ c = 10 \/ c = 11 \/ c = 12 \/ c = 13
                   \/ c = 14 \/ c = 15 \/ c = 16) by lia.
  simpl in Hb.
  destruct Hb as [<- | [<- | [<- | [<- | [<- | []]]]]];
    repeat (destruct Hcases as [-> | Hcases]; [split; reflexivity|]);
    subst c; split; reflexivity.
Qed.

Lemma status_below c b :
  -15 <= c <= 0 -> In b [0x90; 0xC0] ->
  status_channel (b + (c - 1)) = c + 16
  /\ status_kind (b + (c - 1)) = b - 0x10.
Proof.
  intros Hc Hb.
  assert (Hcases : c = 0 \/ c = -1 \/ c = -2 \/ c = -3 \/ c = -4 \/ c = -5
                   \/ c = -6 \/ c = -7 \/ c = -8 \/ c = -9 \/ c = -10
                   \/ c = -11 \/ c = -12 \/ c = -13 \/ c = -14 \/ c = -15)
    by lia.
  simpl in Hb.
  destruct Hb as [<- | [<- | []]];
    repeat (destruct Hcases as [-> | Hcases]; [split; reflexivity|]);
    subst c; split; reflexivity.
Qed.

Lemma messages_app l l' : messages (l ++ l') = messages l ++ messages l'.
Proof. apply omap_app. Qed.

Lemma messages_map {X} port (f : X -> list Z) (xs : list X) :
  messages (map (fun x => Msg port (f x)) xs) = map (fun x => (port, f x)) xs.
Proof. induction xs as [|x xs IH]; simpl; [reflexivity|]. rewrite <- IH. reflexivity. Qed.

Lemma decodes_status kinds c b data :
  1 <= c <= 16 -> In b [0x80; 0x90; 0xB0; 0xC0; 0xE0] -> In b kinds ->
  decodes_to kinds c ((b + (c - 1)) :: data).
Proof.
  intros Hc Hb Hk. destruct (status_decodes c b Hc Hb) as [H1 H2].
  exists (b + (c - 1)), data. rewrite H1, H2. auto.
Qed.

Lemma Forall_messages (P : string * list Z -> Prop) l :
  Forall (fun x => match x with
                   | Msg port message => P (port, message)
                   | Pause _ => True
                   end) l ->
  Forall P (messages l).
Proof.
  induction 1 as [|x l Hx _ IH]; simpl; [constructor|].
  destruct x; simpl; [constructor; assumption | exact IH].
Qed.

Lemma Forall_flat_map_intro {X Y} (P : Y -> Prop) (f : X -> list Y) xs :
  (forall x, Forall P (f x)) -> Forall P (flat_map f xs).
Proof.
  intros H. induction xs as [|x xs IH]; simpl; [constructor|].
  apply Forall_app. auto.
Qed.

(** X10. For a channel in 1-16, every message a tool builds and sends
    decodes, as a receiver reads it, to the kind of message the tool is
    for and to that channel: the high half of the status byte is the
    kind, the low half the channel less one. A channel up to 16 below
    the range is not refused and changes the kind: the note-on of a call
    on channel 0 is, byte for byte, a note-off on channel 16. *)
Theorem built_messages_decode host :
  (forall request body,
     CallTool host request = Sequential body ->
     accepted request = true ->
     1 <= request_channel request <= 16 ->
     builds_messages request = true ->
     Forall (fun m => decodes_to (request_kinds request)
                        (request_channel request) m.2)
       (messages (plan body)))
  /\ (forall args port note,
        note_port args = Some port -> port <> "" ->
        note_note args = Some note ->
        -15 <= note_channel args ?? 1 <= 0 ->
        exists message,
          messages (plan (midi_note_on args)) = [(port, message)]
          /\ decodes_to [0x80] ((note_channel args ?? 1) + 16) message).
Proof.
  split.
  - intros request body Hcall Hacc Hc Hbuilds.
    destruct request as [a | a | a | a | a | a | a | a | a | a | name];
      cbn [CallTool accepted request_channel request_kinds builds_messages] in *;
      try discriminate Hbuilds; clear Hbuilds;
      apply andb_prop in Hacc as [Hacc1 Hacc2];
      try (apply andb_prop in Hacc1 as [Hacc1 Hacc3]);
      apply nonempty_port_Some in Hacc1 as (port & Hport & Hne);
      injection Hcall as <-.
    + apply defined_Some in Hacc2 as (note & Hnote). unfold midi_note_on.
      rewrite Hport, Hnote, (falsy_Some _ Hne).
      repeat constructor. apply decodes_status; simpl; auto.
    + apply defined_Some in Hacc2 as (note & Hnote). unfold midi_note_off.
      rewrite Hport, Hnote, (falsy_Some _ Hne).
      repeat constructor. apply decodes_status; simpl; auto.
    + apply defined_Some in Hacc2 as (note & Hnote). unfold midi_play_note.
      rewrite Hport, Hnote, (falsy_Some _ Hne).
      repeat constructor. apply decodes_status; simpl; auto.
    + apply defined_Some in Hacc2 as (value & Hvalue).
      apply defined_Some in Hacc3 as (controller & Hcontroller).
      unfold midi_control_change.
      rewrite Hport, Hvalue, Hcontroller, (falsy_Some _ Hne).
      repeat constructor. apply decodes_status; simpl; auto.
    + apply defined_Some in Hacc2 as (program & Hprogram).
      unfold midi_program_change.
      rewrite Hport, Hprogram, (falsy_Some _ Hne).
      repeat constructor. apply decodes_status; simpl; auto.
    + apply defined_Some in Hacc2 as (value & Hvalue). unfold midi_pitch_bend.
      rewrite Hport, Hvalue, (falsy_Some _ Hne).
      repeat constructor. apply decodes_status; simpl; auto 10.
    + apply nonempty_list_Some in Hacc2 as (notes & Hnotes & Hnn).
      destruct (script_play_sequence a port notes Hport Hne Hnotes Hnn)
        as [Hscript _].
      unfold plan. rewrite Hscript, wire_sequence.
      apply Forall_messages, Forall_flat_map_intro. intros noteInfo.
      repeat constructor; apply decodes_status; simpl; auto.
    + apply nonempty_list_Some in Hacc2 as (notes & Hnotes & Hnn).
      destruct (script_play_chord a port notes Hport Hne Hnotes Hnn)
        as [Hscript _].
      unfold plan. rewrite Hscript, !omap_app, !wire_send_log.
      apply Forall_messages. apply Forall_app. split; [|apply Forall_app; split].
      * apply Forall_fmap, Forall_forall. intros n _.
        apply decodes_status; simpl; auto.
      * repeat constructor.
      * apply Forall_fmap, Forall_forall. intros n _.
        apply decodes_status; simpl; auto.
  - intros args port note Hport Hne Hnote Hc.
    unfold midi_note_on. rewrite Hport, Hnote, (falsy_Some _ Hne).
    eexists. split; [reflexivity|].
    destruct (status_below (note_channel args ?? 1) 0x90 Hc) as [H1 H2];
      [simpl; auto|].
    eexists _, _. split; [reflexivity|]. rewrite H1, H2. simpl. auto.
Qed.

Lemma built_messages_decode_witness :
  exists message,
    messages (plan (midi_note_on
                      {| note_port := Some "out"; note_note := Some 60;
                         note_velocity := None; note_channel := Some 0 |}))
    = [("out", message)]
    /\ decodes_to [0x80] 16 message.
Proof.
  apply (proj2 (built_messages_decode demo_host)
           {| note_port := Some "out"; note_note := Some 60;
              note_velocity := None; note_channel := Some 0 |} "out" 60).
  - reflexivity.
  - intros H; discriminate H.
  - reflexivity.
  - simpl. lia.
Defined.

(** ** Log lines, read back *)




Lemma tokens_not_nil s : tokens s <> [].
Proof.
  destruct s as [|c s]; simpl; [discriminate|].
  destruct (Ascii.eqb c " "); [discriminate|].
  destruct (tokens s); discriminate.
Qed.










(** * The service *)

(** ** What every step of the service keeps *)

Section ServicePreserved.

Variable engine : Engine.
Variable Q : Server -> Server -> Prop.
Hypothesis Q_refl : forall s, Q s s.
Hypothesis Q_trans : forall s1 s2 s3, Q s1 s2 -> Q s2 s3 -> Q s1 s3.
Hypothesis Q_perform : forall a s,
  Q s (with_world (perform (engine_host engine) a (world s)).2 s).
Hypothesis Q_timers : forall s ts,
  Q s (with_world
         (mkWorld (activeOutputs (world s)) (midiLogs (world s))
            (stderr (world s)) (trace (world s)) ts (tick (world s))) s).
Hypothesis Q_initialize : forall s, Q s (initialize engine s).2.

Lemma ensure_jzz_preserved s : Q s (ensure_jzz engine s).2.
Proof. unfold ensure_jzz. destruct (jzz s); [apply Q_refl | apply Q_initialize]. Qed.

Lemma service_perform_preserved a s : Q s (service_perform engine a s).2.
Proof.
  destruct a as [portName message | direction port data | duration];
    try apply (Q_perform _ s).
  simpl. unfold service_sendMessage.
  pose proof (ensure_jzz_preserved s) as H.
  destruct (ensure_jzz engine s) as [[err|] s']; simpl in *; [exact H|].
  eapply Q_trans; [exact H|]. apply (Q_perform (Send portName message) s').
Qed.

Lemma service_exec_preserved {A} (p : Prog A) :
  forall s, Q s (service_exec engine p s).2.
Proof.
  induction p as [A a | A e | A a k IH | A callback _ delay k IH]; intros s;
    simpl; try apply Q_refl.
  - pose proof (service_perform_preserved a s) as Hp.
    destruct (service_perform engine a s) as [[e|] s']; simpl in *;
      [exact Hp|].
    eapply Q_trans; [exact Hp | apply IH].
  - eapply Q_trans; [apply Q_timers | apply IH].
Qed.

Lemma service_step_task_preserved t s :
  Q s (service_step_task engine t s).2.
Proof.
  unfold service_step_task.
  destruct (code t) as [u | e | a k | callback delay k];
    simpl; try apply Q_refl.
  - pose proof (service_perform_preserved a s) as Hp.
    destruct (service_perform engine a s) as [[e|] s']; exact Hp.
  - apply Q_timers.
Qed.

Lemma service_run_pool_preserved : forall schedule pool s,
  Q s (service_run_pool engine schedule pool s).2.
Proof.
  induction schedule as [|j schedule IH]; intros pool s; [apply Q_refl|].
  cbn [service_run_pool]. destruct (tasks pool !! j) as [tj|]; [|apply IH].
  pose proof (service_step_task_preserved tj s) as Hs.
  destruct (service_step_task engine tj s) as [t' s']. simpl in Hs.
  eapply Q_trans; [exact Hs | apply IH].
Qed.

Lemma service_serve_preserved schedule h s :
  Q s (service_serve engine schedule h s).2.
Proof.
  destruct h as [body | promises reply]; simpl.
  - pose proof (service_exec_preserved body s) as H.
    destruct (service_exec engine body s) as [[text|e] s']; exact H.
  - pose proof (service_run_pool_preserved schedule (start promises) s) as H.
    destruct (service_run_pool engine schedule (start promises) s)
      as [pool s'].
    destruct (rejected pool); [exact H|].
    destruct (forallb finished (tasks pool)); exact H.
Qed.

Lemma service_fire_preserved i s : Q s (service_fire engine i s).
Proof.
  unfold service_fire.
  destruct (timers (world s) !! i) as [[delay callback]|]; [|apply Q_refl].
  eapply Q_trans; [apply (Q_timers s (delete i (timers (world s))))|].
  apply service_exec_preserved.
Qed.

Lemma receive_preserved port data s : Q s (receive engine port data s).
Proof.
  unfold receive. generalize (listeners s) as l. intros l. revert s.
  induction l as [|[name handle] l IH]; intros s; [apply Q_refl|].
  cbn [foldl]. eapply Q_trans; [|apply IH].
  cbn [snd fst]. destruct (Nat.eqb handle port); [|apply Q_refl].
  apply (Q_perform (Log IN name data) s).
Qed.

End ServicePreserved.

(** ** The input side is touched by [getMidi] alone *)

Lemma same_inputs_refl s : same_inputs s s.
Proof. repeat split. Qed.

Lemma same_inputs_trans s1 s2 s3 :
  same_inputs s1 s2 -> same_inputs s2 s3 -> same_inputs s1 s3.
Proof.
  intros (A1 & B1 & C1 & D1 & E1) (A2 & B2 & C2 & D2 & E2).
  repeat split; congruence.
Qed.

Lemma same_inputs_with_world w s : same_inputs s (with_world w s).
Proof. repeat split. Qed.

Lemma same_inputs_initialize engine s : same_inputs s (initialize engine s).2.
Proof.
  unfold initialize. destruct (JZZ engine (tick (world s))); repeat split.
Qed.

Ltac same_inputs_facts engine :=
  first [ apply same_inputs_refl
        | apply same_inputs_trans
        | intros; apply same_inputs_with_world
        | apply (same_inputs_initialize engine) ].

Lemma same_inputs_serve engine schedule h s :
  same_inputs s (service_serve engine schedule h s).2.
Proof. apply service_serve_preserved; same_inputs_facts engine. Qed.

Lemma same_inputs_fire engine i s : same_inputs s (service_fire engine i s).
Proof. apply service_fire_preserved; same_inputs_facts engine. Qed.

Lemma same_inputs_receive engine port data s :
  same_inputs s (receive engine port data s).
Proof. apply receive_preserved; same_inputs_facts engine. Qed.

Lemma same_inputs_listPorts engine s : same_inputs s (listPorts engine s).2.
Proof.
  unfold listPorts.
  pose proof (ensure_jzz_preserved engine same_inputs same_inputs_refl
                (same_inputs_initialize engine) s) as H.
  destruct (ensure_jzz engine s) as [[err|] s']; simpl in *; [exact H|].
  eapply same_inputs_trans; [exact H | apply same_inputs_with_world].
Qed.

Lemma wired_same_inputs s s' : same_inputs s s' -> wired s -> wired s'.
Proof.
  intros (_ & _ & Ha & Hc & Hl) (Hn & Hin & Hon). unfold wired, listening in *.
  rewrite Ha, Hc, Hl. auto.
Qed.

(** ** The library handle, once there, stays *)

Lemma keeps_jzz_initialize engine s : keeps_jzz s (initialize engine s).2.
Proof.
  unfold initialize, keeps_jzz.
  destruct (JZZ engine (tick (world s))); simpl; auto.
Qed.

Ltac keeps_jzz_facts engine :=
  first [ apply (keeps_jzz_initialize engine)
        | unfold keeps_jzz; simpl; intros; auto ].

Lemma keeps_jzz_serve engine schedule h s :
  keeps_jzz s (service_serve engine schedule h s).2.
Proof. apply service_serve_preserved; keeps_jzz_facts engine. Qed.

Lemma keeps_jzz_fire engine i s : keeps_jzz s (service_fire engine i s).
Proof. apply service_fire_preserved; keeps_jzz_facts engine. Qed.

Lemma keeps_jzz_receive engine port data s :
  keeps_jzz s (receive engine port data s).
Proof. apply receive_preserved; keeps_jzz_facts engine. Qed.

(** ** A ready service is the service of the handlers *)

Lemma with_world_world s : with_world (world s) s = s.
Proof. destruct s; reflexivity. Qed.

Lemma with_world_twice w w' s : with_world w (with_world w' s) = with_world w s.
Proof. reflexivity. Qed.

Lemma service_perform_ready engine a s :
  jzz s = true ->
  service_perform engine a s
  = ((perform (engine_host engine) a (world s)).1,
     with_world (perform (engine_host engine) a (world s)).2 s).
Proof.
  intros Hj. destruct a as [portName message | direction port data | duration];
    try reflexivity.
  simpl. unfold service_sendMessage, ensure_jzz. rewrite Hj. reflexivity.
Qed.

Lemma service_exec_ready engine {A} (p : Prog A) : forall s,
  jzz s = true ->
  service_exec engine p s
  = ((exec (engine_host engine) p (world s)).1,
     with_world (exec (engine_host engine) p (world s)).2 s).
Proof.
  induction p as [A a | A e | A a k IH | A callback _ delay k IH]; intros s Hj;
    simpl.
  - rewrite with_world_world. reflexivity.
  - rewrite with_world_world. reflexivity.
  - rewrite (service_perform_ready engine a s Hj).
    destruct (perform (engine_host engine) a (world s)) as [[e|] w']; simpl;
      [reflexivity|].
    rewrite IH by exact Hj. reflexivity.
  - rewrite IH by exact Hj. reflexivity.
Qed.

Lemma service_step_task_ready engine t s :
  jzz s = true ->
  service_step_task engine t s
  = ((step_task (engine_host engine) t (world s)).1,
     with_world (step_task (engine_host engine) t (world s)).2 s).
Proof.
  intros Hj. unfold service_step_task, step_task.
  destruct (code t) as [u | e | a k | callback delay k]; simpl;
    try (rewrite with_world_world; reflexivity); try reflexivity.
  rewrite (service_perform_ready engine a s Hj).
  destruct (perform (engine_host engine) a (world s)) as [[e|] w']; reflexivity.
Qed.

Lemma service_run_pool_ready engine : forall schedule pool s,
  jzz s = true ->
  service_run_pool engine schedule pool s
  = ((run_pool (engine_host engine) schedule pool (world s)).1,
     with_world (run_pool (engine_host engine) schedule pool (world s)).2 s).
Proof.
  induction schedule as [|j schedule IH]; intros pool s Hj.
  - simpl. rewrite with_world_world. reflexivity.
  - cbn [service_run_pool run_pool].
    destruct (tasks pool !! j) as [tj|]; [|apply IH; exact Hj].
    rewrite (service_step_task_ready engine tj s Hj).
    destruct (step_task (engine_host engine) tj (world s)) as [t' w'].
    cbn [fst snd]. rewrite IH by exact Hj. reflexivity.
Qed.

Lemma service_serve_ready engine schedule h s :
  jzz s = true ->
  service_serve engine schedule h s
  = ((serve (engine_host engine) schedule h (world s)).1,
     with_world (serve (engine_host engine) schedule h (world s)).2 s).
Proof.
  intros Hj. destruct h as [body | promises reply]; simpl.
  - rewrite (service_exec_ready engine body s Hj).
    destruct (exec (engine_host engine) body (world s)) as [[text|e] w'];
      reflexivity.
  - rewrite (service_run_pool_ready engine schedule (start promises) s Hj).
    destruct (run_pool (engine_host engine) schedule (start promises) (world s))
      as [pool w'].
    cbn [fst snd]. destruct (rejected pool); [reflexivity|].
    destruct (forallb finished (tasks pool)); reflexivity.
Qed.

Lemma service_fire_ready engine i s :
  jzz s = true ->
  service_fire engine i s
  = with_world (turn (engine_host engine) (Fire i) (world s)) s.
Proof.
  intros Hj. unfold service_fire. simpl. unfold fire.
  destruct (timers (world s) !! i) as [[delay callback]|].
  - rewrite service_exec_ready by exact Hj. reflexivity.
  - rewrite with_world_world. reflexivity.
Qed.

Lemma receive_world engine port data s :
  exists w, receive engine port data s = with_world w s.
Proof.
  unfold receive. generalize (listeners s) as l. intros l.
  assert (H : forall w, exists w',
             foldl (fun s0 listener =>
                      if Nat.eqb listener.2 port
                      then with_world
                             (logMidi (engine_host engine) IN listener.1 data
                                (world s0)) s0
                      else s0) (with_world w s) l
             = with_world w' s).
  { induction l as [|[name handle] l IH]; intros w; [eauto|].
    cbn [foldl fst snd]. destruct (Nat.eqb handle port); [|apply IH].
    apply IH. }
  destruct (H (world s)) as [w' Hw']. rewrite with_world_world in Hw'. eauto.
Qed.

Lemma getMidi_ready engine s : ready s -> getMidi engine s = (None, s).
Proof. intros [_ Hm]. unfold getMidi. rewrite Hm. reflexivity. Qed.

Lemma happen_ready engine h s :
  ready s -> exists w, happen engine h s = with_world w s.
Proof.
  intros Hr. pose proof Hr as [Hj Hm].
  destruct h as [schedule request | i | | port data]; simpl.
  - unfold handle. rewrite (getMidi_ready engine s Hr).
    rewrite service_serve_ready by exact Hj. simpl. eauto.
  - rewrite service_fire_ready by exact Hj. eauto.
  - unfold list_ports. rewrite (getMidi_ready engine s Hr).
    unfold listPorts, ensure_jzz. rewrite Hj. simpl. eauto.
  - apply receive_world.
Qed.

Lemma life_ready engine : forall happenings s,
  ready s -> exists w, life engine happenings s = with_world w s.
Proof.
  induction happenings as [|h happenings IH]; intros s Hr.
  - exists (world s). simpl. rewrite with_world_world. reflexivity.
  - simpl. destruct (happen_ready engine h s Hr) as [w Hw].
    fold (life engine happenings (happen engine h s)). rewrite Hw.
    destruct (IH (with_world w s)) as [w' Hw']; [exact Hr|].
    exists w'. rewrite Hw'. reflexivity.
Qed.

(** X12. Once the service is ready, the handler of a tool call is the
    handlers' own behaviour on the state of the sends and the log: it
    replies what [serve] replies and changes the state as [serve] does,
    and a timer fires as [fire] does. Nothing that happens afterwards,
    one request at a time, initialises the library again, writes a notice
    of the service, or touches the inputs and their listeners. *)
Theorem ready_service_serves engine s schedule request i happenings :
  ready s ->
  handle engine schedule request s
  = ((serve (engine_host engine) schedule
        (CallTool (engine_host engine) request) (world s)).1,
     with_world (turn (engine_host engine) (Call schedule request) (world s)) s)
  /\ happen engine (Fires i) s
     = with_world (turn (engine_host engine) (Fire i) (world s)) s
  /\ exists w, life engine happenings s = with_world w s.
Proof.
  intros Hr. pose proof Hr as [Hj Hm]. split; [|split].
  - unfold handle. rewrite (getMidi_ready engine s Hr).
    apply service_serve_ready. exact Hj.
  - apply service_fire_ready. exact Hj.
  - apply life_ready. exact Hr.
Qed.

Lemma ready_service_serves_witness :
  handle demo_engine [] (call_other "tune") demo_ready
  = ((serve demo_host [] (CallTool demo_host (call_other "tune")) initial).1,
     with_world (turn demo_host (Call [] (call_other "tune")) initial)
       demo_ready)
  /\ happen demo_engine (Fires 0%nat) demo_ready
     = with_world (turn demo_host (Fire 0%nat) initial) demo_ready
  /\ exists w,
       life demo_engine [Lists; Receives 7%nat [144; 60; 100]] demo_ready
       = with_world w demo_ready.
Proof.
  apply (ready_service_serves demo_engine demo_ready [] (call_other "tune") 0%nat
           [Lists; Receives 7%nat [144; 60; 100]]).
  split; reflexivity.
Defined.

(** ** The listeners *)

Lemma ensure_jzz_ok engine s s' :
  ensure_jzz engine s = (None, s') -> jzz s' = true.
Proof.
  unfold ensure_jzz. destruct (jzz s) eqn:Hj.
  - intros [= <-]. exact Hj.
  - unfold initialize. destruct (JZZ engine (tick (world s))); [discriminate|].
    intros [= <-]. reflexivity.
Qed.

Lemma listen_ready engine portName s :
  jzz s = true ->
  match listen engine portName s with
  | (None, s') =>
      exists port,
        listeners s' = listeners s ++ [(portName, port)]
        /\ activeInputs s' = <[portName := port]> (activeInputs s)
        /\ instance s' = instance s /\ jzz s' = true
        /\ midiService s' = midiService s
        /\ connectedInputs s' = connectedInputs s
  | (Some _, s') =>
      s' = with_world (tock (world s)) s
      /\ activeInputs s !! portName = None
      /\ openMidiIn engine (tick (world s)) portName = None
  end.
Proof.
  intros Hj. unfold listen, ensure_jzz. rewrite Hj.
  destruct (activeInputs s !! portName) as [port|] eqn:Hc.
  - exists port. simpl. rewrite insert_id by exact Hc. repeat split; auto.
  - destruct (openMidiIn engine (tick (world s)) portName) as [port|] eqn:Ho.
    + exists port. simpl. repeat split; auto.
    + auto.
Qed.

Lemma elem_of_listening portName s :
  portName ∈ listening s <-> exists port, (portName, port) ∈ listeners s.
Proof.
  unfold listening. rewrite list_elem_of_fmap. split.
  - intros ([name port] & -> & Hin). eauto.
  - intros [port Hin]. exists (portName, port). auto.
Qed.

Lemma auto_connect_step engine s port :
  jzz s = true -> wired s ->
  wired (auto_connect engine s port)
  /\ jzz (auto_connect engine s port) = true
  /\ midiService (auto_connect engine s port) = midiService s
  /\ instance (auto_connect engine s port) = instance s
  /\ (forall portName,
        portName ∈ listening (auto_connect engine s port) ->
        portName ∈ listening s
        \/ (port_type port = input /\ portName = port_name port))
  /\ (forall portName,
        portName ∈ connectedInputs s ->
        portName ∈ connectedInputs (auto_connect engine s port))
  /\ (port_type port = input -> hearable engine (port_name port) ->
      port_name port ∈ connectedInputs (auto_connect engine s port)).
Proof.
  intros Hj Hw. unfold auto_connect.
  destruct (port_type port) eqn:Htype;
    [|split; [exact Hw|]; repeat split; auto; intros; discriminate].
  destruct (decide (port_name port ∈ connectedInputs s)) as [Hin | Hout];
    [split; [exact Hw|]; repeat split; auto|].
  pose proof (listen_ready engine (port_name port) s Hj) as Hl.
  destruct (listen engine (port_name port) s) as [[err|] s'].
  - destruct Hl as (-> & Hc & Ho). simpl.
    split; [exact Hw|]. repeat split; auto.
    intros _ Hh. destruct (Hh (tick (world s))) as [x Hx]. congruence.
  - destruct Hl as (handle & Hl & Ha & Hi & Hj' & Hm & Hc). simpl.
    destruct Hw as (Hn & Hin & Hon).
    assert (Hnew : port_name port ∉ listening s).
    { intros H. apply Hout, Hin, H. }
    split; [|repeat split; auto].
    + unfold wired, listening in *. simpl. rewrite Hl, Ha, Hc, map_app. simpl.
      split; [|split].
      * apply NoDup_app. split; [exact Hn|]. split; [|apply NoDup_singleton].
        intros x Hx Hx'. apply list_elem_of_singleton in Hx'. subst x.
        exact (Hnew Hx).
      * intros name. rewrite elem_of_union, elem_of_singleton, elem_of_app,
          list_elem_of_singleton, Hin. tauto.
      * intros name p Hp. apply elem_of_app in Hp as [Hp | Hp].
        -- rewrite lookup_insert_ne; [auto|].
           intros <-. apply Hnew, list_elem_of_fmap.
           exists (port_name port, p). auto.
        -- apply list_elem_of_singleton in Hp. injection Hp as -> ->.
           apply lookup_insert_eq.
    + intros name. unfold listening. simpl.
      rewrite Hl, map_app, elem_of_app. simpl.
      rewrite list_elem_of_singleton. tauto.
    + intros name Hname. apply elem_of_union_r. rewrite Hc. exact Hname.
    + intros _ _. apply elem_of_union_l, elem_of_singleton. reflexivity.
Qed.

Lemma auto_connect_all engine : forall listed s,
  jzz s = true -> wired s ->
  wired (foldl (auto_connect engine) s listed)
  /\ jzz (foldl (auto_connect engine) s listed) = true
  /\ midiService (foldl (auto_connect engine) s listed) = midiService s
  /\ instance (foldl (auto_connect engine) s listed) = instance s
  /\ (forall portName,
        portName ∈ listening (foldl (auto_connect engine) s listed) ->
        portName ∈ listening s
        \/ exists port, port ∈ listed /\ port_type port = input
                        /\ portName = port_name port)
  /\ (forall portName,
        portName ∈ connectedInputs s ->
        portName ∈ connectedInputs (foldl (auto_connect engine) s listed))
  /\ (forall port,
        port ∈ listed -> port_type port = input ->
        hearable engine (port_name port) ->
        port_name port ∈ connectedInputs (foldl (auto_connect engine) s listed)).
Proof.
  induction listed as [|p listed IH]; intros s Hj Hw.
  - simpl. split; [exact Hw|]. repeat split; auto. intros port Hp. inversion Hp.
  - cbn [foldl].
    destruct (auto_connect_step engine s p Hj Hw)
      as (Hw1 & Hj1 & Hm1 & Hi1 & Hl1 & Hc1 & Hh1).
    destruct (IH _ Hj1 Hw1) as (Hw2 & Hj2 & Hm2 & Hi2 & Hl2 & Hc2 & Hh2).
    split; [exact Hw2|]. split; [exact Hj2|].
    split; [congruence|]. split; [congruence|]. split; [|split].
    + intros name Hname. destruct (Hl2 name Hname) as [H | (q & Hq & Ht & Hn)].
      * destruct (Hl1 name H) as [H1 | [Ht Hn]]; [auto|].
        right. exists p. split; [left | auto].
      * right. exists q. split; [right; exact Hq | auto].
    + auto.
    + intros q Hq Ht Hh. apply elem_of_cons in Hq as [-> | Hq]; auto.
Qed.

Lemma getMidi_wired engine s : wired s -> wired (getMidi engine s).2.
Proof.
  intros Hw. unfold getMidi. destruct (midiService s); [exact Hw|].
  unfold getInstance.
  set (s0 := mkServer (world s) true (jzz s) (midiService s) (activeInputs s)
               (connectedInputs s) (listeners s) (console s)).
  assert (Hw1 : wired (if instance s then (None, s) else initialize engine s0).2).
  { destruct (instance s); [exact Hw|].
    eapply wired_same_inputs; [apply same_inputs_initialize|]. exact Hw. }
  destruct (if instance s then (None, s) else initialize engine s0)
    as [[err|] s1]; [exact Hw1|].
  simpl in Hw1.
  set (s2 := mkServer (world s1) (instance s1) (jzz s1) true (activeInputs s1)
               (connectedInputs s1) (listeners s1) (console s1)).
  assert (Hw2 : wired s2) by exact Hw1.
  pose proof (same_inputs_listPorts engine s2) as Hsame.
  assert (Hj : forall listed s3, listPorts engine s2 = (inr listed, s3) ->
                                jzz s3 = true).
  { unfold listPorts. intros listed s3.
    destruct (ensure_jzz engine s2) as [[err|] s'] eqn:He; [discriminate|].
    intros [= _ <-]. simpl. eapply ensure_jzz_ok. exact He. }
  destruct (listPorts engine s2) as [[err | listed] s3]; simpl in *.
  - eapply wired_same_inputs; eassumption.
  - apply auto_connect_all; [eapply Hj; reflexivity|].
    eapply wired_same_inputs; eassumption.
Qed.

Lemma happen_wired engine h s : wired s -> wired (happen engine h s).
Proof.
  intros Hw. destruct h as [schedule request | i | | port data]; simpl.
  - unfold handle. pose proof (getMidi_wired engine s Hw) as H.
    destruct (getMidi engine s) as [[err|] s']; simpl in *; [exact H|].
    eapply wired_same_inputs; [apply same_inputs_serve | exact H].
  - eapply wired_same_inputs; [apply same_inputs_fire | exact Hw].
  - unfold list_ports. pose proof (getMidi_wired engine s Hw) as H.
    destruct (getMidi engine s) as [[err|] s']; simpl in *; [exact H|].
    eapply wired_same_inputs; [apply same_inputs_listPorts | exact H].
  - eapply wired_same_inputs; [apply same_inputs_receive | exact Hw].
Qed.

Lemma life_wired engine : forall happenings s,
  wired s -> wired (life engine happenings s).
Proof.
  induction happenings as [|h happenings IH]; intros s Hw; [exact Hw|].
  apply IH, happen_wired, Hw.
Qed.

Lemma wired_fresh : wired fresh.
Proof.
  split; [constructor|]. split.
  - intros name. split; intros H; [set_solver | inversion H].
  - intros name port H. inversion H.
Qed.

(** X13. Over the whole life of the process, with its requests handled
    one at a time (tool calls, timers, port listings, incoming
    messages), whatever the library answers: no input port name ever has
    two logging listeners, the names recorded in [connectedInputs] are
    the names with a listener, and each listener sits on the handle
    cached for its name. So an incoming message is never logged twice
    under one name. *)
Theorem one_listener_per_input engine happenings :
  NoDup (listening (life engine happenings fresh))
  /\ (forall portName,
        portName ∈ connectedInputs (life engine happenings fresh)
        <-> portName ∈ listening (life engine happenings fresh))
  /\ (forall portName port,
        (portName, port) ∈ listeners (life engine happenings fresh) ->
        activeInputs (life engine happenings fresh) !! portName = Some port).
Proof. apply (life_wired engine happenings fresh wired_fresh). Qed.

Lemma listed_input_names (ins outs : list string) p :
  p ∈ map (fun n => mkMidiPort n n input) ins
      ++ map (fun n => mkMidiPort n n output) outs ->
  port_type p = input -> port_name p ∈ ins.
Proof.
  intros Hp Ht. apply elem_of_app in Hp as [Hp | Hp];
    apply list_elem_of_fmap in Hp as (n & -> & Hn); [exact Hn | discriminate Ht].
Qed.

Lemma input_names_listed (ins outs : list string) n :
  n ∈ ins ->
  mkMidiPort n n input
  ∈ map (fun n => mkMidiPort n n input) ins
    ++ map (fun n => mkMidiPort n n output) outs.
Proof.
  intros Hn. apply elem_of_app. left. apply list_elem_of_fmap. eauto.
Qed.

(** X14. The first request of a process whose library starts: [getMidi]
    succeeds whether or not the input ports open, the service is ready
    afterwards, every listener is on an input port the library listed,
    and every listed input port that the library opens has its listener
    and is recorded as connected. *)
Theorem first_call_connects_inputs engine :
  JZZ engine 0 = None ->
  (getMidi engine fresh).1 = None
  /\ ready (getMidi engine fresh).2
  /\ (forall portName,
        portName ∈ listening (getMidi engine fresh).2 ->
        portName ∈ (info engine 1).1)
  /\ (forall portName,
        portName ∈ (info engine 1).1 -> hearable engine portName ->
        portName ∈ connectedInputs (getMidi engine fresh).2
        /\ portName ∈ listening (getMidi engine fresh).2).
Proof.
  intros Hstart. unfold getMidi, getInstance, initialize. simpl.
  rewrite Hstart. simpl. unfold listPorts, ensure_jzz. simpl.
  match goal with
  | |- context [foldl (auto_connect engine) ?s ?l] =>
      destruct (auto_connect_all engine l s)
        as (Hw & Hj & Hm & Hi & Hl & Hc & Hh);
      [reflexivity | exact wired_fresh |]
  end.
  split; [reflexivity|]. split; [split; [exact Hj | exact Hm]|]. split.
  - intros name Hname. destruct (Hl name Hname) as [H | (p & Hp & Ht & ->)].
    + inversion H.
    + eapply listed_input_names; eassumption.
  - intros name Hname Hh'.
    assert (Hc' := Hh _ (input_names_listed _ (info engine 1).2 name Hname)
                     eq_refl Hh').
    split; [exact Hc'|]. destruct Hw as (_ & Hin & _). apply Hin, Hc'.
Qed.

Lemma first_call_connects_inputs_witness :
  "keys" ∈ connectedInputs (getMidi demo_engine fresh).2
  /\ "keys" ∈ listening (getMidi demo_engine fresh).2.
Proof.
  apply (first_call_connects_inputs demo_engine eq_refl).
  - simpl. apply elem_of_cons. left. reflexivity.
  - intros t. simpl. eauto.
Defined.

(** ** A library that fails to start twice *)

Section FailedStarts.

Variable engine : Engine.
Variables e1 e2 : string.
Hypothesis first_start : JZZ engine 0 = Some e1.
Hypothesis second_start : JZZ engine 1 = Some e2.

Lemma getMidi_failing s :
  deaf s -> midiService s = false ->
  exists s', getMidi engine s = (Some (if instance s then e2 else e1), s')
             /\ deaf s'.
Proof.
  intros (Hl & Hc & Hpre) Hm. destruct (Hpre Hm) as (Hj & Ht & Htick).
  unfold getMidi, getInstance. rewrite Hm. destruct (instance s) eqn:Hi.
  - unfold listPorts, ensure_jzz, initialize. simpl.
    rewrite Hj. simpl. rewrite Htick, second_start. simpl.
    eexists. split; [reflexivity|]. unfold deaf. simpl.
    split; [exact Hl|]. split; [exact Hc|]. discriminate.
  - unfold initialize. simpl. rewrite Htick, first_start. simpl.
    eexists. split; [reflexivity|]. unfold deaf. simpl.
    split; [exact Hl|]. split; [exact Hc|]. intros _.
    split; [exact Hj|]. split; [exact Ht|]. rewrite Htick. reflexivity.
Qed.

Lemma deaf_same_inputs s s' :
  midiService s = true -> same_inputs s s' -> deaf s -> deaf s'.
Proof.
  intros Hm (_ & Hm' & _ & Hc' & Hl') (Hl & Hc & _). unfold deaf.
  rewrite Hl', Hc', Hm', Hm. split; [exact Hl|]. split; [exact Hc|].
  discriminate.
Qed.

Lemma happen_deaf h s : deaf s -> deaf (happen engine h s).
Proof.
  intros Hd. destruct (midiService s) eqn:Hm.
  - assert (Hg : getMidi engine s = (None, s)).
    { unfold getMidi. rewrite Hm. reflexivity. }
    destruct h as [schedule request | i | | port data]; simpl.
    + unfold handle. rewrite Hg.
      eapply deaf_same_inputs; [exact Hm | apply same_inputs_serve | exact Hd].
    + eapply deaf_same_inputs; [exact Hm | apply same_inputs_fire | exact Hd].
    + unfold list_ports. rewrite Hg.
      eapply deaf_same_inputs;
        [exact Hm | apply same_inputs_listPorts | exact Hd].
    + eapply deaf_same_inputs;
        [exact Hm | apply same_inputs_receive | exact Hd].
  - destruct (getMidi_failing s Hd Hm) as (s' & Hg & Hd').
    pose proof Hd as (Hl & Hc & Hpre). destruct (Hpre Hm) as (Hj & Ht & Htick).
    destruct h as [schedule request | i | | port data]; simpl.
    + unfold handle. rewrite Hg. exact Hd'.
    + unfold service_fire. rewrite Ht. exact Hd.
    + unfold list_ports. rewrite Hg. exact Hd'.
    + unfold receive. rewrite Hl. exact Hd.
Qed.

Lemma life_deaf : forall happenings s,
  deaf s -> deaf (life engine happenings s).
Proof.
  induction happenings as [|h happenings IH]; intros s Hd; [exact Hd|].
  apply IH, happen_deaf, Hd.
Qed.

Lemma deaf_fresh : deaf fresh.
Proof. repeat split. Qed.

End FailedStarts.

(** X15. If the library fails to start at the first two requests, the
    first request is refused with the first error and the second with
    the second, each leaving the sends, the log and the caches as they
    were; and from then on, whatever happens and whatever the library
    answers later, no input port is listed for listening again: no
    input ever gets a listener, and a message that arrives is never
    logged. *)
Theorem two_failed_starts_leave_inputs_unheard engine e1 e2 happenings :
  JZZ engine 0 = Some e1 -> JZZ engine 1 = Some e2 ->
  (forall schedule request schedule' request',
     handle engine schedule request fresh
     = (Failure e1,
        mkServer (tock initial) true false false ∅ ∅ [] [InitFailed e1])
     /\ handle engine schedule' request'
          (handle engine schedule request fresh).2
        = (Failure e2,
           mkServer (tock (tock initial)) true false true ∅ ∅ []
             [InitFailed e1; InitFailed e2]))
  /\ listeners (life engine happenings fresh) = []
  /\ connectedInputs (life engine happenings fresh) = ∅
  /\ forall port data,
       receive engine port data (life engine happenings fresh)
       = life engine happenings fresh.
Proof.
  intros H1 H2. split.
  - intros schedule request schedule' request'.
    assert (Hfirst : handle engine schedule request fresh
                     = (Failure e1,
                        mkServer (tock initial) true false false ∅ ∅ []
                          [InitFailed e1])).
    { unfold handle, getMidi, getInstance, initialize. simpl.
      rewrite H1. reflexivity. }
    split; [exact Hfirst|]. rewrite Hfirst.
    unfold handle, getMidi, getInstance, listPorts, ensure_jzz, initialize.
    simpl. rewrite H2. reflexivity.
  - destruct (life_deaf engine e1 e2 H1 H2 happenings fresh deaf_fresh)
      as (Hl & Hc & _).
    split; [exact Hl|]. split; [exact Hc|]. intros port data.
    unfold receive. rewrite Hl. reflexivity.
Qed.

Lemma two_failed_starts_leave_inputs_unheard_witness :
  listeners
    (life slow_engine
       [Handles [] (call_other "a"); Handles [] (call_other "b");
        Lists; Lists]
       fresh)
  = [].
Proof.
  apply (two_failed_starts_leave_inputs_unheard slow_engine "no MIDI"
           "no MIDI" _ eq_refl eq_refl).
Defined.

(** ** Messages that arrive *)

Lemma log_calls_frame host calls : forall w,
  trace (log_calls host calls w) = trace w
  /\ activeOutputs (log_calls host calls w) = activeOutputs w
  /\ timers (log_calls host calls w) = timers w
  /\ stderr (log_calls host calls w) = stderr w ++ lines host (tick w) calls.
Proof.
  induction calls as [|call calls IH]; intros w.
  - simpl. rewrite app_nil_r. auto.
  - change (log_calls host (call :: calls) w)
      with (log_calls host calls (logMidi host call.1.1 call.1.2 call.2 w)).
    destruct (IH (logMidi host call.1.1 call.1.2 call.2 w))
      as (Ht & Ha & Hti & Hs).
    rewrite Ht, Ha, Hti, Hs. simpl. rewrite <- app_assoc. auto.
Qed.

Lemma receive_as_log_calls engine port data s :
  receive engine port data s
  = with_world
      (log_calls (engine_host engine)
         (map (fun portName => (IN, portName, data)) (listeners_on port s))
         (world s))
      s.
Proof.
  unfold receive, listeners_on. generalize (listeners s) as l. intros l.
  revert s. induction l as [|[name handle] l IH]; intros s.
  - simpl. rewrite with_world_world. reflexivity.
  - cbn [foldl fst snd]. destruct (Nat.eqb_spec handle port) as [Heq | Hne].
    + rewrite filter_cons_True by exact Heq. rewrite IH. reflexivity.
    + rewrite filter_cons_False by exact Hne. apply IH.
Qed.

Lemma listeners_on_NoDup port s : wired s -> NoDup (listeners_on port s).
Proof.
  intros [Hn _]. eapply sublist_NoDup; [exact Hn|].
  unfold listeners_on, listening.
  apply (fmap_sublist fst), sublist_filter.
Qed.

(** X16. A message that arrives on an input port is logged and nothing
    else: one [IN] line for each listener on that port, in the order the
    listeners were connected, written to standard error and put in front
    of the ring; no message is sent, no output port is opened, no timer
    is armed, and nothing of the service changes. Over the life of a
    process whose requests are handled one at a time, the listeners on a
    port have distinct names, so no line is written twice. *)
Theorem incoming_is_logged_not_forwarded engine port data s happenings :
  (receive engine port data s
   = with_world (world (receive engine port data s)) s
   /\ trace (world (receive engine port data s)) = trace (world s)
   /\ activeOutputs (world (receive engine port data s))
      = activeOutputs (world s)
   /\ timers (world (receive engine port data s)) = timers (world s)
   /\ stderr (world (receive engine port data s))
      = stderr (world s)
        ++ lines (engine_host engine) (tick (world s))
             (map (fun portName => (IN, portName, data))
                (listeners_on port s))
   /\ ((length (midiLogs (world s)) <= MAX_LOGS)%nat ->
       midiLogs (world (receive engine port data s))
       = take MAX_LOGS
           (reverse
              (lines (engine_host engine) (tick (world s))
                 (map (fun portName => (IN, portName, data))
                    (listeners_on port s)))
            ++ midiLogs (world s))))
  /\ NoDup (listeners_on port (life engine happenings fresh)).
Proof.
  split.
  - rewrite (receive_as_log_calls engine port data s). simpl.
    destruct (log_calls_frame (engine_host engine)
                (map (fun portName => (IN, portName, data))
                   (listeners_on port s)) (world s))
      as (Ht & Ha & Hti & Hs).
    split; [reflexivity|]. split; [exact Ht|]. split; [exact Ha|].
    split; [exact Hti|]. split; [exact Hs|].
    intros Hlen. apply log_calls_take. exact Hlen.
  - apply listeners_on_NoDup, life_wired, wired_fresh.
Qed.

(** ** The log and the output cache over the life of the whole server *)

Section ServiceWorld.

Variable engine : Engine.
Variable R : World -> World -> Prop.
Hypothesis R_refl : forall w, R w w.
Hypothesis R_trans : forall w1 w2 w3, R w1 w2 -> R w2 w3 -> R w1 w3.
Hypothesis R_perform : forall a w, R w (perform (engine_host engine) a w).2.
Hypothesis R_timers : forall w ts,
  R w (mkWorld (activeOutputs w) (midiLogs w) (stderr w) (trace w) ts (tick w)).
Hypothesis R_tock : forall w, R w (tock w).

Lemma lifted_refl s : lifted R s s.
Proof. apply R_refl. Qed.

Lemma lifted_trans s1 s2 s3 :
  lifted R s1 s2 -> lifted R s2 s3 -> lifted R s1 s3.
Proof. apply R_trans. Qed.

Lemma lifted_perform a s :
  lifted R s (with_world (perform (engine_host engine) a (world s)).2 s).
Proof. apply R_perform. Qed.

Lemma lifted_timers s ts :
  lifted R s
    (with_world
       (mkWorld (activeOutputs (world s)) (midiLogs (world s))
          (stderr (world s)) (trace (world s)) ts (tick (world s))) s).
Proof. apply R_timers. Qed.

Lemma lifted_initialize s : lifted R s (initialize engine s).2.
Proof.
  unfold initialize, lifted.
  destruct (JZZ engine (tick (world s))); apply R_tock.
Qed.

Lemma lifted_ensure_jzz s : lifted R s (ensure_jzz engine s).2.
Proof.
  unfold ensure_jzz. destruct (jzz s);
    [apply lifted_refl | apply lifted_initialize].
Qed.

Lemma lifted_listPorts s : lifted R s (listPorts engine s).2.
Proof.
  unfold listPorts. pose proof (lifted_ensure_jzz s) as H.
  destruct (ensure_jzz engine s) as [[err|] s']; simpl in *; [exact H|].
  eapply lifted_trans; [exact H | apply R_tock].
Qed.

Lemma lifted_listen portName s : lifted R s (listen engine portName s).2.
Proof.
  unfold listen. pose proof (lifted_ensure_jzz s) as H.
  destruct (ensure_jzz engine s) as [[err|] s']; simpl in *; [exact H|].
  eapply lifted_trans; [exact H|].
  destruct (activeInputs s' !! portName); [apply R_refl|].
  destruct (openMidiIn engine (tick (world s')) portName); apply R_tock.
Qed.

Lemma lifted_auto_connect s port : lifted R s (auto_connect engine s port).
Proof.
  unfold auto_connect. destruct (port_type port); [|apply lifted_refl].
  destruct (decide (port_name port ∈ connectedInputs s)); [apply lifted_refl|].
  pose proof (lifted_listen (port_name port) s) as H.
  destruct (listen engine (port_name port) s) as [[err|] s']; exact H.
Qed.

Lemma lifted_auto_connect_all : forall listed s,
  lifted R s (foldl (auto_connect engine) s listed).
Proof.
  induction listed as [|p listed IH]; intros s; [apply lifted_refl|].
  eapply lifted_trans; [apply (lifted_auto_connect s p) | apply IH].
Qed.

Lemma lifted_getMidi s : lifted R s (getMidi engine s).2.
Proof.
  unfold getMidi. destruct (midiService s); [apply lifted_refl|].
  unfold getInstance.
  set (s0 := mkServer (world s) true (jzz s) (midiService s) (activeInputs s)
               (connectedInputs s) (listeners s) (console s)).
  assert (H1 : lifted R s (if instance s then (None, s)
                         else initialize engine s0).2).
  { destruct (instance s); [apply lifted_refl|].
    apply (lifted_initialize s0). }
  destruct (if instance s then (None, s) else initialize engine s0)
    as [[err|] s1]; [exact H1|].
  simpl in H1.
  set (s2 := mkServer (world s1) (instance s1) (jzz s1) true (activeInputs s1)
               (connectedInputs s1) (listeners s1) (console s1)).
  pose proof (lifted_listPorts s2) as H2.
  destruct (listPorts engine s2) as [[err | listed] s3]; simpl in *.
  - eapply R_trans; [exact H1 | exact H2].
  - eapply R_trans; [exact H1|]. eapply R_trans; [exact H2|].
    apply lifted_auto_connect_all.
Qed.

Lemma lifted_happen h s : lifted R s (happen engine h s).
Proof.
  destruct h as [schedule request | i | | port data]; simpl.
  - unfold handle. pose proof (lifted_getMidi s) as H.
    destruct (getMidi engine s) as [[err|] s']; simpl in *; [exact H|].
    eapply lifted_trans; [exact H|].
    apply service_serve_preserved;
      first [ apply lifted_refl | apply lifted_trans | apply lifted_perform
            | apply lifted_timers | apply lifted_initialize ].
  - apply service_fire_preserved;
      first [ apply lifted_refl | apply lifted_trans | apply lifted_perform
            | apply lifted_timers | apply lifted_initialize ].
  - unfold list_ports. pose proof (lifted_getMidi s) as H.
    destruct (getMidi engine s) as [[err|] s']; simpl in *; [exact H|].
    eapply lifted_trans; [exact H | apply lifted_listPorts].
  - apply receive_preserved;
      first [ apply lifted_refl | apply lifted_trans | apply lifted_perform
            | apply lifted_timers | apply lifted_initialize ].
Qed.

Lemma lifted_life : forall happenings s, lifted R s (life engine happenings s).
Proof.
  induction happenings as [|h happenings IH]; intros s; [apply lifted_refl|].
  eapply lifted_trans; [apply (lifted_happen h s) | apply IH].
Qed.

End ServiceWorld.

Lemma ring_follows_tock w : ring_follows w (tock w).
Proof. apply (ring_follows_refl w). Qed.

Lemma cache_follows_tock w : cache_follows w (tock w).
Proof. split; [reflexivity | auto]. Qed.

(** X17. Over the whole life of the server, failed and late starts,
    port listings and incoming messages included, handled one at a time:
    the log ring holds the 100 most recent lines of the log, incoming
    and outgoing alike, newest first; each output port is opened at most
    once, and exactly when its handle is cached. *)
Theorem server_log_and_cache_for_life engine happenings :
  midiLogs (world (life engine happenings fresh))
  = take MAX_LOGS (reverse (stderr (world (life engine happenings fresh))))
  /\ forall portName,
       (opens portName (trace (world (life engine happenings fresh))) <= 1)%nat
       /\ (opens portName (trace (world (life engine happenings fresh))) = 1%nat
           <-> is_Some (activeOutputs (world (life engine happenings fresh))
                        !! portName)).
Proof.
  split.
  - destruct (lifted_life engine ring_follows ring_follows_refl
                ring_follows_trans (ring_follows_perform _)
                ring_follows_timers ring_follows_tock happenings fresh)
      as (_ & added & Hs & Hl); [simpl; lia|].
    rewrite Hl, Hs. simpl. rewrite app_nil_r. reflexivity.
  - intros portName.
    destruct (lifted_life engine cache_follows cache_follows_refl
                cache_follows_trans (cache_follows_perform _)
                cache_follows_timers cache_follows_tock happenings fresh)
      as [_ Hcount].
    rewrite (Hcount (fun name => eq_refl) portName).
    destruct (activeOutputs (world (life engine happenings fresh)) !! portName).
    + split; [lia|]. split; eauto.
    + split; [lia|]. split; [discriminate|]. intros [x Hx]. discriminate Hx.
Qed.

(** ** Reading the ports and the prompt *)









(** ** The note table *)

Lemma note_table_distinct :
  forallb (fun i =>
             forallb (fun j =>
                        implb (String.eqb (note_name i) (note_name j))
                          (Nat.eqb i j))
               (seq 0 128))
    (seq 0 128)
  = true.
Proof. vm_compute. reflexivity. Qed.

(** X19. The 128 entries of the note table have 128 different names:
    a name of the table stands for one note number only. *)
Theorem note_names_distinct (i j : nat) :
  (i < 128)%nat -> (j < 128)%nat -> i <> j -> note_name i <> note_name j.
Proof.
  intros Hi Hj Hne Heq. pose proof note_table_distinct as H.
  rewrite forallb_forall in H.
  assert (Hin : forall k, (k < 128)%nat -> In k (seq 0 128)).
  { intros k Hk. apply in_seq. lia. }
  specialize (H i (Hin i Hi)). rewrite forallb_forall in H.
  specialize (H j (Hin j Hj)).
  rewrite Heq, String.eqb_refl in H. simpl in H.
  apply Nat.eqb_eq in H. exact (Hne H).
Qed.

Lemma note_names_distinct_witness : note_name 60 <> note_name 72.
Proof. apply (note_names_distinct 60 72); lia. Defined.
